(** * Porto container supervisor: persistent key-value store and container
      state machine, embedded from kvalue.cpp, container.cpp and property.cpp. *)

From stdpp Require Import gmap strings list fin_maps.
From Stdlib Require Import ZArith Lia.

Local Open Scope string_scope.
Local Open Scope list_scope.
Local Open Scope nat_scope.

(** ** Errors (error.hpp is not among the sources; the kinds are the ones the
       code names through [EError::...]) *)

Inductive EError :=
  | Success | Unknown | InvalidValue | InvalidProperty | InvalidData
  | InvalidState | NotSupported | Permission | ResourceNotAvailable
  | ContainerAlreadyExists | ContainerDoesNotExist.

#[global] Instance EError_eq_dec : EqDecision EError.
Proof. solve_decision. Defined.

(** A [TError] carries its kind and the errno it wraps; messages are left out. *)
Record TError := mkError { Error : EError; Errno : Z }.

#[global] Instance TError_eq_dec : EqDecision TError.
Proof. solve_decision. Defined.

Definition TError_Success : TError := mkError Success 0.
Definition TError_of (k : EError) : TError := mkError k 0.

(** [if (error)] in the sources: true for everything but [Success]. *)
Definition is_error (e : TError) : bool := negb (bool_decide (Error e = Success)).

(** ** kvalue.cpp *)

Module TKeyValueStorage.

(** kv::TNode is a protobuf message with one repeated field of key/value
    pairs. *)
Record TPair := mkPair { key : string; val : string }.

#[global] Instance TPair_eq_dec : EqDecision TPair.
Proof. solve_decision. Defined.

Definition TNode := list TPair.

(** Modelled from the spec: util/protobuf.hpp (ReadDelimitedFrom,
    WriteDelimitedTo) is not among the sources.  A file is "a sequence of
    length-delimited typed records, each containing key/value string
    pairs"; a record that cannot be parsed is [Corrupt]. *)
Inductive TRecord :=
  | Good (node : TNode)
  | Corrupt.

Definition TFile := list TRecord.

(** The tmpfs directory in listing order, with the outcome of listing it
    (TFolder::Items). *)
Record Tmpfs := mkTmpfs { Dir : list (string * TFile); ItemsError : TError }.

Fixpoint FindFile (dir : list (string * TFile)) (name : string) : option TFile :=
  match dir with
  | [] => None
  | (n, f) :: rest => if decide (n = name) then Some f else FindFile rest name
  end.

Fixpoint PutFile (dir : list (string * TFile)) (name : string) (f : TFile)
  : list (string * TFile) :=
  match dir with
  | [] => [(name, f)]
  | (n, g) :: rest =>
      if decide (n = name) then (n, f) :: rest else (n, g) :: PutFile rest name f
  end.

(** Modelled from the spec: ReadDelimitedFrom yields the next record of the
    stream, and fails at the end of the file and on a corrupt record. *)
Definition ReadDelimitedFrom (s : TFile) : option TNode * TFile :=
  match s with
  | Good node :: rest => (Some node, rest)
  | Corrupt :: rest => (None, rest)
  | [] => (None, [])
  end.

(** The inner loop of Merge: the first pair of [node] with this key takes
    the value; the flag is [replaced]. *)
Fixpoint ReplaceFirst (k v : string) (node : TNode) : TNode * bool :=
  match node with
  | [] => ([], false)
  | p :: rest =>
      if decide (k = key p) then (mkPair (key p) v :: rest, true)
      else let '(rest', replaced) := ReplaceFirst k v rest in (p :: rest', replaced)
  end.

(** One iteration of the outer loop of Merge. *)
Definition MergePair (node : TNode) (p : TPair) : TNode :=
  let '(node', replaced) := ReplaceFirst (key p) (val p) node in
  if replaced then node' else node' ++ [mkPair (key p) (val p)].

Definition Merge (node next : TNode) : TNode := fold_left MergePair next node.

(** The [while (ReadDelimitedFrom(&pist, &next)) Merge(node, next);] loop:
    it ends at the first read that fails. *)
Fixpoint MergeWhile (s : TFile) (node : TNode) : TNode :=
  match s with
  | Good next :: rest => MergeWhile rest (Merge node next)
  | _ => node
  end.

(** LoadNode: a file that cannot be opened reads as an empty stream. *)
Definition LoadNode (st : Tmpfs) (name : string) : TError * TNode :=
  let s := default [] (FindFile (Dir st) name) in
  let '(first, s1) := ReadDelimitedFrom s in
  let '(error, node) :=
    match first with
    | Some node => (TError_Success, node)
    | None => (TError_of Unknown, [])
    end in
  (error, MergeWhile s1 node).

(** Outcome of the system calls of a write. *)
Inductive TIo := IoOk | IoSeekFails (errno : Z) | IoWriteFails.

(** AppendNode: open with O_CREAT, seek to the end, write one record.  A
    failed write is taken to leave a torn record behind. *)
Definition AppendNode (io : TIo) (st : Tmpfs) (name : string) (node : TNode)
  : TError * Tmpfs :=
  let f := default [] (FindFile (Dir st) name) in
  match io with
  | IoSeekFails errno => (mkError Unknown errno, st)
  | IoWriteFails =>
      (TError_of Unknown, mkTmpfs (PutFile (Dir st) name (f ++ [Corrupt])) (ItemsError st))
  | IoOk =>
      (TError_Success, mkTmpfs (PutFile (Dir st) name (f ++ [Good node])) (ItemsError st))
  end.

(** SaveNode: open with O_TRUNC and write one record. *)
Definition SaveNode (io : TIo) (st : Tmpfs) (name : string) (node : TNode)
  : TError * Tmpfs :=
  match io with
  | IoOk => (TError_Success, mkTmpfs (PutFile (Dir st) name [Good node]) (ItemsError st))
  | _ => (TError_of Unknown, mkTmpfs (PutFile (Dir st) name [Corrupt]) (ItemsError st))
  end.

Definition ListNodes (st : Tmpfs) : TError * list string :=
  if is_error (ItemsError st) then (ItemsError st, []) else (TError_Success, (Dir st).*1).

(** The loop of Restore over the listed names. *)
Fixpoint RestoreNodes (st : Tmpfs) (nodes : list string) (map : gmap string TNode)
  : TError * gmap string TNode :=
  match nodes with
  | [] => (TError_Success, map)
  | name :: rest =>
      let '(error, node) := LoadNode st name in
      if is_error error then (error, map)
      else RestoreNodes st rest (<[name := node]> map)
  end.

Definition Restore (st : Tmpfs) (map : gmap string TNode) : TError * gmap string TNode :=
  let '(error, nodes) := ListNodes st in
  if is_error error then (error, map) else RestoreNodes st nodes map.

(** The loop of Dump: the names whose node was printed; a node that does
    not load is reported and passed over. *)
Fixpoint DumpNodes (st : Tmpfs) (nodes : list string) : list (string * TNode) :=
  match nodes with
  | [] => []
  | name :: rest =>
      let '(error, node) := LoadNode st name in
      if is_error error then DumpNodes st rest
      else (name, node) :: DumpNodes st rest
  end.

(** Reading a node: the value of the first pair with the key. *)
Fixpoint Lookup (k : string) (node : TNode) : option string :=
  match node with
  | [] => None
  | p :: rest => if decide (k = key p) then Some (val p) else Lookup k rest
  end.

End TKeyValueStorage.

(** ** container.cpp: the data model *)

Module TContainer.

(** EContainerState: the states ContainerStateName names. *)
Inductive EContainerState := Stopped | Dead | Running | Paused | Meta.

#[global] Instance EContainerState_eq_dec : EqDecision EContainerState.
Proof. solve_decision. Defined.

Definition ContainerStateName (state : EContainerState) : string :=
  match state with
  | Stopped => "stopped"
  | Dead => "dead"
  | Running => "running"
  | Paused => "paused"
  | Meta => "meta"
  end.

(** The cgroup controllers PrepareCgroups binds. *)
Inductive TSubsystem :=
  | cpuSubsystem | cpuacctSubsystem | memorySubsystem | freezerSubsystem
  | blkioSubsystem | netclsSubsystem | devicesSubsystem.

#[global] Instance TSubsystem_eq_dec : EqDecision TSubsystem.
Proof. solve_decision. Defined.

(** TPath::GetType. *)
Inductive EFileType := Regular | Directory | Character | Block | Missing.

#[global] Instance EFileType_eq_dec : EqDecision EFileType.
Proof. solve_decision. Defined.

(** P_VIRT_MODE holds one of two constants. *)
Inductive EVirtMode := VIRT_MODE_APP | VIRT_MODE_OS.

#[global] Instance EVirtMode_eq_dec : EqDecision EVirtMode.
Proof. solve_decision. Defined.

(** Modelled from the spec: task.cpp is not among the sources.  A task is
    the "handle to a running process group, supplied by TaskLauncher": its
    root pid, whether it runs, and the exit status delivered to it. *)
Record TTask := mkTask { Pid : Z; IsRunning : bool; ExitStatus : Z }.

(** Modelled from the spec: the traffic class handle, "major is fixed;
    minor = container id". *)
Record TTclass := mkTclass { Major : Z; Minor : nat }.

(** The properties the state machine reads.  [None] is a value left at its
    default. *)
Record TProps := mkProps {
  P_COMMAND : option string;
  P_ROOT : string;
  P_ROOT_RDONLY : bool;
  P_ISOLATE : option bool;
  P_VIRT_MODE : EVirtMode;
  P_CPU_POLICY : string;
  P_RESPAWN : bool;
  P_MAX_RESPAWNS : Z;
  P_RAW_LOOP_DEV : Z;
  P_RAW_ROOT_PID : option Z;
  P_RAW_START_TIME : option Z;
  P_RAW_DEATH_TIME : option Z;
  P_UINT : gmap string Z
}.

(** The data fields the state machine writes. *)
Record TData := mkData {
  D_STATE : option string;
  D_EXIT_STATUS : Z;
  D_OOM_KILLED : bool;
  D_RESPAWN_COUNT : Z;
  D_START_ERRNO : Z
}.

(** A container object.  [Parent] and [Children] hold object references
    (the shared and weak pointers of the source); [Frozen] and
    [MemSoftLimit] are the freezer state and memory.soft_limit_in_bytes of
    the container's leaf cgroups. *)
Record TContainer := mkContainer {
  Id : nat;
  Name : string;
  Parent : option nat;
  Children : list nat;
  State : EContainerState;
  RunningChildren : Z;
  Acquired : bool;
  LostAndRestored : bool;
  Task : option TTask;
  LeafCgroups : list TSubsystem;
  Tclass : option TTclass;
  Efd : Z;
  Source : option Z;
  Props : TProps;
  Data : TData;
  Frozen : bool;
  MemSoftLimit : Z
}.

Definition set_Children (v : list nat) (c : TContainer) : TContainer :=
  mkContainer (Id c) (Name c) (Parent c) v (State c) (RunningChildren c) (Acquired c) (LostAndRestored c) (Task c) (LeafCgroups c) (Tclass c) (Efd c) (Source c) (Props c) (Data c) (Frozen c) (MemSoftLimit c).

Definition set_State (v : EContainerState) (c : TContainer) : TContainer :=
  mkContainer (Id c) (Name c) (Parent c) (Children c) v (RunningChildren c) (Acquired c) (LostAndRestored c) (Task c) (LeafCgroups c) (Tclass c) (Efd c) (Source c) (Props c) (Data c) (Frozen c) (MemSoftLimit c).

Definition set_RunningChildren (v : Z) (c : TContainer) : TContainer :=
  mkContainer (Id c) (Name c) (Parent c) (Children c) (State c) v (Acquired c) (LostAndRestored c) (Task c) (LeafCgroups c) (Tclass c) (Efd c) (Source c) (Props c) (Data c) (Frozen c) (MemSoftLimit c).

Definition set_Acquired (v : bool) (c : TContainer) : TContainer :=
  mkContainer (Id c) (Name c) (Parent c) (Children c) (State c) (RunningChildren c) v (LostAndRestored c) (Task c) (LeafCgroups c) (Tclass c) (Efd c) (Source c) (Props c) (Data c) (Frozen c) (MemSoftLimit c).

Definition set_LostAndRestored (v : bool) (c : TContainer) : TContainer :=
  mkContainer (Id c) (Name c) (Parent c) (Children c) (State c) (RunningChildren c) (Acquired c) v (Task c) (LeafCgroups c) (Tclass c) (Efd c) (Source c) (Props c) (Data c) (Frozen c) (MemSoftLimit c).

Definition set_Task (v : option TTask) (c : TContainer) : TContainer :=
  mkContainer (Id c) (Name c) (Parent c) (Children c) (State c) (RunningChildren c) (Acquired c) (LostAndRestored c) v (LeafCgroups c) (Tclass c) (Efd c) (Source c) (Props c) (Data c) (Frozen c) (MemSoftLimit c).

Definition set_LeafCgroups (v : list TSubsystem) (c : TContainer) : TContainer :=
  mkContainer (Id c) (Name c) (Parent c) (Children c) (State c) (RunningChildren c) (Acquired c) (LostAndRestored c) (Task c) v (Tclass c) (Efd c) (Source c) (Props c) (Data c) (Frozen c) (MemSoftLimit c).

Definition set_Tclass (v : option TTclass) (c : TContainer) : TContainer :=
  mkContainer (Id c) (Name c) (Parent c) (Children c) (State c) (RunningChildren c) (Acquired c) (LostAndRestored c) (Task c) (LeafCgroups c) v (Efd c) (Source c) (Props c) (Data c) (Frozen c) (MemSoftLimit c).

Definition set_Efd (v : Z) (c : TContainer) : TContainer :=
  mkContainer (Id c) (Name c) (Parent c) (Children c) (State c) (RunningChildren c) (Acquired c) (LostAndRestored c) (Task c) (LeafCgroups c) (Tclass c) v (Source c) (Props c) (Data c) (Frozen c) (MemSoftLimit c).

Definition set_Source (v : option Z) (c : TContainer) : TContainer :=
  mkContainer (Id c) (Name c) (Parent c) (Children c) (State c) (RunningChildren c) (Acquired c) (LostAndRestored c) (Task c) (LeafCgroups c) (Tclass c) (Efd c) v (Props c) (Data c) (Frozen c) (MemSoftLimit c).

Definition set_Props (v : TProps) (c : TContainer) : TContainer :=
  mkContainer (Id c) (Name c) (Parent c) (Children c) (State c) (RunningChildren c) (Acquired c) (LostAndRestored c) (Task c) (LeafCgroups c) (Tclass c) (Efd c) (Source c) v (Data c) (Frozen c) (MemSoftLimit c).

Definition set_Data (v : TData) (c : TContainer) : TContainer :=
  mkContainer (Id c) (Name c) (Parent c) (Children c) (State c) (RunningChildren c) (Acquired c) (LostAndRestored c) (Task c) (LeafCgroups c) (Tclass c) (Efd c) (Source c) (Props c) v (Frozen c) (MemSoftLimit c).

Definition set_Frozen (v : bool) (c : TContainer) : TContainer :=
  mkContainer (Id c) (Name c) (Parent c) (Children c) (State c) (RunningChildren c) (Acquired c) (LostAndRestored c) (Task c) (LeafCgroups c) (Tclass c) (Efd c) (Source c) (Props c) (Data c) v (MemSoftLimit c).

Definition set_MemSoftLimit (v : Z) (c : TContainer) : TContainer :=
  mkContainer (Id c) (Name c) (Parent c) (Children c) (State c) (RunningChildren c) (Acquired c) (LostAndRestored c) (Task c) (LeafCgroups c) (Tclass c) (Efd c) (Source c) (Props c) (Data c) (Frozen c) v.

Definition set_P_COMMAND (v : option string) (p : TProps) : TProps :=
  mkProps v (P_ROOT p) (P_ROOT_RDONLY p) (P_ISOLATE p) (P_VIRT_MODE p) (P_CPU_POLICY p) (P_RESPAWN p) (P_MAX_RESPAWNS p) (P_RAW_LOOP_DEV p) (P_RAW_ROOT_PID p) (P_RAW_START_TIME p) (P_RAW_DEATH_TIME p) (P_UINT p).

Definition set_P_ROOT (v : string) (p : TProps) : TProps :=
  mkProps (P_COMMAND p) v (P_ROOT_RDONLY p) (P_ISOLATE p) (P_VIRT_MODE p) (P_CPU_POLICY p) (P_RESPAWN p) (P_MAX_RESPAWNS p) (P_RAW_LOOP_DEV p) (P_RAW_ROOT_PID p) (P_RAW_START_TIME p) (P_RAW_DEATH_TIME p) (P_UINT p).

Definition set_P_ROOT_RDONLY (v : bool) (p : TProps) : TProps :=
  mkProps (P_COMMAND p) (P_ROOT p) v (P_ISOLATE p) (P_VIRT_MODE p) (P_CPU_POLICY p) (P_RESPAWN p) (P_MAX_RESPAWNS p) (P_RAW_LOOP_DEV p) (P_RAW_ROOT_PID p) (P_RAW_START_TIME p) (P_RAW_DEATH_TIME p) (P_UINT p).

Definition set_P_ISOLATE (v : option bool) (p : TProps) : TProps :=
  mkProps (P_COMMAND p) (P_ROOT p) (P_ROOT_RDONLY p) v (P_VIRT_MODE p) (P_CPU_POLICY p) (P_RESPAWN p) (P_MAX_RESPAWNS p) (P_RAW_LOOP_DEV p) (P_RAW_ROOT_PID p) (P_RAW_START_TIME p) (P_RAW_DEATH_TIME p) (P_UINT p).

Definition set_P_VIRT_MODE (v : EVirtMode) (p : TProps) : TProps :=
  mkProps (P_COMMAND p) (P_ROOT p) (P_ROOT_RDONLY p) (P_ISOLATE p) v (P_CPU_POLICY p) (P_RESPAWN p) (P_MAX_RESPAWNS p) (P_RAW_LOOP_DEV p) (P_RAW_ROOT_PID p) (P_RAW_START_TIME p) (P_RAW_DEATH_TIME p) (P_UINT p).

Definition set_P_CPU_POLICY (v : string) (p : TProps) : TProps :=
  mkProps (P_COMMAND p) (P_ROOT p) (P_ROOT_RDONLY p) (P_ISOLATE p) (P_VIRT_MODE p) v (P_RESPAWN p) (P_MAX_RESPAWNS p) (P_RAW_LOOP_DEV p) (P_RAW_ROOT_PID p) (P_RAW_START_TIME p) (P_RAW_DEATH_TIME p) (P_UINT p).

Definition set_P_RESPAWN (v : bool) (p : TProps) : TProps :=
  mkProps (P_COMMAND p) (P_ROOT p) (P_ROOT_RDONLY p) (P_ISOLATE p) (P_VIRT_MODE p) (P_CPU_POLICY p) v (P_MAX_RESPAWNS p) (P_RAW_LOOP_DEV p) (P_RAW_ROOT_PID p) (P_RAW_START_TIME p) (P_RAW_DEATH_TIME p) (P_UINT p).

Definition set_P_MAX_RESPAWNS (v : Z) (p : TProps) : TProps :=
  mkProps (P_COMMAND p) (P_ROOT p) (P_ROOT_RDONLY p) (P_ISOLATE p) (P_VIRT_MODE p) (P_CPU_POLICY p) (P_RESPAWN p) v (P_RAW_LOOP_DEV p) (P_RAW_ROOT_PID p) (P_RAW_START_TIME p) (P_RAW_DEATH_TIME p) (P_UINT p).

Definition set_P_RAW_LOOP_DEV (v : Z) (p : TProps) : TProps :=
  mkProps (P_COMMAND p) (P_ROOT p) (P_ROOT_RDONLY p) (P_ISOLATE p) (P_VIRT_MODE p) (P_CPU_POLICY p) (P_RESPAWN p) (P_MAX_RESPAWNS p) v (P_RAW_ROOT_PID p) (P_RAW_START_TIME p) (P_RAW_DEATH_TIME p) (P_UINT p).

Definition set_P_RAW_ROOT_PID (v : option Z) (p : TProps) : TProps :=
  mkProps (P_COMMAND p) (P_ROOT p) (P_ROOT_RDONLY p) (P_ISOLATE p) (P_VIRT_MODE p) (P_CPU_POLICY p) (P_RESPAWN p) (P_MAX_RESPAWNS p) (P_RAW_LOOP_DEV p) v (P_RAW_START_TIME p) (P_RAW_DEATH_TIME p) (P_UINT p).

Definition set_P_RAW_START_TIME (v : option Z) (p : TProps) : TProps :=
  mkProps (P_COMMAND p) (P_ROOT p) (P_ROOT_RDONLY p) (P_ISOLATE p) (P_VIRT_MODE p) (P_CPU_POLICY p) (P_RESPAWN p) (P_MAX_RESPAWNS p) (P_RAW_LOOP_DEV p) (P_RAW_ROOT_PID p) v (P_RAW_DEATH_TIME p) (P_UINT p).

Definition set_P_RAW_DEATH_TIME (v : option Z) (p : TProps) : TProps :=
  mkProps (P_COMMAND p) (P_ROOT p) (P_ROOT_RDONLY p) (P_ISOLATE p) (P_VIRT_MODE p) (P_CPU_POLICY p) (P_RESPAWN p) (P_MAX_RESPAWNS p) (P_RAW_LOOP_DEV p) (P_RAW_ROOT_PID p) (P_RAW_START_TIME p) v (P_UINT p).

Definition set_P_UINT (v : gmap string Z) (p : TProps) : TProps :=
  mkProps (P_COMMAND p) (P_ROOT p) (P_ROOT_RDONLY p) (P_ISOLATE p) (P_VIRT_MODE p) (P_CPU_POLICY p) (P_RESPAWN p) (P_MAX_RESPAWNS p) (P_RAW_LOOP_DEV p) (P_RAW_ROOT_PID p) (P_RAW_START_TIME p) (P_RAW_DEATH_TIME p) v.

Definition set_D_STATE (v : option string) (d : TData) : TData :=
  mkData v (D_EXIT_STATUS d) (D_OOM_KILLED d) (D_RESPAWN_COUNT d) (D_START_ERRNO d).

Definition set_D_EXIT_STATUS (v : Z) (d : TData) : TData :=
  mkData (D_STATE d) v (D_OOM_KILLED d) (D_RESPAWN_COUNT d) (D_START_ERRNO d).

Definition set_D_OOM_KILLED (v : bool) (d : TData) : TData :=
  mkData (D_STATE d) (D_EXIT_STATUS d) v (D_RESPAWN_COUNT d) (D_START_ERRNO d).

Definition set_D_RESPAWN_COUNT (v : Z) (d : TData) : TData :=
  mkData (D_STATE d) (D_EXIT_STATUS d) (D_OOM_KILLED d) v (D_START_ERRNO d).

Definition set_D_START_ERRNO (v : Z) (d : TData) : TData :=
  mkData (D_STATE d) (D_EXIT_STATUS d) (D_OOM_KILLED d) (D_RESPAWN_COUNT d) v.

Definition P_MEM_GUARANTEE : string := "memory_guarantee".
Definition P_MEM_LIMIT : string := "memory_limit".

(** Prop->Get: the value, or the default of property.cpp. *)
Definition Get_COMMAND (c : TContainer) : string :=
  match P_COMMAND (Props c) with
  | Some s => s
  | None => if decide (P_VIRT_MODE (Props c) = VIRT_MODE_OS) then "/sbin/init" else ""
  end.

Definition Get_ISOLATE (c : TContainer) : bool := default true (P_ISOLATE (Props c)).

Definition Get_uint (c : TContainer) (property : string) : Z :=
  default 0%Z (P_UINT (Props c) !! property).

(** Modelled from the spec: the reserved ids, "0 is the host root; 1 is the
    porto root". *)
Definition ROOT_CONTAINER_ID : nat := 0.
Definition PORTO_ROOT_CONTAINER_ID : nat := 1.

Definition IsRoot (c : TContainer) : bool := bool_decide (Id c = ROOT_CONTAINER_ID).
Definition IsPortoRoot (c : TContainer) : bool := bool_decide (Id c = PORTO_ROOT_CONTAINER_ID).

(** The process-wide state: the container objects by reference (references
    are handed out in allocation order and never reused), the OOM event
    sources registered with the epoll loop, the loop devices taken from the
    pool, the event queue and the start counter. *)
Record TWorld := mkWorld {
  Containers : gmap nat TContainer;
  NextRef : nat;
  EpollSources : list Z;
  LoopBusy : list Z;
  Queue : list nat;
  Started : nat
}.

Definition set_Containers (h : gmap nat TContainer) (w : TWorld) : TWorld :=
  mkWorld h (NextRef w) (EpollSources w) (LoopBusy w) (Queue w) (Started w).
Definition set_EpollSources (v : list Z) (w : TWorld) : TWorld :=
  mkWorld (Containers w) (NextRef w) v (LoopBusy w) (Queue w) (Started w).
Definition set_LoopBusy (v : list Z) (w : TWorld) : TWorld :=
  mkWorld (Containers w) (NextRef w) (EpollSources w) v (Queue w) (Started w).
Definition set_Queue (v : list nat) (w : TWorld) : TWorld :=
  mkWorld (Containers w) (NextRef w) (EpollSources w) (LoopBusy w) v (Started w).
Definition set_Started (v : nat) (w : TWorld) : TWorld :=
  mkWorld (Containers w) (NextRef w) (EpollSources w) (LoopBusy w) (Queue w) v.

(** [this->field = ...] for the object [this]. *)
Definition upd (this : nat) (f : TContainer → TContainer) (w : TWorld) : TWorld :=
  set_Containers (alter f this (Containers w)) w.

(** ** The kernel and the collaborators

    The cgroup driver, the netlink driver, the task launcher, the property
    store and the loop-device pool are not among the sources.  Their
    answers are the fields of [TEnv], one per call the state machine
    makes; the container is named by its reference. *)

Inductive TKnob :=
  | K_use_hierarchy | K_mem_guarantee | K_mem_limit | K_recharge_on_pgfault
  | K_cpu_policy | K_cpu_limit | K_cpu_guarantee | K_blkio_policy | K_io_limit
  | K_classid | K_event_control | K_devices_allow.

Record TEnv := mkEnv {
  network_enabled : bool;
  GetCurrentTimeMs : Z;
  PrivilegedUser : nat → bool;
  WriteKnob : nat → TKnob → TError;
  CgroupCreate : nat → TSubsystem → TError;
  TclassCreate : nat → TError;
  QdiscMajor : Z;
  eventfd : nat → Z;
  AddSource : nat → TError;
  OpenOomControl : nat → Z;
  RootType : nat → EFileType;
  GetLoopDev : TError * Z;
  PutLoopDev : Z → TError;
  PropSet : nat → string → TError;
  DataSet : nat → string → TError;
  Revalidate : nat → TError;
  PrepareTaskEnv : nat → TError;
  TaskStart : nat → TError * Z;
  Freeze : nat → TError;
  Unfreeze : nat → TError;
  GetTasks : nat → TError;
  KillCgroup : nat → Z → TError;
  TaskKill : nat → Z → TError;
  StopTimedOut : nat → bool;
  GetProcesses : nat → list Z;
  FdHasEvent : Z → bool;
  RootSoftLimit : TError * Z;
  GetSoftLimit : nat → TError;
  SetSoftLimit : nat → TError
}.

Definition SIGKILL : Z := 9.
Definition SIGTERM : Z := 15.
Definition EBUSY : Z := 16.

(** size_t and uint64_t arithmetic wraps at 2^64. *)
Definition wrap64 (z : Z) : Z := (z mod 2 ^ 64)%Z.

(** ** container.cpp: the running-children counter and the state *)

(** UpdateRunningChildren(diff): add to this counter, then to the
    parent's.  A parent is allocated before its children, so [S this]
    steps reach the root. *)
Fixpoint UpdateRunningChildren_fuel (n : nat) (h : gmap nat TContainer)
    (this : nat) (diff : Z) : gmap nat TContainer :=
  match n with
  | O => h
  | S n' =>
      match h !! this with
      | None => h
      | Some c =>
          let h1 := <[this := set_RunningChildren (wrap64 (RunningChildren c + diff)) c]> h in
          match Parent c with
          | Some p => UpdateRunningChildren_fuel n' h1 p diff
          | None => h1
          end
      end
  end.

Definition UpdateRunningChildren (h : gmap nat TContainer) (this : nat) (diff : Z)
  : gmap nat TContainer :=
  UpdateRunningChildren_fuel (S this) h this diff.

(** The assignment at the end of SetState, with the D_STATE data field.
    NotifyWaiters only signals client objects. *)
Definition AssignState (newState : EContainerState) (c : TContainer) : TContainer :=
  set_Data (set_D_STATE (Some (ContainerStateName newState)) (Data c))
    (set_State newState c).

(** SetState(newState, tree).  The fuel bounds the depth of the descent
    into the children; a child whose weak pointer has expired is absent
    from the heap and is passed over. *)
Fixpoint SetState_fuel (n : nat) (h : gmap nat TContainer) (this : nat)
    (newState : EContainerState) (tree : bool) : gmap nat TContainer :=
  match n with
  | O => h
  | S n' =>
      match h !! this with
      | None => h
      | Some c0 =>
          let h1 :=
            if tree
            then fold_left (λ h child, SetState_fuel n' h child newState tree) (Children c0) h
            else h in
          match h1 !! this with
          | None => h1
          | Some c =>
              if decide (State c = newState) then h1
              else
                let h2 :=
                  if decide (newState = Running) then UpdateRunningChildren h1 this 1
                  else if decide (State c = Running)
                       then UpdateRunningChildren h1 this (wrap64 (-1))
                       else h1 in
                alter (AssignState newState) this h2
          end
      end
  end.

(** Children are allocated after their parent, so [NextRef w - this] levels
    cover the subtree of [this]. *)
Definition SetState (w : TWorld) (this : nat) (newState : EContainerState)
    (tree : bool) : TWorld :=
  set_Containers
    (SetState_fuel (S (NextRef w - this)) (Containers w) this newState tree) w.

(** UpdateSoftLimit: the parents first, then this container when it is
    Meta.  The result of the parent's call is dropped, as in the source. *)
Fixpoint UpdateSoftLimit_fuel (n : nat) (K : TEnv) (h : gmap nat TContainer)
    (this : nat) : TError * gmap nat TContainer :=
  match n with
  | O => (TError_Success, h)
  | S n' =>
      match h !! this with
      | None => (TError_Success, h)
      | Some c0 =>
          if IsRoot c0 || IsPortoRoot c0 then (TError_Success, h)
          else
            let h1 :=
              match Parent c0 with
              | Some p => (UpdateSoftLimit_fuel n' K h p).2
              | None => h
              end in
            match h1 !! this with
            | None => (TError_Success, h1)
            | Some c =>
                if decide (State c = Meta) then
                  let '(error, defaultLimit) := RootSoftLimit K in
                  if is_error error then (error, h1)
                  else
                    let limit :=
                      if decide (RunningChildren c = 0%Z) then (1 * 1024 * 1024)%Z
                      else defaultLimit in
                    if is_error (GetSoftLimit K this) then (GetSoftLimit K this, h1)
                    else if decide (MemSoftLimit c = limit) then (TError_Success, h1)
                    else if is_error (SetSoftLimit K this) then (SetSoftLimit K this, h1)
                    else (TError_Success, alter (set_MemSoftLimit limit) this h1)
                else (TError_Success, h1)
            end
      end
  end.

Definition UpdateSoftLimit (K : TEnv) (w : TWorld) (this : nat) : TError * TWorld :=
  let '(error, h) := UpdateSoftLimit_fuel (S this) K (Containers w) this in
  (error, set_Containers h w).

(** ** container.cpp: events and exit *)

(** Modelled from the spec: value.cpp is not among the sources.  "On every
    successful set of a PERSISTENT value, the change is appended to the
    container's KV node"; a set whose write fails reports the error and
    the value stays as it was. *)
Definition Prop_Set (K : TEnv) (this : nat) (name : string) (f : TProps → TProps)
    (w : TWorld) : TError * TWorld :=
  if is_error (PropSet K this name) then (PropSet K this name, w)
  else (TError_Success, upd this (λ c, set_Props (f (Props c)) c) w).

Definition Data_Set (K : TEnv) (this : nat) (name : string) (f : TData → TData)
    (w : TWorld) : TError * TWorld :=
  if is_error (DataSet K this name) then (DataSet K this name, w)
  else (TError_Success, upd this (λ c, set_Data (f (Data c)) c) w).

(** Processes(): the processes of the freezer cgroup. *)
Definition Processes (K : TEnv) (this : nat) : list Z := GetProcesses K this.

Definition ShutdownOom (w : TWorld) (this : nat) : TWorld :=
  match Containers w !! this with
  | None => w
  | Some c =>
      let w1 :=
        match Source c with
        | Some fd => set_EpollSources (filter (λ x, x ≠ fd) (EpollSources w)) w
        | None => w
        end in
      upd this (λ c, set_Source None (set_Efd (-1) c)) w1
  end.

Definition DoFreeze (K : TEnv) (w : TWorld) (this : nat) : TWorld :=
  if is_error (Freeze K this) then w else upd this (set_Frozen true) w.

Definition DoUnfreeze (K : TEnv) (w : TWorld) (this : nat) : TWorld :=
  if is_error (Unfreeze K this) then w else upd this (set_Frozen false) w.

Definition SendSignal (K : TEnv) (w : TWorld) (this : nat) (signal : Z) (freeze : bool)
  : TError * TWorld :=
  let w1 := if freeze then DoFreeze K w this else w in
  if is_error (GetTasks K this)
  then (GetTasks K this, if freeze then DoUnfreeze K w1 this else w1)
  else
    let error := KillCgroup K this signal in
    if freeze then (Unfreeze K this, DoUnfreeze K w1 this) else (error, w1).

(** KillAll: SIGTERM, a bounded wait whose outcome is only logged, then
    SIGKILL under the freezer. *)
Definition KillAll (K : TEnv) (w : TWorld) (this : nat) : TError * TWorld :=
  let '(_, w1) := SendSignal K w this SIGTERM false in
  SendSignal K w1 this SIGKILL true.

Definition MayRespawn (w : TWorld) (this : nat) : bool :=
  match Containers w !! this with
  | None => false
  | Some c =>
      if decide (State c = Dead) then
        if P_RESPAWN (Props c) then
          bool_decide (P_MAX_RESPAWNS (Props c) < 0)%Z
          || bool_decide (D_RESPAWN_COUNT (Data c) < P_MAX_RESPAWNS (Props c))%Z
        else false
      else false
  end.

Definition ScheduleRespawn (w : TWorld) (this : nat) : TWorld :=
  set_Queue (Queue w ++ [this]) w.

(** Modelled from the spec: TTask::DeliverExitStatus records the status of
    a task that has exited. *)
Definition Task_DeliverExitStatus (status : Z) (t : TTask) : TTask :=
  mkTask (Pid t) false status.

(** Exit(status, oomKilled, force), with ExitChildren as the loop over the
    copy of the children.  The log line at its head reads Task->GetPid()
    without a test of Task: a call on a container without a task has no
    result.  [Exit_fuel] is the result of the calls that have one, and
    [Exit_returns_fuel] below tells which calls these are.  The fuel
    bounds the descent into the children. *)
Fixpoint Exit_fuel (n : nat) (K : TEnv) (w : TWorld) (this : nat) (status : Z)
    (oomKilled force : bool) : bool * TWorld :=
  match Containers w !! this with
  | None => (false, w)
  | Some c =>
      if negb force && negb oomKilled
         && negb (bool_decide (Processes K this = [])) && Get_ISOLATE c
      then (true, w)
      else
        let w := ShutdownOom w this in
        let w := (Data_Set K this "exit_status" (set_D_EXIT_STATUS status) w).2 in
        let w := (Prop_Set K this "raw_death_time"
                    (set_P_RAW_DEATH_TIME (Some (GetCurrentTimeMs K))) w).2 in
        let w :=
          if oomKilled
          then (KillAll K (Data_Set K this "oom_killed" (set_D_OOM_KILLED true) w).2 this).2
          else w in
        let w := if Get_ISOLATE c then w else (KillAll K w this).2 in
        let w :=
          match n with
          | O => w
          | S n' =>
              fold_left
                (λ w child,
                   match Containers w !! child with
                   | None => w
                   | Some cc =>
                       if bool_decide (State cc = Running) || bool_decide (State cc = Meta)
                       then (Exit_fuel n' K (KillAll K w child).2 child status oomKilled true).2
                       else w
                   end)
                (Children c) w
          end in
        let w := upd this (λ c, set_Task (Task_DeliverExitStatus status <$> Task c) c) w in
        let w := SetState w this Dead false in
        let w := (Prop_Set K this "raw_root_pid" (set_P_RAW_ROOT_PID (Some 0%Z)) w).2 in
        let w := if MayRespawn w this then ScheduleRespawn w this else w in
        (true, w)
  end.

Definition Exit (K : TEnv) (w : TWorld) (this : nat) (status : Z)
    (oomKilled force : bool) : bool * TWorld :=
  Exit_fuel (S (NextRef w - this)) K w this status oomKilled force.

(** Whether Exit(status, oomKilled, force) returns.  Its first statement
    dereferences Task, so it does not on a container without a task; past
    the test of a bogus exit event, ExitChildren calls Exit on every child
    that is Running or Meta, and Exit returns when each of these calls
    does.  The worlds between the calls are those of [Exit_fuel]. *)
Fixpoint Exit_returns_fuel (n : nat) (K : TEnv) (w : TWorld) (this : nat) (status : Z)
    (oomKilled force : bool) : bool :=
  match Containers w !! this with
  | None => false
  | Some c =>
      if bool_decide (Task c = None) then false
      else if negb force && negb oomKilled
              && negb (bool_decide (Processes K this = [])) && Get_ISOLATE c
      then true
      else
        let w := ShutdownOom w this in
        let w := (Data_Set K this "exit_status" (set_D_EXIT_STATUS status) w).2 in
        let w := (Prop_Set K this "raw_death_time"
                    (set_P_RAW_DEATH_TIME (Some (GetCurrentTimeMs K))) w).2 in
        let w :=
          if oomKilled
          then (KillAll K (Data_Set K this "oom_killed" (set_D_OOM_KILLED true) w).2 this).2
          else w in
        let w := if Get_ISOLATE c then w else (KillAll K w this).2 in
        match n with
        | O => false
        | S n' =>
            (fold_left
               (λ (acc : bool * TWorld) child,
                  let '(returned, w) := acc in
                  if negb returned then (false, w)
                  else
                    match Containers w !! child with
                    | None => (true, w)
                    | Some cc =>
                        if bool_decide (State cc = Running) || bool_decide (State cc = Meta)
                        then
                          (Exit_returns_fuel n' K (KillAll K w child).2 child status
                             oomKilled true,
                           (Exit_fuel n' K (KillAll K w child).2 child status oomKilled true).2)
                        else (true, w)
                    end)
               (Children c) (true, w)).1
        end
  end.

Definition Exit_returns (K : TEnv) (w : TWorld) (this : nat) (status : Z)
    (oomKilled force : bool) : bool :=
  Exit_returns_fuel (S (NextRef w - this)) K w this status oomKilled force.

Definition SyncStateWithCgroup (K : TEnv) (w : TWorld) (this : nat) : TWorld :=
  match Containers w !! this with
  | None => w
  | Some c =>
      if LostAndRestored c && bool_decide (State c = Running)
         && (bool_decide (Task c = None) || bool_decide (Processes K this = []))
      then (Exit K w this (-1) false false).2
      else w
  end.

Definition DeliverExitStatus (K : TEnv) (w : TWorld) (this : nat) (pid status : Z)
  : bool * TWorld :=
  match Containers w !! this with
  | None => (false, w)
  | Some c =>
      match Task c with
      | None => (false, w)
      | Some t =>
          if decide (Pid t ≠ pid) then (false, w)
          else if decide (State c = Dead) then (true, w)
          else Exit K w this status (FdHasEvent K (Efd c)) false
      end
  end.

Definition DeliverOom (K : TEnv) (w : TWorld) (this : nat) (fd : Z) : bool * TWorld :=
  match Containers w !! this with
  | None => (false, w)
  | Some c =>
      if decide (Efd c ≠ fd) then (false, w)
      else
        match Task c with
        | None => (false, w)
        | Some _ =>
            let w1 := ShutdownOom w this in
            if decide (State c = Dead) then (true, w1)
            else Exit K w1 this SIGKILL true false
        end
  end.

(** ** container.cpp: resources *)

(** [error = f(); if (error) return error;] *)
Notation "'try' w ← e ; k" :=
  (let '(err, w) := e in if is_error err then (err, w) else k)
  (at level 10, w name, e at level 100, k at level 200, only parsing).

(** The loop [for (p = Parent; p; p = p->Parent)] looking for the first
    ancestor that satisfies [P]. *)
Fixpoint FindAncestor_fuel (n : nat) (h : gmap nat TContainer) (p : option nat)
    (P : TContainer → bool) : option nat :=
  match n, p with
  | S n', Some r =>
      match h !! r with
      | Some c => if P c then Some r else FindAncestor_fuel n' h (Parent c) P
      | None => None
      end
  | _, _ => None
  end.

Definition FindAncestor (h : gmap nat TContainer) (this : nat) (P : TContainer → bool)
  : option nat :=
  match h !! this with
  | Some c => FindAncestor_fuel this h (Parent c) P
  | None => None
  end.

Definition TaskIsRunning (c : TContainer) : bool :=
  match Task c with Some t => IsRunning t | None => false end.

Definition FindRunningParent (w : TWorld) (this : nat) : option nat :=
  FindAncestor (Containers w) this TaskIsRunning.

Definition UseParentNamespace (w : TWorld) (this : nat) : bool :=
  match Containers w !! this with
  | None => false
  | Some c => if Get_ISOLATE c then false else bool_decide (FindRunningParent w this ≠ None)
  end.

(** PrepareNetwork.  The source asserts that the container has no traffic
    class yet, and that its parent has one, with PORTO_ASSERT, which stops
    the program: the first assertion is left out, and the failure of the
    second is rendered as an Unknown error, so the function has a result
    in more worlds than the source has. *)
Definition PrepareNetwork (K : TEnv) (w : TWorld) (this : nat) : TError * TWorld :=
  if negb (network_enabled K) then (TError_Success, w)
  else
    match Containers w !! this with
    | None => (TError_of Unknown, w)
    | Some c =>
        let parentTclass := Parent c ≫= λ p, Containers w !! p ≫= Tclass in
        if UseParentNamespace w this
        then (TError_Success, upd this (set_Tclass parentTclass) w)
        else
          match Parent c, parentTclass with
          | Some _, None => (TError_of Unknown, w)
          | Some _, Some tclass =>
              (TclassCreate K this,
               upd this (set_Tclass (Some (mkTclass (Major tclass) (Id c)))) w)
          | None, _ =>
              (TclassCreate K this,
               upd this (set_Tclass (Some (mkTclass (QdiscMajor K) (Id c)))) w)
          end
    end.

Definition AddEpollSource (fd : Z) (w : TWorld) : TWorld :=
  set_EpollSources (EpollSources w ++ [fd]) w.

Definition PrepareOomMonitor (K : TEnv) (w : TWorld) (this : nat) : TError * TWorld :=
  let w := upd this (set_Efd (eventfd K this)) w in
  if decide (eventfd K this < 0)%Z then (TError_of Unknown, w)
  else
    let w := upd this (set_Source (Some (eventfd K this))) w in
    if is_error (AddSource K this) then (AddSource K this, ShutdownOom w this)
    else
      let w := AddEpollSource (eventfd K this) w in
      if decide (OpenOomControl K this < 0)%Z then (TError_of Unknown, ShutdownOom w this)
      else if is_error (WriteKnob K this K_event_control)
           then (WriteKnob K this K_event_control, ShutdownOom w this)
           else (TError_Success, w).

(** ApplyDynamicProperties: the knobs in the order of the source; only
    use_hierarchy is tolerated, and EBUSY on the memory limit becomes
    InvalidValue. *)
Definition ApplyDynamicProperties (K : TEnv) (w : TWorld) (this : nat) : TError :=
  let knob k (rest : TError) :=
    if is_error (WriteKnob K this k) then WriteKnob K this k else rest in
  let policy := default "" (P_CPU_POLICY ∘ Props <$> Containers w !! this) in
  knob K_mem_guarantee
    (if is_error (WriteKnob K this K_mem_limit)
     then (if decide (Errno (WriteKnob K this K_mem_limit) = EBUSY)
           then TError_of InvalidValue else WriteKnob K this K_mem_limit)
     else
       knob K_recharge_on_pgfault
         (knob K_cpu_policy
            ((if decide (policy = "normal")
              then λ rest, knob K_cpu_limit (knob K_cpu_guarantee rest)
              else λ rest, rest)
               (knob K_blkio_policy (knob K_io_limit TError_Success))))).

(** The loop of PrepareCgroups that creates the leaf cgroups. *)
Fixpoint CreateCgroups (K : TEnv) (this : nat) (cgs : list TSubsystem) : TError :=
  match cgs with
  | [] => TError_Success
  | cg :: rest =>
      if is_error (CgroupCreate K this cg) then CgroupCreate K this cg
      else CreateCgroups K this rest
  end.

Definition PrepareCgroups (K : TEnv) (w : TWorld) (this : nat) : TError * TWorld :=
  match Containers w !! this with
  | None => (TError_of Unknown, w)
  | Some c =>
      let cgs :=
        [cpuSubsystem; cpuacctSubsystem; memorySubsystem; freezerSubsystem; blkioSubsystem]
        ++ (if network_enabled K then [netclsSubsystem] else [])
        ++ [devicesSubsystem] in
      let w := upd this (set_LeafCgroups cgs) w in
      if is_error (CreateCgroups K this cgs)
      then (CreateCgroups K this cgs, upd this (set_LeafCgroups []) w)
      else if network_enabled K && is_error (WriteKnob K this K_classid)
      then (WriteKnob K this K_classid, w)
      else if negb (IsRoot c) && is_error (ApplyDynamicProperties K w this)
      then (ApplyDynamicProperties K w this, w)
      else if negb (IsRoot c) && negb (IsPortoRoot c) then
        try w ← PrepareOomMonitor K w this;
        if is_error (WriteKnob K this K_devices_allow)
        then (WriteKnob K this K_devices_allow, w)
        else (TError_Success, w)
      else (TError_Success, w)
  end.

Definition DoPutLoopDev (K : TEnv) (nr : Z) (w : TWorld) : TWorld :=
  if is_error (PutLoopDev K nr) then w
  else set_LoopBusy (filter (λ x, x ≠ nr) (LoopBusy w)) w.

(** FreeResources.  Removing the default stdout and stderr files touches
    the file system only. *)
Definition FreeResources (K : TEnv) (w : TWorld) (this : nat) : TWorld :=
  let w := upd this (λ c, set_Task None (set_Tclass None (set_LeafCgroups [] c))) w in
  let w := ShutdownOom w this in
  match Containers w !! this with
  | None => w
  | Some c =>
      let loopNr := P_RAW_LOOP_DEV (Props c) in
      let w := (Prop_Set K this "raw_loop_dev" (set_P_RAW_LOOP_DEV (-1)) w).2 in
      if decide (0 ≤ loopNr)%Z then DoPutLoopDev K loopNr w else w
  end.

Definition PrepareResources (K : TEnv) (w : TWorld) (this : nat) : TError * TWorld :=
  let '(error, w) := PrepareNetwork K w this in
  if is_error error then (error, FreeResources K w this)
  else
    let '(error, w) := PrepareCgroups K w this in
    if is_error error then (error, FreeResources K w this)
    else (TError_Success, w).

(** PrepareTask assembles the task environment for the launcher from the
    properties, the client and the running parent; every step that can
    fail belongs to a collaborator.  On success the container holds a new
    task that has not been started. *)
Definition PrepareTask (K : TEnv) (w : TWorld) (this : nat) : TError * TWorld :=
  if is_error (PrepareTaskEnv K this) then (PrepareTaskEnv K this, w)
  else (TError_Success, upd this (set_Task (Some (mkTask 0 false (-1)))) w).

(** ** container.cpp: the lifecycle operations *)

(** Prop->Reset for the OS_MODE properties the model holds. *)
Definition ResetOsModeProperties (p : TProps) : TProps :=
  set_P_ISOLATE None (set_P_COMMAND None p).

Definition DoGetLoopDev (K : TEnv) (w : TWorld) : TError * TWorld :=
  if is_error (GetLoopDev K).1 then ((GetLoopDev K).1, w)
  else (TError_Success, set_LoopBusy (LoopBusy w ++ [(GetLoopDev K).2]) w).

(** The part of Start that launches the task, entered when
    [!meta || (meta && isolate)].  The FreeResources call written after
    [return error] in the GetLoopDev branch is never reached. *)
Definition StartTask (K : TEnv) (w : TWorld) (this : nat) : TError * TWorld :=
  let loopNr :=
    if decide (RootType K this ≠ Directory) then (GetLoopDev K).2 else (-1)%Z in
  let '(error, w) :=
    if decide (RootType K this ≠ Directory) then DoGetLoopDev K w
    else (TError_Success, w) in
  if is_error error then (error, w)
  else
    let '(error, w) := Prop_Set K this "raw_loop_dev" (set_P_RAW_LOOP_DEV loopNr) w in
    if is_error error
    then (error, FreeResources K (if decide (0 ≤ loopNr)%Z then DoPutLoopDev K loopNr w else w) this)
    else
      let '(error, w) := PrepareTask K w this in
      if is_error error then (error, FreeResources K w this)
      else
        let error := (TaskStart K this).1 in
        let pid := (TaskStart K this).2 in
        if is_error error
        then (error,
              FreeResources K
                (Data_Set K this "start_errno" (set_D_START_ERRNO (Errno error)) w).2 this)
        else
          let w := upd this (set_Task (Some (mkTask pid true (-1)))) w in
          try w ← Data_Set K this "start_errno" (set_D_START_ERRNO (-1)) w;
          try w ← Prop_Set K this "raw_root_pid" (set_P_RAW_ROOT_PID (Some pid)) w;
          (TError_Success, w).

Definition Start (K : TEnv) (w : TWorld) (this : nat) (meta : bool) : TError * TWorld :=
  let w := SyncStateWithCgroup K w this in
  match Containers w !! this with
  | None => (TError_of Unknown, w)
  | Some c0 =>
      if decide (State c0 ≠ Stopped) then (TError_of InvalidState, w)
      else
        let w :=
          if bool_decide (P_VIRT_MODE (Props c0) = VIRT_MODE_OS) && negb (PrivilegedUser K this)
          then upd this (λ c, set_Props (ResetOsModeProperties (Props c)) c) w
          else w in
        let c := default c0 (Containers w !! this) in
        if negb meta && bool_decide (Get_COMMAND c = "") then (TError_of InvalidValue, w)
        else if bool_decide (P_ROOT (Props c) = "/") && P_ROOT_RDONLY (Props c)
        then (TError_of InvalidValue, w)
        else if is_error (Revalidate K this) then (Revalidate K this, w)
        else
          try w ← Data_Set K this "respawn_count" (set_D_RESPAWN_COUNT 0) w;
          try w ← Data_Set K this "exit_status" (set_D_EXIT_STATUS (-1)) w;
          try w ← Data_Set K this "oom_killed" (set_D_OOM_KILLED false) w;
          try w ← Prop_Set K this "raw_start_time"
                    (set_P_RAW_START_TIME (Some (GetCurrentTimeMs K))) w;
          try w ← PrepareResources K w this;
          try w ← (if negb meta || (meta && Get_ISOLATE c) then StartTask K w this
                   else (TError_Success, w));
          let w := SetState w this (if meta then Meta else Running) false in
          let w := set_Started (S (Started w)) w in
          (TError_Success, (UpdateSoftLimit K w this).2)
  end.

(** Stop, with StopChildren as the loop over the copy of the children. *)
Fixpoint Stop_fuel (n : nat) (K : TEnv) (w : TWorld) (this : nat) : TError * TWorld :=
  let w := SyncStateWithCgroup K w this in
  match Containers w !! this with
  | None => (TError_of Unknown, w)
  | Some c =>
      if bool_decide (State c = Stopped) || bool_decide (State c = Paused)
      then (TError_of InvalidState, w)
      else
        let w := ShutdownOom w this in
        try w ← (if TaskIsRunning c then
                   try w ← KillAll K w this;
                   if StopTimedOut K this then (TError_of Unknown, w)
                   else (TError_Success,
                         upd this (λ c, set_Task (Task_DeliverExitStatus (-1) <$> Task c) c) w)
                 else (TError_Success, w));
        let w := if negb (IsRoot c) && negb (IsPortoRoot c)
                 then SetState w this Stopped false else w in
        let update_soft_limit := bool_decide (Children c = []) in
        let w :=
          match n with
          | O => w
          | S n' =>
              fold_left
                (λ w child,
                   match Containers w !! child with
                   | None => w
                   | Some cc =>
                       if decide (State cc ≠ Stopped) then (Stop_fuel n' K w child).2 else w
                   end)
                (Children c) w
          end in
        let w := if update_soft_limit then (UpdateSoftLimit K w this).2 else w in
        let w := if negb (IsRoot c) && negb (IsPortoRoot c)
                 then FreeResources K w this else w in
        (TError_Success, w)
  end.

Definition Stop (K : TEnv) (w : TWorld) (this : nat) : TError * TWorld :=
  Stop_fuel (S (NextRef w - this)) K w this.

Definition Pause (K : TEnv) (w : TWorld) (this : nat) : TError * TWorld :=
  let w := SyncStateWithCgroup K w this in
  match Containers w !! this with
  | None => (TError_of Unknown, w)
  | Some c =>
      if decide (State c ≠ Running) then (TError_of InvalidState, w)
      else if is_error (Freeze K this) then (Freeze K this, w)
      else (TError_Success, SetState (DoFreeze K w this) this Paused true)
  end.

Definition Resume (K : TEnv) (w : TWorld) (this : nat) : TError * TWorld :=
  let w := SyncStateWithCgroup K w this in
  match Containers w !! this with
  | None => (TError_of Unknown, w)
  | Some c =>
      if decide (State c ≠ Paused) then (TError_of InvalidState, w)
      else if bool_decide
                (FindAncestor (Containers w) this (λ p, bool_decide (State p = Paused)) ≠ None)
      then (TError_of InvalidState, w)
      else if is_error (Unfreeze K this) then (Unfreeze K this, w)
      else (TError_Success, SetState (DoUnfreeze K w this) this Running true)
  end.

Definition Kill (K : TEnv) (w : TWorld) (this : nat) (sig : Z) : TError :=
  match Containers w !! this with
  | None => TError_of Unknown
  | Some c =>
      if decide (State c ≠ Running) then TError_of InvalidState else TaskKill K this sig
  end.

Definition Respawn (K : TEnv) (w : TWorld) (this : nat) : TError * TWorld :=
  try w ← Stop K w this;
  let tmp := default 0%Z (D_RESPAWN_COUNT ∘ Data <$> Containers w !! this) in
  let '(error, w) := Start K w this false in
  (error, (Data_Set K this "respawn_count" (set_D_RESPAWN_COUNT (wrap64 (tmp + 1))) w).2).

Inductive TEvent :=
  | EventExit (pid status : Z)
  | EventRotateLogs
  | EventRespawn
  | EventOOM (fd : Z).

(** DeliverEvent.  Rotating the logs truncates files and leaves the
    containers as they are. *)
Definition DeliverEvent (K : TEnv) (w : TWorld) (this : nat) (event : TEvent)
  : bool * TWorld :=
  match event with
  | EventExit pid status => DeliverExitStatus K w this pid status
  | EventRotateLogs => (false, w)
  | EventRespawn =>
      if MayRespawn w this then (true, (Respawn K w this).2) else (false, w)
  | EventOOM fd => DeliverOom K w this fd
  end.

Definition Release (w : TWorld) (this : nat) : TWorld := upd this (set_Acquired false) w.

(** Destroy.  The SIGKILL sent to a running task before Stop and the
    removal of the key-value nodes (RemoveKvs) act on the kernel and on
    the store only. *)
Definition Destroy (K : TEnv) (w : TWorld) (this : nat) : TError * TWorld :=
  let acquired := default false (Acquired <$> Containers w !! this) in
  let release w := if acquired then Release w this else w in
  let w := SyncStateWithCgroup K w this in
  let '(error, w) :=
    if bool_decide (State <$> Containers w !! this = Some Paused)
    then Resume K w this else (TError_Success, w) in
  if is_error error then (error, release w)
  else
    let '(error, w) :=
      if bool_decide (State <$> Containers w !! this ≠ Some Stopped)
      then Stop K w this else (TError_Success, w) in
    if is_error error then (error, release w)
    else (TError_Success, release (upd this (set_Tclass None) w)).

(** Modelled from the spec: holder.cpp and the constructor are not among
    the sources.  "create(name, creds): allocate id, construct the
    container, link into parent's child list, persist, return to Stopped";
    a new object is "Stopped (initial after Create)" with no running
    children, and takes the next reference. *)
Definition NewContainer (id : nat) (name : string) (parent : option nat) : TContainer :=
  mkContainer id name parent [] Stopped 0 false false None [] None (-1) None
    (mkProps None "/" false None VIRT_MODE_APP "normal" false (-1) (-1) None None None ∅)
    (mkData None (-1) false 0 (-1)) false 0.

(** Create of a newly allocated object: Prepare (which ends with the sets
    of the start errno, the raw name and the raw id) and the sets of user and group can fail; then
    the parent links the child and the state is set. *)
Definition Create (K : TEnv) (w : TWorld) (id : nat) (name : string)
    (parent : option nat) : TError * TWorld :=
  let this := NextRef w in
  let w := mkWorld (<[this := NewContainer id name parent]> (Containers w)) (S this)
             (EpollSources w) (LoopBusy w) (Queue w) (Started w) in
  if is_error (DataSet K this "start_errno") then (DataSet K this "start_errno", w)
  else if is_error (PropSet K this "raw_name") then (PropSet K this "raw_name", w)
  else if is_error (PropSet K this "raw_id") then (PropSet K this "raw_id", w)
  else if is_error (PropSet K this "user") then (PropSet K this "user", w)
  else if is_error (PropSet K this "group") then (PropSet K this "group", w)
  else
    let w := match parent with
             | Some p => upd p (λ c, set_Children (Children c ++ [this]) c) w
             | None => w
             end in
    (TError_Success, SetState w this Stopped false).

(** Modelled from the spec: the holder drops a container object once it
    is destroyed, "removed from registry". *)
Definition Remove (w : TWorld) (this : nat) : TWorld :=
  set_Containers (delete this (Containers w)) w.

(** ** container.cpp and property.cpp: hierarchical properties *)

(** GetChildrenSum(property, except, exceptVal): a child with a value
    counts with it, a child without one counts with the sum of its own
    children; [except] counts as [exceptVal].  The sum is a uint64_t. *)
Fixpoint GetChildrenSum_fuel (n : nat) (h : gmap nat TContainer) (this : nat)
    (property : string) (except : option nat) (exceptVal : Z) : Z :=
  match n with
  | O => 0%Z
  | S n' =>
      match h !! this with
      | None => 0%Z
      | Some c =>
          fold_left
            (λ val child,
               match h !! child with
               | None => val
               | Some cc =>
                   if bool_decide (except = Some child) then wrap64 (val + exceptVal)
                   else if decide (Get_uint cc property ≠ 0%Z)
                        then wrap64 (val + Get_uint cc property)
                        else wrap64 (val + GetChildrenSum_fuel n' h child property
                                             except exceptVal)
               end)
            (Children c) 0%Z
      end
  end.

Definition GetChildrenSum (w : TWorld) (this : nat) (property : string)
    (except : option nat) (exceptVal : Z) : Z :=
  GetChildrenSum_fuel (S (NextRef w - this)) (Containers w) this property except exceptVal.

Definition ValidHierarchicalProperty (w : TWorld) (this : nat) (property : string)
    (value : Z) : bool :=
  let children := GetChildrenSum w this property None 0 in
  if bool_decide (children ≠ 0%Z) && bool_decide (value < children)%Z then false
  else if bool_decide
            (FindAncestor (Containers w) this
               (λ c, bool_decide (Get_uint c property ≠ 0%Z)
                     && bool_decide (Get_uint c property < value)%Z) ≠ None)
  then false
  else
    match Containers w !! this ≫= Parent with
    | Some p =>
        let parent := default 0%Z ((λ c, Get_uint c property) <$> Containers w !! p) in
        let children := GetChildrenSum w p property (Some this) value in
        if bool_decide (parent ≠ 0%Z) && bool_decide (parent < children)%Z then false
        else true
    | None => true
    end.

(** TMemoryLimitProperty::CheckValue. *)
Definition TMemoryLimitProperty_CheckValue (w : TWorld) (this : nat) (value : Z) : TError :=
  if negb (ValidHierarchicalProperty w this P_MEM_LIMIT value) then TError_of InvalidValue
  else TError_Success.

(** GetRoot: the end of the parent chain. *)
Fixpoint GetRoot_fuel (n : nat) (h : gmap nat TContainer) (this : nat) : nat :=
  match n, h !! this ≫= Parent with
  | S n', Some p => GetRoot_fuel n' h p
  | _, _ => this
  end.

(** TMemoryGuaranteeProperty::CheckValue; the kernel knob, the reserve of
    the configuration and the size of the memory are parameters. *)
Definition TMemoryGuaranteeProperty_CheckValue (hasKnob : bool) (reserve total_memory : Z)
    (w : TWorld) (this : nat) (value : Z) : TError :=
  if negb hasKnob then TError_of NotSupported
  else if negb (ValidHierarchicalProperty w this P_MEM_GUARANTEE value)
  then TError_of InvalidValue
  else
    let total := GetChildrenSum w (GetRoot_fuel this (Containers w) this)
                   P_MEM_GUARANTEE (Some this) value in
    if bool_decide (total_memory < wrap64 (total + reserve))%Z
    then TError_of ResourceNotAvailable
    else TError_Success.

(** The store of a uint property once its check has passed. *)
Definition Set_uint (w : TWorld) (this : nat) (property : string) (value : Z) : TWorld :=
  upd this (λ c, set_Props (set_P_UINT (<[property := value]> (P_UINT (Props c))) (Props c)) c) w.

(** ** container.cpp: GetProperty and SetProperty *)

Inductive TPropertyFlag :=
  | SUPERUSER_PROPERTY | RESTROOT_PROPERTY | PATH_PROPERTY | PARENT_RO_PROPERTY.

(** The property map and the string helpers behind GetProperty and
    SetProperty (property.hpp, value.cpp and util/string.hpp are not among
    the sources): one field per call. *)
Record TPropertyMap := mkPropertyMap {
  SplitString : string → list string;
  StringTrim : string → string;
  Check : string → TError;
  IsImplemented : string → bool;
  HasFlags : string → TPropertyFlag → bool;
  HasState : string → EContainerState → bool;
  ToString : TContainer → string → string;
  GetIndexed : TContainer → string → string → TError * string;
  FromString : TContainer → string → string → string → TError * TProps;
  ClientPath : string → TError * string;
  RestrictedUser : nat → bool
}.

Definition ParsePropertyName (M : TPropertyMap) (name : string) : string * string :=
  match SplitString M name with
  | [t0; t1] => (t0, StringTrim M t1)
  | _ => (name, "")
  end.

Definition alias (property : string) : option string :=
  if decide (property = "cpu.smart") then Some "cpu_policy"
  else if decide (property = "memory.limit_in_bytes") then Some P_MEM_LIMIT
  else if decide (property = "memory.low_limit_in_bytes") then Some P_MEM_GUARANTEE
  else if decide (property = "memory.recharge_on_pgfault") then Some "recharge_on_pgfault"
  else None.

Definition PropertyToAlias (property value : string) : string :=
  if decide (property = "cpu.smart") then (if decide (value = "rt") then "1" else "0")
  else if decide (property = "memory.recharge_on_pgfault")
       then (if decide (value = "true") then "1" else "0")
       else value.

Definition AliasToProperty (property value : string) : string * string :=
  if decide (property = "cpu.smart")
  then ("cpu_policy", if decide (value = "0") then "normal" else "rt")
  else if decide (property = "memory.limit_in_bytes") then (P_MEM_LIMIT, value)
  else if decide (property = "memory.low_limit_in_bytes") then (P_MEM_GUARANTEE, value)
  else if decide (property = "memory.recharge_on_pgfault")
       then ("recharge_on_pgfault", if decide (value = "0") then "false" else "true")
       else (property, value).

Definition GetProperty (M : TPropertyMap) (w : TWorld) (this : nat)
    (origProperty : string) (client : bool) : TError * string :=
  match Containers w !! this with
  | None => (TError_of Unknown, "")
  | Some c =>
      if IsRoot c || IsPortoRoot c then (TError_of InvalidProperty, "")
      else
        let '(parsed, idx) := ParsePropertyName M origProperty in
        let property := default parsed (alias origProperty) in
        if is_error (Check M property) then (Check M property, "")
        else if negb (IsImplemented M property) then (TError_of NotSupported, "")
        else
          let '(error, value) :=
            if decide (idx ≠ "") then GetIndexed M c property idx
            else (TError_Success, ToString M c property) in
          if is_error error then (TError_of InvalidValue, "")
          else
            let value := PropertyToAlias origProperty value in
            if HasFlags M property PATH_PROPERTY && client then ClientPath M value
            else (TError_Success, value)
  end.

Definition ShouldApplyProperty (M : TPropertyMap) (w : TWorld) (this : nat)
    (property : string) : bool :=
  if negb (HasState M property Running) then false
  else
    match State <$> Containers w !! this with
    | Some Dead | Some Stopped | None => false
    | _ => true
    end.

Definition SetProperty (K : TEnv) (M : TPropertyMap) (w : TWorld) (this : nat)
    (origProperty origValue : string) (client superuser : bool) : TError * TWorld :=
  match Containers w !! this with
  | None => (TError_of Unknown, w)
  | Some c =>
      if IsRoot c || IsPortoRoot c then (TError_of InvalidValue, w)
      else
        let '(parsed, idx) := ParsePropertyName M origProperty in
        let '(property, value) := AliasToProperty parsed (StringTrim M origValue) in
        if is_error (Check M property) then (Check M property, w)
        else if negb (IsImplemented M property) then (TError_of NotSupported, w)
        else if HasFlags M property SUPERUSER_PROPERTY && negb superuser
                && negb (bool_decide (ToString M c property = value))
        then (TError_of Permission, w)
        else if HasFlags M property RESTROOT_PROPERTY && negb superuser
                && negb (RestrictedUser M this)
        then (TError_of Permission, w)
        else
          let '(error, value) :=
            if HasFlags M property PATH_PROPERTY && client then ClientPath M value
            else (TError_Success, value) in
          if is_error error then (error, w)
          else
            let w := SyncStateWithCgroup K w this in
            let c := default c (Containers w !! this) in
            if negb (HasState M property (State c)) then (TError_of InvalidState, w)
            else if UseParentNamespace w this && HasFlags M property PARENT_RO_PROPERTY
            then (TError_of NotSupported, w)
            else
              let '(error, props) := FromString M c property idx value in
              if is_error error then (error, w)
              else
                let w := upd this (set_Props props) w in
                if ShouldApplyProperty M w this property
                then (ApplyDynamicProperties K w this, w)
                else (error, w)
  end.

(** TContainer::Restore of a container the holder has allocated, with the
    properties and data read from its key-value node.  What the checks of
    the restored task find (HasCorrectParent, IsZombie, HasCorrectFreezer,
    IsFreezed) is given by [lost], [zombie] and [freezed]. *)
Fixpoint StartParents_fuel (n : nat) (K : TEnv) (w : TWorld) (parent : option nat)
  : TError * TWorld :=
  match n, parent with
  | S n', Some p =>
      match Containers w !! p with
      | None => (TError_Success, w)
      | Some c =>
          if IsRoot c || IsPortoRoot c then (TError_Success, w)
          else if bool_decide (State c = Running) || bool_decide (State c = Meta)
                  || bool_decide (State c = Dead)
          then (TError_Success, w)
          else
            try w ← Start K w p (bool_decide (Get_COMMAND c = ""));
            StartParents_fuel n' K w (Parent c)
      end
  | _, _ => (TError_Success, w)
  end.

(** The part of Restore that rebuilds the state of the allocated object
    [this]: a container with a persisted root pid was started, any other
    was only created. *)
Definition RestoreState (K : TEnv) (w : TWorld) (this : nat) (parent : option nat)
    (props : TProps) (data : TData) (lost zombie freezed : bool) : TError * TWorld :=
  match P_RAW_ROOT_PID props with
  | Some pid =>
      try w ← StartParents_fuel (S this) K w parent;
      let '(error, w) := PrepareResources K w this in
      if is_error error then (error, FreeResources K w this)
      else
        let '(error, w) := PrepareTask K w this in
        if is_error error then (error, FreeResources K w this)
        else
          let w := upd this (λ c, set_LostAndRestored lost
                                    (set_Task (Some (mkTask pid (negb zombie) (-1))) c)) w in
          let w :=
            if bool_decide (D_STATE data = Some (ContainerStateName Dead))
            then SetState w this Dead false
            else
              let w := SetState w this
                         (if bool_decide
                               (default "" (Get_COMMAND <$> Containers w !! this) = "")
                          then Meta else Running)
                         false in
              if freezed then SetState w this Paused false else w in
          let w := if zombie then w else SyncStateWithCgroup K w this in
          (TError_Success, if MayRespawn w this then ScheduleRespawn w this else w)
  | None =>
      let w :=
        if is_error (CgroupCreate K this freezerSubsystem)
        then (KillAll K w this).2 else w in
      (TError_Success, upd this (set_Task None) (SetState w this Stopped false))
  end.

Definition Restore (K : TEnv) (w : TWorld) (id : nat) (name : string)
    (parent : option nat) (props : TProps) (data : TData)
    (loadError : TError) (lost zombie freezed : bool) : TError * TWorld :=
  let this := NextRef w in
  let c0 := set_Data data (set_Props props (NewContainer id name parent)) in
  let w := mkWorld (<[this := c0]> (Containers w)) (S this)
             (EpollSources w) (LoopBusy w) (Queue w) (Started w) in
  if is_error loadError then (loadError, w)
  else if bool_decide (D_STATE data = None) then (TError_of Unknown, w)
  else
    try w ← RestoreState K w this parent props data lost zombie freezed;
    (TError_Success,
     match parent with
     | Some p => upd p (λ c, set_Children (Children c ++ [this]) c) w
     | None => w
     end).

End TContainer.

(* ================================================================== *)
(** * Vocabulary of the properties *)
(* ================================================================== *)

Section Vocabulary.
Import TContainer.

(** The container and its ancestors, nearest first. *)
Fixpoint chain_fuel (n : nat) (h : gmap nat TContainer) (r : nat) : list nat :=
  match n with
  | O => []
  | S n' =>
      match h !! r with
      | None => []
      | Some c => r :: match Parent c with Some p => chain_fuel n' h p | None => [] end
      end
  end.

Definition chain (h : gmap nat TContainer) (r : nat) : list nat := chain_fuel (S r) h r.

(** The containers of the subtree of [r] (those that have [r] on their
    chain, [r] included) whose state is Running. *)
Definition RunningBelow (h : gmap nat TContainer) (r : nat) : gset nat :=
  filter (λ d, State <$> h !! d = Some Running ∧ r ∈ chain h d) (dom h).

(** Well-formed heaps: references below [NextRef]; a parent is a live
    object allocated before its child; the entries of a children list
    have been allocated, and the live ones are objects whose parent it
    is. *)
Record wf (w : TWorld) : Prop := mkWf {
  wf_bound : ∀ r c, Containers w !! r = Some c → r < NextRef w;
  wf_parent : ∀ r c p, Containers w !! r = Some c → Parent c = Some p →
                p < r ∧ is_Some (Containers w !! p);
  wf_children : ∀ r c k ck, Containers w !! r = Some c → k ∈ Children c →
                  Containers w !! k = Some ck → Parent ck = Some r;
  wf_child_bound : ∀ r c k, Containers w !! r = Some c → k ∈ Children c →
                     k < NextRef w
}.

(** RunningChildren agrees with the states, in size_t arithmetic. *)
Definition counters_ok (w : TWorld) : Prop :=
  ∀ r c, Containers w !! r = Some c →
    RunningChildren c = wrap64 (Z.of_nat (size (RunningBelow (Containers w) r))).

(** [d] is reached from [r] through the children lists. *)
Inductive descendant (h : gmap nat TContainer) (r : nat) : nat → Prop :=
  | descendant_self : descendant h r r
  | descendant_child d c k :
      descendant h r d → h !! d = Some c → k ∈ Children c → descendant h r k.

End Vocabulary.

(** ** Sample environments and worlds *)

Section Samples.
Import TContainer.

(** An environment in which every call succeeds: pid 42, eventfd 7, loop
    device 0, an existing root directory, an empty freezer cgroup. *)
Definition calmEnv : TEnv :=
  mkEnv true 1000 (λ _, true) (λ _ _, TError_Success) (λ _ _, TError_Success)
    (λ _, TError_Success) 1 (λ _, 7%Z) (λ _, TError_Success) (λ _, 8%Z)
    (λ _, Directory) (TError_Success, 0%Z) (λ _, TError_Success)
    (λ _ _, TError_Success) (λ _ _, TError_Success) (λ _, TError_Success)
    (λ _, TError_Success) (λ _, (TError_Success, 42%Z))
    (λ _, TError_Success) (λ _, TError_Success) (λ _, TError_Success)
    (λ _ _, TError_Success) (λ _ _, TError_Success) (λ _, false) (λ _, [])
    (λ _, false) (TError_Success, 4096%Z) (λ _, TError_Success) (λ _, TError_Success).

(** The same, with processes left in every freezer cgroup. *)
Definition busyEnv : TEnv :=
  mkEnv true 1000 (λ _, true) (λ _ _, TError_Success) (λ _ _, TError_Success)
    (λ _, TError_Success) 1 (λ _, 7%Z) (λ _, TError_Success) (λ _, 8%Z)
    (λ _, Directory) (TError_Success, 0%Z) (λ _, TError_Success)
    (λ _ _, TError_Success) (λ _ _, TError_Success) (λ _, TError_Success)
    (λ _, TError_Success) (λ _, (TError_Success, 42%Z))
    (λ _, TError_Success) (λ _, TError_Success) (λ _, TError_Success)
    (λ _ _, TError_Success) (λ _ _, TError_Success) (λ _, false) (λ _, [43%Z])
    (λ _, false) (TError_Success, 4096%Z) (λ _, TError_Success) (λ _, TError_Success).

(** The same as [calmEnv], with a root that is an image file and no loop
    device to be had. *)
Definition noLoopEnv : TEnv :=
  mkEnv true 1000 (λ _, true) (λ _ _, TError_Success) (λ _ _, TError_Success)
    (λ _, TError_Success) 1 (λ _, 7%Z) (λ _, TError_Success) (λ _, 8%Z)
    (λ _, Regular) (mkError Unknown 16, (-1)%Z) (λ _, TError_Success)
    (λ _ _, TError_Success) (λ _ _, TError_Success) (λ _, TError_Success)
    (λ _, TError_Success) (λ _, (TError_Success, 42%Z))
    (λ _, TError_Success) (λ _, TError_Success) (λ _, TError_Success)
    (λ _ _, TError_Success) (λ _ _, TError_Success) (λ _, false) (λ _, [])
    (λ _, false) (TError_Success, 4096%Z) (λ _, TError_Success) (λ _, TError_Success).

Definition sampleContainer (id : nat) (name : string) (parent : option nat)
    (children : list nat) (state : EContainerState) (running : Z) : TContainer :=
  set_RunningChildren running
    (set_State state (set_Children children (NewContainer id name parent))).

Definition withCommand (cmd : string) (c : TContainer) : TContainer :=
  set_Props (set_P_COMMAND (Some cmd) (Props c)) c.

Definition withTask (pid : Z) (c : TContainer) : TContainer :=
  if decide (State c = Stopped) then c else set_Task (Some (mkTask pid true (-1))) c.

(** The host root, the porto root with its traffic class, a container "a"
    in the given state and its child "a/b". *)
Definition sampleWorld (a b : EContainerState) (ra : Z) : TWorld :=
  mkWorld
    (list_to_map
       [(0, sampleContainer 0 "/" None [1] Meta ra);
        (1, set_Tclass (Some (mkTclass 1 1)) (sampleContainer 1 "/porto" (Some 0) [2] Meta ra));
        (2, withTask 42 (withCommand "sleep 60" (sampleContainer 2 "a" (Some 1) [3] a ra)));
        (3, withTask 52 (withCommand "sleep 60" (sampleContainer 3 "b" (Some 2) [] b
                           (if decide (b = Running) then 1 else 0))))])
    4 [] [] [] 0.

(** A property map that knows every name and leaves values as they are. *)
Definition plainPropertyMap : TPropertyMap :=
  mkPropertyMap (λ s, [s]) (λ s, s) (λ _, TError_Success) (λ _, true) (λ _ _, false)
    (λ _ _, true) (λ _ _, "") (λ _ _ _, (TError_Success, ""))
    (λ c _ _ _, (TError_Success, Props c)) (λ s, (TError_Success, s)) (λ _, true).

End Samples.

Section Evolution.
Import TContainer.

(** What the tree invariants read of a container. *)
Definition core (c : TContainer) : option nat * list nat * EContainerState * Z :=
  (Parent c, Children c, State c, RunningChildren c).

Definition same_core (w w' : TWorld) : Prop :=
  NextRef w = NextRef w' ∧
  ∀ r, core <$> Containers w !! r = core <$> Containers w' !! r.

Definition shape (c : TContainer) : option nat * list nat := (Parent c, Children c).

Definition same_shape (w w' : TWorld) : Prop :=
  NextRef w = NextRef w' ∧
  ∀ r, shape <$> Containers w !! r = shape <$> Containers w' !! r.

(** The worlds an operation passes through: steps that leave the core of
    every container alone, and calls of SetState. *)
Inductive evolves : TWorld → TWorld → Prop :=
  | evolves_core w w' : same_core w w' → evolves w w'
  | evolves_SetState w this newState tree : evolves w (SetState w this newState tree)
  | evolves_trans w1 w2 w3 : evolves w1 w2 → evolves w2 w3 → evolves w1 w3.

End Evolution.

Section Reachability.
Import TContainer.

(** The daemon starts with no containers. *)
Definition initial : TWorld := mkWorld ∅ 0 [] [] [] 0.

(** The parent handed to a new container is a container that exists. *)
Definition live_parent (w : TWorld) (parent : option nat) : Prop :=
  match parent with
  | Some p => is_Some (Containers w !! p)
  | None => True
  end.

(** One operation of the engine, for any answers of the kernel and the
    collaborators.  Modelled from the spec: holder.cpp is not among the
    sources; it hands Create and Restore a parent that exists, and it
    drops an object ("removed from registry") once the container is
    Stopped and no other container has it as parent. *)
Inductive step (w : TWorld) : TWorld → Prop :=
  | step_Create K id name parent :
      live_parent w parent → step w (Create K w id name parent).2
  | step_Restore K id name parent props data loadError lost zombie freezed :
      live_parent w parent →
      step w (Restore K w id name parent props data loadError lost zombie freezed).2
  | step_Start K this meta : step w (Start K w this meta).2
  | step_Stop K this : step w (Stop K w this).2
  | step_Pause K this : step w (Pause K w this).2
  | step_Resume K this : step w (Resume K w this).2
  | step_DeliverEvent K this event : step w (DeliverEvent K w this event).2
  | step_Destroy K this : step w (Destroy K w this).2
  | step_SetProperty K M this property value client superuser :
      step w (SetProperty K M w this property value client superuser).2
  | step_Remove this c :
      Containers w !! this = Some c → State c = Stopped →
      (∀ r cr, Containers w !! r = Some cr → Parent cr ≠ Some this) →
      step w (Remove w this).

Inductive reachable : TWorld → Prop :=
  | reachable_initial : reachable initial
  | reachable_step w w' : reachable w → step w w' → reachable w'.

End Reachability.

Section SampleRun.
Import TContainer.

(** A property map whose FromString stores the command. *)
Definition commandPropertyMap : TPropertyMap :=
  mkPropertyMap (λ s, [s]) (λ s, s) (λ _, TError_Success) (λ _, true) (λ _ _, false)
    (λ _ _, true) (λ _ _, "") (λ _ _ _, (TError_Success, ""))
    (λ c property _ value,
       (TError_Success,
        if decide (property = "command") then set_P_COMMAND (Some value) (Props c)
        else Props c))
    (λ s, (TError_Success, s)) (λ _, true).

(** A run of the engine: the two roots are created and started as meta
    containers, then "a" is created, given a command and started. *)
Definition booted0 : TWorld := (Create calmEnv initial 0 "/" None).2.
Definition booted1 : TWorld := (Create calmEnv booted0 1 "/porto" (Some 0)).2.
Definition booted2 : TWorld := (Start calmEnv booted1 0 true).2.
Definition booted3 : TWorld := (Start calmEnv booted2 1 true).2.
Definition created : TWorld := (Create calmEnv booted3 2 "a" (Some 1)).2.
Definition configured : TWorld :=
  (SetProperty calmEnv commandPropertyMap created 2 "command" "sleep 60" true true).2.
Definition started : TWorld := (Start calmEnv configured 2 false).2.

End SampleRun.

Section FailingStart.
Import TContainer.

(** A Stopped container "a" whose root is an image file, under the two
    started roots: no cgroups, no traffic class, no task, no OOM source. *)
Definition imageWorld : TWorld :=
  upd 2 (λ c, set_Props (set_P_ROOT "/images/a.img" (Props c)) c) configured.

End FailingStart.

Section TasklessExit.
Import TContainer.

(** "a" Running with isolate=true, lost and restored, and without a task:
    the container SyncStateWithCgroup calls Exit for. *)
Definition lostWorld : TWorld :=
  upd 2 (λ c, set_LostAndRestored true (set_Task None c)) (sampleWorld Running Stopped 1).

End TasklessExit.

Section HierarchyVocabulary.
Import TContainer.

(** The ancestors of a container, nearest first. *)
Definition ancestors (h : gmap nat TContainer) (this : nat) : list nat :=
  match h !! this ≫= Parent with
  | Some p => chain h p
  | None => []
  end.

(** GetChildrenSum over the integers, without the wrap of uint64_t. *)
Fixpoint ChildrenSumZ_fuel (n : nat) (h : gmap nat TContainer) (this : nat)
    (property : string) (except : option nat) (exceptVal : Z) : Z :=
  match n with
  | O => 0%Z
  | S n' =>
      match h !! this with
      | None => 0%Z
      | Some c =>
          fold_left
            (λ val child,
               match h !! child with
               | None => val
               | Some cc =>
                   if bool_decide (except = Some child) then (val + exceptVal)%Z
                   else if decide (Get_uint cc property ≠ 0%Z)
                        then (val + Get_uint cc property)%Z
                        else (val + ChildrenSumZ_fuel n' h child property
                                      except exceptVal)%Z
               end)
            (Children c) 0%Z
      end
  end.

Definition ChildrenSumZ (w : TWorld) (this : nat) (property : string)
    (except : option nat) (exceptVal : Z) : Z :=
  ChildrenSumZ_fuel (S (NextRef w - this)) (Containers w) this property except exceptVal.

(** The sum of the property over the children themselves, with the value
    of [except] replaced by [exceptVal]. *)
Definition DirectSum (h : gmap nat TContainer) (this : nat) (property : string)
    (except : option nat) (exceptVal : Z) : Z :=
  match h !! this with
  | None => 0%Z
  | Some c =>
      fold_left
        (λ val child,
           match h !! child with
           | None => val
           | Some cc =>
               if bool_decide (except = Some child) then (val + exceptVal)%Z
               else (val + Get_uint cc property)%Z
           end)
        (Children c) 0%Z
  end.

(** parent(P) >= sum of children(P) whenever parent(P) > 0. *)
Definition hierarchy_ok (h : gmap nat TContainer) (property : string) : Prop :=
  ∀ r c, h !! r = Some c → (0 < Get_uint c property)%Z →
    (DirectSum h r property None 0 ≤ Get_uint c property)%Z.

(** The values of a uint property are not negative. *)
Definition uint_values (h : gmap nat TContainer) (property : string) : Prop :=
  ∀ r c, h !! r = Some c → (0 ≤ Get_uint c property)%Z.

(** The rejection rule in the words of the specification, with the sums
    taken over the children themselves: the children-sum exceeds the
    value, or an ancestor with a non-zero value has less than the value,
    or the parent's children-sum with this container's value replaced
    exceeds the parent's non-zero value. *)
Definition SpecRejects (w : TWorld) (this : nat) (property : string) (value : Z) : bool :=
  let h := Containers w in
  bool_decide (value < DirectSum h this property None 0)%Z
  || existsb
       (λ a, match h !! a with
             | Some ca => bool_decide (Get_uint ca property ≠ 0%Z)
                          && bool_decide (Get_uint ca property < value)%Z
             | None => false
             end)
       (ancestors h this)
  || match h !! this ≫= Parent with
     | Some p =>
         match h !! p with
         | Some cp =>
             bool_decide (Get_uint cp property ≠ 0%Z)
             && bool_decide (Get_uint cp property < DirectSum h p property (Some this) value)%Z
         | None => false
         end
     | None => false
     end.

Definition withUint (property : string) (value : Z) (c : TContainer) : TContainer :=
  set_Props (set_P_UINT (<[property := value]> (P_UINT (Props c))) (Props c)) c.

(** "a" without a limit, its child "b" without a limit, and "b/c" with a
    memory limit of 10. *)
Definition nestedWorld : TWorld :=
  mkWorld
    (list_to_map
       [(0, sampleContainer 0 "/" None [1] Meta 0);
        (1, sampleContainer 1 "/porto" (Some 0) [2] Meta 0);
        (2, sampleContainer 2 "a" (Some 1) [3] Stopped 0);
        (3, sampleContainer 3 "b" (Some 2) [4] Stopped 0);
        (4, withUint P_MEM_LIMIT 10 (sampleContainer 4 "c" (Some 3) [] Stopped 0))])
    5 [] [] [] 0.

(** A parent with a limit of 100 and two children, one with 60. *)
Definition siblingWorld : TWorld :=
  mkWorld
    (list_to_map
       [(0, sampleContainer 0 "/" None [1] Meta 0);
        (1, sampleContainer 1 "/porto" (Some 0) [2] Meta 0);
        (2, withUint P_MEM_LIMIT 100 (sampleContainer 2 "p" (Some 1) [3; 4] Stopped 0));
        (3, withUint P_MEM_LIMIT 60 (sampleContainer 3 "c1" (Some 2) [] Stopped 0));
        (4, sampleContainer 4 "c2" (Some 2) [] Stopped 0)])
    5 [] [] [] 0.

End HierarchyVocabulary.

Section WellFormedCheck.
Import TContainer.

(** A decision procedure for [wf], for concrete worlds. *)
Definition wf_check (w : TWorld) : bool :=
  forallb
    (λ rc : nat * TContainer,
       let '(r, c) := rc in
       bool_decide (r < NextRef w)
       && match Parent c with
          | Some p => bool_decide (p < r) && bool_decide (is_Some (Containers w !! p))
          | None => true
          end
       && forallb
            (λ k, bool_decide (k < NextRef w)
                  && match Containers w !! k with
                     | Some ck => bool_decide (Parent ck = Some r)
                     | None => true
                     end)
            (Children c))
    (map_to_list (Containers w)).

End WellFormedCheck.
Section KeyValueSamples.
Import TKeyValueStorage.

(** A store of three containers whose second log does not parse. *)
Definition corrupt_store : Tmpfs :=
  mkTmpfs [("2", [Good [mkPair "command" "sleep"]]);
           ("3", [Corrupt]);
           ("4", [Good [mkPair "command" "true"]])] TError_Success.

End KeyValueSamples.

Section HeapVocabulary.
Import TContainer.

Implicit Types (h : gmap nat TContainer) (c : TContainer).

(** Parent references point to older, live objects. *)
Definition hwf_parent h : Prop :=
  ∀ r c p, h !! r = Some c → Parent c = Some p → p < r ∧ is_Some (h !! p).

(** Every counter equals the number of Running strict descendants. *)
Definition hcount h : Prop :=
  ∀ r c, h !! r = Some c →
    RunningChildren c = wrap64 (Z.of_nat (size (RunningBelow h r))).

(** The children listed by a container name it as their parent. *)
Definition hwf_children h : Prop :=
  ∀ r c k ck, h !! r = Some c → k ∈ Children c → h !! k = Some ck → Parent ck = Some r.

(** The last part of SetState: the change of this container's own state. *)
Definition SetOwnState h (this : nat) (newState : EContainerState) : gmap nat TContainer :=
  match h !! this with
  | None => h
  | Some c =>
      if decide (State c = newState) then h
      else
        let h2 :=
          if decide (newState = Running) then UpdateRunningChildren h this 1
          else if decide (State c = Running)
               then UpdateRunningChildren h this (wrap64 (-1))
               else h in
        alter (AssignState newState) this h2
  end.

(** The counter change SetState asks for. *)
Definition delta (newState : EContainerState) (c : TContainer) : option Z :=
  if decide (newState = Running) then Some 1%Z
  else if decide (State c = Running) then Some (wrap64 (-1)) else None.

(** What the counters read of a container. *)
Definition ccore (c : TContainer) : option nat * EContainerState * Z :=
  (Parent c, State c, RunningChildren c).

End HeapVocabulary.

Section Names.
Import TContainer.

(** ** container.cpp: names *)

(** The separator of names, the character '/'. *)
Definition slash : Ascii.ascii := Eval cbv in Ascii.ascii_of_nat 47.

(** std::string::rfind(char): the position of the last occurrence. *)
Fixpoint rfind (ch : Ascii.ascii) (s : string) : option nat :=
  match s with
  | EmptyString => None
  | String a s' =>
      match rfind ch s' with
      | Some n => Some (S n)
      | None => if decide (a = ch) then Some 0 else None
      end
  end.

(** std::string::substr(pos), for a position inside the string. *)
Fixpoint substr (pos : nat) (s : string) : string :=
  match pos, s with
  | S n, String _ s' => substr n s'
  | _, _ => s
  end.

(** The reserved names (common.hpp is not among the sources): the names of
    the host root and of the porto root, and the name a client uses for
    its own container. *)
Record TReservedNames := mkReservedNames {
  ROOT_CONTAINER : string;
  PORTO_ROOT_CONTAINER : string;
  DOT_CONTAINER : string
}.

Definition StripParentName (R : TReservedNames) (name : string) : string :=
  if decide (name = ROOT_CONTAINER R) then ROOT_CONTAINER R
  else if decide (name = PORTO_ROOT_CONTAINER R) then PORTO_ROOT_CONTAINER R
  else
    match rfind slash name with
    | None => name
    | Some n => substr (S n) name
    end.

(** GetName(recursive, sep).  A container that is neither root has a
    parent; where the source would dereference a null Parent there is no
    result. *)
Fixpoint GetName_fuel (n : nat) (h : gmap nat TContainer) (this : nat)
    (recursive : bool) (sep : string) : option string :=
  match n with
  | O => None
  | S n' =>
      c ← h !! this;
      if negb recursive then Some (Name c)
      else if IsRoot c || IsPortoRoot c then Some (Name c)
      else
        p ← Parent c;
        cp ← h !! p;
        if IsPortoRoot cp then Some (Name c)
        else s ← GetName_fuel n' h p recursive sep; Some (s +:+ sep +:+ Name c)
  end.

Definition GetName (w : TWorld) (this : nat) (recursive : bool) (sep : string)
  : option string :=
  GetName_fuel (S this) (Containers w) this recursive sep.

(** GetPortoNamespace: the namespaces of the chain below the root, joined;
    [porto_namespace r] is Prop->Get<std::string>(P_PORTO_NAMESPACE) of
    the container [r]. *)
Fixpoint GetPortoNamespace_fuel (n : nat) (porto_namespace : nat → string)
    (h : gmap nat TContainer) (this : nat) : string :=
  match n with
  | O => ""
  | S n' =>
      match h !! this ≫= Parent with
      | Some p => GetPortoNamespace_fuel n' porto_namespace h p +:+ porto_namespace this
      | None => ""
      end
  end.

Definition GetPortoNamespace (porto_namespace : nat → string) (w : TWorld) (this : nat)
  : string :=
  GetPortoNamespace_fuel (S this) porto_namespace (Containers w) this.

(** RelativeName(c, name): the name of [c] as the clients of [this] see
    it.  The defaults of GetName are those of container.hpp, recursive
    with the separator "/".  The result is the error, or the name
    written to the out-parameter; there is none where GetName has none. *)
Definition RelativeName (R : TReservedNames) (porto_namespace : nat → string)
    (w : TWorld) (this c : nat) : option (TError + string) :=
  let ns := GetPortoNamespace porto_namespace w this in
  cc ← Containers w !! c;
  if IsRoot cc then Some (inr (ROOT_CONTAINER R))
  else
    n ← GetName w c true "/";
    if decide (ns = "") then Some (inr n)
    else if bool_decide (String.length n ≤ String.length ns)
            || negb (bool_decide (String.substring 0 (String.length ns) n = ns))
    then Some (inl (TError_of ContainerDoesNotExist))
    else Some (inr (substr (String.length ns) n)).

(** AbsoluteName(orig, name, resolve_meta). *)
Definition AbsoluteName (R : TReservedNames) (porto_namespace : nat → string)
    (w : TWorld) (this : nat) (orig : string) (resolve_meta : bool) : TError + string :=
  if negb resolve_meta
     && (bool_decide (orig = DOT_CONTAINER R) || bool_decide (orig = PORTO_ROOT_CONTAINER R)
         || bool_decide (orig = ROOT_CONTAINER R))
  then inl (TError_of Permission)
  else
    let ns := GetPortoNamespace porto_namespace w this in
    if bool_decide (orig = ROOT_CONTAINER R) || bool_decide (orig = PORTO_ROOT_CONTAINER R)
    then inr orig
    else if decide (orig = DOT_CONTAINER R) then
      match rfind slash ns with
      | Some off => inr (String.substring 0 off ns)
      | None => inr (PORTO_ROOT_CONTAINER R)
      end
    else inr (ns +:+ orig).

End Names.
Section AcquireModel.
Import TContainer.

(** ** container.cpp: the acquired flag and the children list *)

(** IsAcquired: this container or one of its ancestors is acquired. *)
Fixpoint IsAcquired_fuel (n : nat) (h : gmap nat TContainer) (this : nat) : bool :=
  match n with
  | O => false
  | S n' =>
      match h !! this with
      | None => false
      | Some c =>
          Acquired c
          || match Parent c with
             | Some p => IsAcquired_fuel n' h p
             | None => false
             end
      end
  end.

Definition IsAcquired (w : TWorld) (this : nat) : bool :=
  IsAcquired_fuel (S this) (Containers w) this.

Definition Acquire (w : TWorld) (this : nat) : bool * TWorld :=
  if negb (IsAcquired w this) then (true, upd this (set_Acquired true) w)
  else (false, w).

(** CleanupExpiredChildren: the weak pointers that have expired are erased
    from the children list.  An expired pointer is a reference to an
    object that is no longer in the heap. *)
Definition CleanupExpiredChildren (w : TWorld) (this : nat) : TWorld :=
  upd this
    (λ c, set_Children (filter (λ child, is_Some (Containers w !! child)) (Children c)) c)
    w.

End AcquireModel.
(** ** property.cpp: the checks of the property values *)

Module TCpuPolicyProperty.

(** CheckValue; [hasSmartKnob] is cpuroot->HasKnob("cpu.smart"). *)
Definition CheckValue (hasSmartKnob : bool) (value : string) : TError :=
  if negb (bool_decide (value = "normal")) && negb (bool_decide (value = "rt"))
     && negb (bool_decide (value = "idle"))
  then TError_of InvalidValue
  else if bool_decide (value = "rt") && negb hasSmartKnob then TError_of NotSupported
  else if bool_decide (value = "idle") then TError_of NotSupported
  else TError_Success.

End TCpuPolicyProperty.

(** TUintMap is std::map<std::string, uint64_t>. *)
Notation TUintMap := (gmap string Z) (only parsing).

Module TNetMapValue.

(** GetDefault: every link of the network gets the default; [isRoot] is
    c->IsRoot() and [links] the aliases of c->Net->GetLinks(). *)
Definition GetDefault (isRoot : bool) (RootDef Def : Z) (links : list string) : TUintMap :=
  let def := if isRoot then RootDef else Def in
  fold_left (λ m alias, <[alias := def]> m) links ∅.

(** CheckValue: every key is the alias of a link. *)
Definition CheckValue (links : list string) (value : TUintMap) : TError :=
  if forallb (λ kv : string * Z, bool_decide (kv.1 ∈ links)) (map_to_list value)
  then TError_Success else TError_of InvalidValue.

End TNetMapValue.

Module TNetPriorityProperty.

Definition CheckValue (links : list string) (value : TUintMap) : TError :=
  if is_error (TNetMapValue.CheckValue links value) then TNetMapValue.CheckValue links value
  else if forallb (λ kv : string * Z, bool_decide (kv.2 ≤ 7)%Z) (map_to_list value)
  then TError_Success else TError_of InvalidValue.

End TNetPriorityProperty.

Module TCapabilitiesProperty.

(** struct TCapDesc. *)
Record TCapDesc := mkCapDesc { id : Z; flags : Z }.

Definition RESTRICTED_CAP : Z := 1.

(** The table of the supported capabilities, with the numbers that
    linux/capability.h gives to CAP_CHOWN .. CAP_BLOCK_SUSPEND. *)
Definition supported_items : list (string * TCapDesc) :=
  [ ("CHOWN",            mkCapDesc 0 RESTRICTED_CAP);
    ("DAC_OVERRIDE",     mkCapDesc 1 RESTRICTED_CAP);
    ("DAC_READ_SEARCH",  mkCapDesc 2 0);
    ("FOWNER",           mkCapDesc 3 RESTRICTED_CAP);
    ("FSETID",           mkCapDesc 4 RESTRICTED_CAP);
    ("KILL",             mkCapDesc 5 RESTRICTED_CAP);
    ("SETGID",           mkCapDesc 6 RESTRICTED_CAP);
    ("SETUID",           mkCapDesc 7 RESTRICTED_CAP);
    ("SETPCAP",          mkCapDesc 8 0);
    ("LINUX_IMMUTABLE",  mkCapDesc 9 0);
    ("NET_BIND_SERVICE", mkCapDesc 10 RESTRICTED_CAP);
    ("NET_BROADCAST",    mkCapDesc 11 0);
    ("NET_ADMIN",        mkCapDesc 12 RESTRICTED_CAP);
    ("NET_RAW",          mkCapDesc 13 RESTRICTED_CAP);
    ("IPC_LOCK",         mkCapDesc 14 RESTRICTED_CAP);
    ("IPC_OWNER",        mkCapDesc 15 0);
    ("SYS_MODULE",       mkCapDesc 16 0);
    ("SYS_RAWIO",        mkCapDesc 17 0);
    ("SYS_CHROOT",       mkCapDesc 18 RESTRICTED_CAP);
    ("SYS_PTRACE",       mkCapDesc 19 0);
    ("SYS_PACCT",        mkCapDesc 20 0);
    ("SYS_ADMIN",        mkCapDesc 21 0);
    ("SYS_BOOT",         mkCapDesc 22 0);
    ("SYS_NICE",         mkCapDesc 23 0);
    ("SYS_RESOURCE",     mkCapDesc 24 RESTRICTED_CAP);
    ("SYS_TIME",         mkCapDesc 25 0);
    ("SYS_TTY_CONFIG",   mkCapDesc 26 0);
    ("MKNOD",            mkCapDesc 27 0);
    ("LEASE",            mkCapDesc 28 0);
    ("AUDIT_WRITE",      mkCapDesc 29 0);
    ("AUDIT_CONTROL",    mkCapDesc 30 0);
    ("SETFCAP",          mkCapDesc 31 0);
    ("MAC_OVERRIDE",     mkCapDesc 32 0);
    ("MAC_ADMIN",        mkCapDesc 33 0);
    ("SYSLOG",           mkCapDesc 34 0);
    ("WAKE_ALARM",       mkCapDesc 35 0);
    ("BLOCK_SUSPEND",    mkCapDesc 36 0) ].

(** A std::map keeps its items in the order of the keys. *)
Fixpoint insert_item (kv : string * TCapDesc) (l : list (string * TCapDesc))
  : list (string * TCapDesc) :=
  match l with
  | [] => [kv]
  | x :: rest => if String.leb kv.1 x.1 then kv :: l else x :: insert_item kv rest
  end.

Definition supported : list (string * TCapDesc) := foldr insert_item [] supported_items.

(** supported.find(line). *)
Fixpoint find (line : string) (l : list (string * TCapDesc)) : option TCapDesc :=
  match l with
  | [] => None
  | (k, d) :: rest => if decide (k = line) then Some d else find line rest
  end.

(** GetDefault; [root] is c->Cred.IsRoot() and [restricted] is
    virt_mode == VIRT_MODE_OS. *)
Definition GetDefault (root restricted : bool) : list string :=
  (filter
     (λ kv : string * TCapDesc,
        root || (restricted && negb (bool_decide (Z.land (flags kv.2) RESTRICTED_CAP = 0%Z)))
        = true)
     supported).*1.

(** The loop of CheckValue: [allowed |= 1ULL << id]. *)
Fixpoint CheckLines (lines : list string) (allowed : Z) : option Z :=
  match lines with
  | [] => Some allowed
  | line :: rest =>
      match find line supported with
      | None => None
      | Some d => CheckLines rest (Z.lor allowed (Z.shiftl 1 (id d)))
      end
  end.

(** CheckValue: the new value of Caps, which is assigned when every line
    names a supported capability. *)
Definition CheckValue (lines : list string) (Caps : Z) : TError * Z :=
  match CheckLines lines 0 with
  | Some allowed => (TError_Success, allowed)
  | None => (TError_of InvalidValue, Caps)
  end.

End TCapabilitiesProperty.

Module TBindProperty.

(** struct TBindMap. *)
Record TBindMap := mkBindMap { Source : string; Dest : string; Rdonly : bool }.

(** The loop of CheckValue over the lines.  SplitEscapedString and
    TPath::Exists are the calls of util/string.hpp and util/path.hpp. *)
Fixpoint CheckLines (SplitEscapedString : string → TError * list string)
    (Exists : string → bool) (lines : list string) (BindMap : list TBindMap)
  : TError * list TBindMap :=
  match lines with
  | [] => (TError_Success, BindMap)
  | line :: rest =>
      let '(error, tok) := SplitEscapedString line in
      if is_error error then (error, BindMap)
      else
        match tok with
        | [source; dest] =>
            if negb (Exists source) then (TError_of InvalidValue, BindMap)
            else CheckLines SplitEscapedString Exists rest
                   (BindMap ++ [mkBindMap source dest false])
        | [source; dest; type] =>
            if decide (type = "ro") then
              if negb (Exists source) then (TError_of InvalidValue, BindMap)
              else CheckLines SplitEscapedString Exists rest
                     (BindMap ++ [mkBindMap source dest true])
            else if decide (type = "rw") then
              if negb (Exists source) then (TError_of InvalidValue, BindMap)
              else CheckLines SplitEscapedString Exists rest
                     (BindMap ++ [mkBindMap source dest false])
            else (TError_of InvalidValue, BindMap)
        | _ => (TError_of InvalidValue, BindMap)
        end
  end.

(** CheckValue: [if (lines.size()) BindMap.clear();] and the loop. *)
Definition CheckValue (SplitEscapedString : string → TError * list string)
    (Exists : string → bool) (lines : list string) (BindMap : list TBindMap)
  : TError * list TBindMap :=
  CheckLines SplitEscapedString Exists lines
    (if bool_decide (lines ≠ []) then [] else BindMap).

End TBindProperty.
(** ** network.cpp: the removal of a busy traffic class *)

Module TNetwork.

(** An object of the class cache: rtnl_tc_get_handle and
    rtnl_tc_get_parent. *)
Record TClass := mkClass { handle : Z; parent : Z }.

(** The inner loop of DelTrafficClass over the cache: the handle of every
    object whose parent is [h] is pushed to the back of [handles]. *)
Definition PushChildren (cache : list TClass) (h : Z) (handles : list Z) : list Z :=
  fold_left (λ hs obj, if decide (parent obj = h) then hs ++ [handle obj] else hs)
    cache handles.

(** The outer loop, [for (i = 0; i < handles.size(); i++)], over a vector
    that grows while it is walked.  The fuel bounds the number of
    rounds. *)
Fixpoint CollectHandles (fuel : nat) (cache : list TClass) (handles : list Z) (i : nat)
  : option (list Z) :=
  match handles !! i with
  | None => Some handles
  | Some h =>
      match fuel with
      | O => None
      | S fuel' => CollectHandles fuel' cache (PushChildren cache h handles) (S i)
      end
  end.

(** The handles the second loop deletes, [for (i = handles.size() - 1;
    i >= 0; i--)], in the order of the calls of rtnl_class_delete when
    none of them fails. *)
Definition DeletionOrder (fuel : nat) (cache : list TClass) (handle : Z) : option (list Z) :=
  reverse <$> CollectHandles fuel cache [handle] 0.

End TNetwork.
Section Settings.
Import TContainer.

(** What the client has configured of a container, with its identity and
    the count of its respawns. *)
Definition settings (c : TContainer) :=
  (Id c, Name c, P_COMMAND (Props c), P_ROOT (Props c), P_ROOT_RDONLY (Props c),
   P_ISOLATE (Props c), P_VIRT_MODE (Props c), P_CPU_POLICY (Props c),
   P_RESPAWN (Props c), P_MAX_RESPAWNS (Props c), P_UINT (Props c),
   D_RESPAWN_COUNT (Data c)).

Definition same_settings (w w' : TWorld) : Prop :=
  ∀ r, settings <$> Containers w' !! r = settings <$> Containers w !! r.

(** The worlds an operation passes through when it leaves the settings
    alone: steps that keep the core and the settings of every container,
    and calls of SetState. *)
Inductive proceeds : TWorld → TWorld → Prop :=
  | proceeds_quiet w w' : same_core w w' → same_settings w w' → proceeds w w'
  | proceeds_SetState w this newState tree : proceeds w (SetState w this newState tree)
  | proceeds_trans w1 w2 w3 : proceeds w1 w2 → proceeds w2 w3 → proceeds w1 w3.

End Settings.
Section StoppedVocabulary.
Import TContainer.

(** A well-formed world in which the container [x] is Stopped. *)
Definition stopped (x : nat) (w : TWorld) : Prop :=
  wf w ∧ State <$> Containers w !! x = Some Stopped.

End StoppedVocabulary.
Section MoreSamples.
Import TContainer.

(** The same as [calmEnv], with a kernel that creates no cgroup. *)
Definition noCgroupEnv : TEnv :=
  mkEnv true 1000 (λ _, true) (λ _ _, TError_Success) (λ _ _, mkError Unknown EBUSY)
    (λ _, TError_Success) 1 (λ _, 7%Z) (λ _, TError_Success) (λ _, 8%Z)
    (λ _, Directory) (TError_Success, 0%Z) (λ _, TError_Success)
    (λ _ _, TError_Success) (λ _ _, TError_Success) (λ _, TError_Success)
    (λ _, TError_Success) (λ _, (TError_Success, 42%Z))
    (λ _, TError_Success) (λ _, TError_Success) (λ _, TError_Success)
    (λ _ _, TError_Success) (λ _ _, TError_Success) (λ _, false) (λ _, [])
    (λ _, false) (TError_Success, 4096%Z) (λ _, TError_Success) (λ _, TError_Success).

(** The reserved names as porto has them. *)
Definition reservedNames : TReservedNames := mkReservedNames "/" "/porto" ".".

(** The namespaces of a client that runs in "a": the container "a" has the
    namespace "a/", the others have none. *)
Definition sampleNamespace (r : nat) : string := if decide (r = 2) then "a/" else "".

(** "a", its child "a/b" and a container "c" beside "a". *)
Definition namedWorld : TWorld :=
  mkWorld
    (list_to_map
       [(0, sampleContainer 0 "/" None [1] Meta 0);
        (1, sampleContainer 1 "/porto" (Some 0) [2; 4] Meta 0);
        (2, sampleContainer 2 "a" (Some 1) [3] Stopped 0);
        (3, sampleContainer 3 "b" (Some 2) [] Stopped 0);
        (4, sampleContainer 4 "c" (Some 1) [] Stopped 0)])
    5 [] [] [] 0.

(** "a" with a child that is alive and a reference to an object that is
    gone. *)
Definition expiredWorld : TWorld :=
  mkWorld
    (list_to_map
       [(0, sampleContainer 0 "/" None [1] Meta 0);
        (1, sampleContainer 1 "/porto" (Some 0) [2] Meta 0);
        (2, sampleContainer 2 "a" (Some 1) [3; 4] Stopped 0);
        (4, sampleContainer 4 "c" (Some 2) [] Stopped 0)])
    5 [] [] [] 0.

(** A class cache: the class 1:2 with the children 1:3 and 1:4, and 1:5
    under 1:3; the class 1:6 is not below 1:2. *)
Definition sampleCache : list TNetwork.TClass :=
  [TNetwork.mkClass 5 3; TNetwork.mkClass 3 2; TNetwork.mkClass 6 1;
   TNetwork.mkClass 4 2; TNetwork.mkClass 2 1].

End MoreSamples.


(* ================================================================== *)
(** * Properties *)
(* ================================================================== *)

(** ** The key-value store *)

Section KeyValueFacts.
Import TKeyValueStorage.

Implicit Types (node next : TNode) (k v : string) (p : TPair).

Lemma ReplaceFirst_keys k v node :
  key <$> (ReplaceFirst k v node).1 = key <$> node.
Proof.
  induction node as [|q rest IH]; csimpl; [done|].
  case_decide; csimpl; [done|].
  destruct (ReplaceFirst k v rest) as [rest' fl]; csimpl in *. by rewrite IH.
Qed.

Lemma Lookup_ReplaceFirst k' k v node :
  Lookup k' (ReplaceFirst k v node).1 =
    if decide (k' = k) then (if (ReplaceFirst k v node).2 then Some v else None)
    else Lookup k' node.
Proof.
  induction node as [|q rest IH]; simpl.
  - by case_decide.
  - destruct (decide (k = key q)) as [->|Hne]; simpl.
    + repeat case_decide; congruence.
    + destruct (ReplaceFirst k v rest) as [rest' fl]; simpl in *.
      repeat case_decide; subst; try congruence.
Qed.

Lemma ReplaceFirst_missing k v node :
  (ReplaceFirst k v node).2 = false → (ReplaceFirst k v node).1 = node ∧ k ∉ key <$> node.
Proof.
  induction node as [|q rest IH]; simpl.
  - intros _. split; [done|]. apply not_elem_of_nil.
  - case_decide; simpl; [done|].
    destruct (ReplaceFirst k v rest) as [rest' fl]; simpl in *.
    intros ->. destruct IH as [-> Hk]; [done|]. split; [done|].
    rewrite elem_of_cons. tauto.
Qed.

Lemma Lookup_app k (a b : TNode) :
  Lookup k (a ++ b) = match Lookup k a with Some v => Some v | None => Lookup k b end.
Proof. induction a as [|q a IH]; simpl; [done|]. by case_decide. Qed.

Lemma Lookup_MergePair k' node p :
  Lookup k' (MergePair node p) =
    if decide (k' = key p) then Some (val p) else Lookup k' node.
Proof.
  unfold MergePair.
  pose proof (Lookup_ReplaceFirst k' (key p) (val p) node) as HL.
  pose proof (ReplaceFirst_missing (key p) (val p) node) as HM.
  destruct (ReplaceFirst (key p) (val p) node) as [node' [|]]; simpl in *.
  - exact HL.
  - destruct HM as [-> _]; [done|].
    rewrite Lookup_app. simpl. rewrite HL.
    repeat case_decide; try congruence. by destruct (Lookup k' node).
Qed.

Lemma NoDup_MergePair node p :
  NoDup (key <$> node) → NoDup (key <$> MergePair node p).
Proof.
  unfold MergePair. intros Hnd.
  pose proof (ReplaceFirst_keys (key p) (val p) node) as HK.
  pose proof (ReplaceFirst_missing (key p) (val p) node) as HM.
  destruct (ReplaceFirst (key p) (val p) node) as [node' [|]]; simpl in *.
  - by rewrite HK.
  - destruct HM as [-> Hk]; [done|].
    rewrite fmap_app. apply NoDup_app. split; [done|]. split.
    + intros x Hx Hx'. apply list_elem_of_singleton in Hx'. simpl in Hx'. by subst.
    + apply NoDup_singleton.
Qed.

Lemma Lookup_Merge k node next :
  Lookup k (Merge node next) =
    match Lookup k (reverse next) with Some v => Some v | None => Lookup k node end.
Proof.
  unfold Merge. revert node.
  induction next as [|p next IH]; intros node; simpl; [done|].
  rewrite IH, reverse_cons, Lookup_app, Lookup_MergePair. simpl.
  destruct (Lookup k (reverse next)); [done|]. by case_decide.
Qed.

Lemma NoDup_Merge node next :
  NoDup (key <$> node) → NoDup (key <$> Merge node next).
Proof.
  unfold Merge. revert node.
  induction next as [|p next IH]; intros node Hnd; simpl; [done|].
  by apply IH, NoDup_MergePair.
Qed.

Lemma Lookup_MergeWhile k (recs : list TNode) node :
  Lookup k (MergeWhile (Good <$> recs) node) =
    match Lookup k (reverse (concat recs)) with Some v => Some v | None => Lookup k node end.
Proof.
  revert node. induction recs as [|r recs IH]; intros node; simpl; [done|].
  rewrite IH, reverse_app, Lookup_app, Lookup_Merge.
  by destruct (Lookup k (reverse (concat recs))).
Qed.

Lemma NoDup_MergeWhile (s : TFile) node :
  NoDup (key <$> node) → NoDup (key <$> MergeWhile s node).
Proof.
  revert node. induction s as [|[r|] s IH]; intros node Hnd; simpl; try done.
  by apply IH, NoDup_Merge.
Qed.

Lemma Lookup_Some_elem k v node : Lookup k node = Some v → mkPair k v ∈ node.
Proof.
  induction node as [|[k0 v0] rest IH]; simpl; [done|].
  case_decide; subst.
  - intros [= ->]. apply list_elem_of_here.
  - intros H'. apply list_elem_of_further. auto.
Qed.

Lemma Lookup_NoDup_elem k v node :
  NoDup (key <$> node) → mkPair k v ∈ node → Lookup k node = Some v.
Proof.
  induction node as [|[k0 v0] rest IH]; simpl.
  - intros _ H. by apply elem_of_nil in H.
  - intros Hnd Hin. apply NoDup_cons in Hnd as [Hk0 Hnd].
    apply elem_of_cons in Hin as [[= -> ->]|Hin].
    + by rewrite decide_True.
    + rewrite decide_False; [auto|].
      intros ->. apply Hk0. apply list_elem_of_fmap. by exists (mkPair k0 v).
Qed.

Lemma FindFile_PutFile dir name f : FindFile (PutFile dir name f) name = Some f.
Proof.
  induction dir as [|[n g] dir IH]; simpl.
  - by rewrite decide_True.
  - case_decide; simpl; [subst; by rewrite decide_True|by rewrite decide_False].
Qed.

Lemma RestoreNodes_prefix st pre name post map error node :
  Forall (λ n, is_error (LoadNode st n).1 = false) pre →
  LoadNode st name = (error, node) → is_error error = true →
  RestoreNodes st (pre ++ name :: post) map =
    (error, foldl (λ m n, <[n := (LoadNode st n).2]> m) map pre).
Proof.
  intros Hpre Hload Herr. revert map.
  induction Hpre as [|n pre Hn Hpre IH]; intros map; simpl.
  - by rewrite Hload, Herr.
  - destruct (LoadNode st n) as [e nd]; simpl in *. rewrite Hn. apply IH.
Qed.

End KeyValueFacts.

Section KeyValueClaims.
Import TKeyValueStorage.

Lemma Lookup_rev_NoDup (k : string) (node : TNode) :
  NoDup (key <$> node) → Lookup k (reverse node) = Lookup k node.
Proof.
  intros Hnd. apply option_eq. intros v.
  assert (NoDup (key <$> reverse node)) as Hnd'.
  { by rewrite fmap_reverse, reverse_Permutation. }
  split; intros H.
  - apply Lookup_NoDup_elem; [done|]. apply Lookup_Some_elem in H.
    by rewrite elem_of_reverse in H.
  - apply Lookup_NoDup_elem; [done|]. apply Lookup_Some_elem in H.
    by rewrite elem_of_reverse.
Qed.

Lemma LoadNode_good (st : Tmpfs) (name : string) (first : TNode) (recs : list TNode) :
  FindFile (Dir st) name = Some (Good <$> first :: recs) →
  LoadNode st name = (TError_Success, MergeWhile (Good <$> recs) first).
Proof. unfold LoadNode. intros ->. done. Qed.

(** C5 (as the code has it). Persisting a value is an append of a record
    to the container's log; a record binds each key once.  When every
    record of the log is readable, that is, no write to it was torn,
    loading the log afterwards succeeds and the key [p] appended with
    value [v] reads as [v].  When the first record of the log binds each
    key once too, every key reads as the value written last for it and
    [p] has no other binding. *)
Theorem append_then_load_last_write_wins
    (st : Tmpfs) (name p v : string) (recs : list TNode) (node : TNode) :
  default [] (FindFile (Dir st) name) = Good <$> recs →
  NoDup (key <$> node) →
  mkPair p v ∈ node →
  (AppendNode IoOk st name node).1 = TError_Success ∧
  ∃ loaded,
    LoadNode (AppendNode IoOk st name node).2 name = (TError_Success, loaded) ∧
    Lookup p loaded = Some v ∧
    ((∀ first, head recs = Some first → NoDup (key <$> first)) →
     (∀ k, Lookup k loaded = Lookup k (reverse (concat (recs ++ [node])))) ∧
     (∀ v', mkPair p v' ∈ loaded ↔ v' = v)).
Proof.
  intros Hfile Hnode Hin. split; [done|].
  assert (Lookup p node = Some v) as Hp by by apply Lookup_NoDup_elem.
  assert (∃ first rest, recs ++ [node] = first :: rest) as (first & rest & Hlog).
  { destruct recs; simpl; eauto. }
  exists (MergeWhile (Good <$> rest) first).
  assert (Lookup p (MergeWhile (Good <$> rest) first) = Some v) as Hv.
  { destruct recs as [|r0 recs]; simpl in Hlog.
    - injection Hlog as <- <-. done.
    - injection Hlog as <- <-.
      rewrite Lookup_MergeWhile, concat_app, reverse_app, Lookup_app. simpl.
      by rewrite app_nil_r, Lookup_rev_NoDup, Hp. }
  split; [|split; [done|]].
  - apply LoadNode_good. rewrite <- Hlog. unfold AppendNode. cbn [snd Dir].
    rewrite Hfile, FindFile_PutFile. by rewrite fmap_app.
  - intros Hfirst.
    assert (NoDup (key <$> first)) as Hnd.
    { destruct recs as [|r0 recs]; simpl in Hlog; injection Hlog as <- <-; [done|].
      by apply Hfirst. }
    split.
    + intros k. rewrite Lookup_MergeWhile, Hlog. simpl.
      rewrite reverse_app, Lookup_app, (Lookup_rev_NoDup k first) by done. done.
    + intros v'. split.
      * intros Hin'. apply Lookup_NoDup_elem in Hin'; [congruence|].
        by apply NoDup_MergeWhile.
      * intros ->. by apply Lookup_Some_elem.
Qed.

Lemma append_then_load_last_write_wins_witness :
  let st := mkTmpfs [("2", [Good [mkPair "memory_limit" "100"; mkPair "command" "sleep"];
                            Good [mkPair "memory_limit" "200"]])] TError_Success in
  ∃ loaded,
    LoadNode (AppendNode IoOk st "2" [mkPair "memory_limit" "300"]).2 "2"
      = (TError_Success, loaded) ∧
    Lookup "memory_limit" loaded = Some "300".
Proof.
  intros st.
  destruct (append_then_load_last_write_wins st "2" "memory_limit" "300"
              [[mkPair "memory_limit" "100"; mkPair "command" "sleep"];
               [mkPair "memory_limit" "200"]]
              [mkPair "memory_limit" "300"]) as (_ & loaded & Hl & Hv & _).
  - reflexivity.
  - apply (bool_decide_unpack _). reflexivity.
  - apply list_elem_of_here.
  - exists loaded. split; [exact Hl | exact Hv].
Defined.

(** C5 fails as stated: the value 100 is appended, an append of 200 fails
    in the write and leaves a torn record, and the append of 300 succeeds;
    the load stops at the torn record and restores 100, not the value
    appended last. *)
Lemma append_after_torn_record_counterexample :
  let st1 := (AppendNode IoOk (mkTmpfs [] TError_Success) "2"
                [mkPair "memory_limit" "100"]).2 in
  let st2 := (AppendNode IoWriteFails st1 "2" [mkPair "memory_limit" "200"]).2 in
  let r := AppendNode IoOk st2 "2" [mkPair "memory_limit" "300"] in
  r.1 = TError_Success ∧
  ∃ loaded, LoadNode r.2 "2" = (TError_Success, loaded) ∧
            Lookup "memory_limit" loaded = Some "100".
Proof. vm_compute. eauto. Qed.

(** C2 (as the code has it). Restore walks the listed names in order and
    returns at the first node that does not load: it returns that node's
    error, the map holds the nodes listed before it, and no node listed
    after it is loaded. *)
Theorem Restore_stops_at_first_failure
    (st : Tmpfs) (pre post : list string) (name : string)
    (map : gmap string TNode) (error : TError) (node : TNode) :
  is_error (ItemsError st) = false →
  (Dir st).*1 = pre ++ name :: post →
  Forall (λ n, is_error (LoadNode st n).1 = false) pre →
  LoadNode st name = (error, node) →
  is_error error = true →
  Restore st map = (error, foldl (λ m n, <[n := (LoadNode st n).2]> m) map pre).
Proof.
  intros Hitems Hdir Hpre Hload Herr. unfold Restore, ListNodes.
  rewrite Hitems. simpl. rewrite Hdir.
  by apply RestoreNodes_prefix with node.
Qed.

Lemma Restore_stops_at_first_failure_witness :
  Restore corrupt_store ∅ =
    (TError_of Unknown, <["2" := [mkPair "command" "sleep"]]> ∅).
Proof.
  apply (Restore_stops_at_first_failure corrupt_store ["2"] ["4"] "3" ∅
           (TError_of Unknown) []).
  - reflexivity.
  - reflexivity.
  - repeat constructor.
  - reflexivity.
  - reflexivity.
Defined.

(** C2 fails as stated: node "4" loads on its own, yet after the corrupt
    node "3" Restore returns an error and a map without node "4". *)
Lemma Restore_skips_only_corrupt_counterexample :
  LoadNode corrupt_store "4" = (TError_Success, [mkPair "command" "true"]) ∧
  is_error (Restore corrupt_store ∅).1 = true ∧
  (Restore corrupt_store ∅).2 !! "4" = None ∧
  DumpNodes corrupt_store (ListNodes corrupt_store).2 =
    [("2", [mkPair "command" "sleep"]); ("4", [mkPair "command" "true"])].
Proof. vm_compute. done. Qed.

End KeyValueClaims.

(** ** Containers: guards of the operations *)

Section GuardClaims.
Import TContainer.

(** C10. On the host root and on the porto root, GetProperty fails with
    InvalidProperty and SetProperty fails with InvalidValue for every
    property name and value, and nothing is changed. *)
Theorem root_containers_have_no_properties
    (K : TEnv) (M : TPropertyMap) (w : TWorld) (this : nat) (c : TContainer) :
  Containers w !! this = Some c →
  IsRoot c || IsPortoRoot c = true →
  (∀ property client,
     (GetProperty M w this property client).1 = TError_of InvalidProperty) ∧
  (∀ property value client superuser,
     SetProperty K M w this property value client superuser = (TError_of InvalidValue, w)).
Proof.
  intros Hc Hroot. split; intros; unfold GetProperty, SetProperty;
    rewrite Hc, Hroot; reflexivity.
Qed.

Lemma root_containers_have_no_properties_witness :
  (GetProperty plainPropertyMap (sampleWorld Running Running 2) 1 "command" true).1
    = TError_of InvalidProperty ∧
  SetProperty calmEnv plainPropertyMap (sampleWorld Running Running 2) 0
    "memory_limit" "100" true true
    = (TError_of InvalidValue, sampleWorld Running Running 2).
Proof.
  split.
  - apply (root_containers_have_no_properties calmEnv plainPropertyMap
             (sampleWorld Running Running 2) 1
             (set_Tclass (Some (mkTclass 1 1)) (sampleContainer 1 "/porto" (Some 0) [2] Meta 2)));
      reflexivity.
  - apply (root_containers_have_no_properties calmEnv plainPropertyMap
             (sampleWorld Running Running 2) 0 (sampleContainer 0 "/" None [1] Meta 2));
      reflexivity.
Defined.




(** SyncStateWithCgroup only acts on a Running container. *)
Lemma SyncStateWithCgroup_not_Running K w this c :
  Containers w !! this = Some c → State c ≠ Running → SyncStateWithCgroup K w this = w.
Proof.
  intros Hc Hs. unfold SyncStateWithCgroup. rewrite Hc.
  rewrite (bool_decide_eq_false_2 _ Hs), andb_false_r. reflexivity.
Qed.

(** C3 (as the code has it). Stop on a Paused container is rejected with
    InvalidState and changes nothing: there is no implicit Resume. *)
Theorem Stop_rejects_Paused (K : TEnv) (w : TWorld) (this : nat) (c : TContainer) :
  Containers w !! this = Some c →
  State c = Paused →
  Stop K w this = (TError_of InvalidState, w).
Proof.
  intros Hc Hs. unfold Stop. simpl.
  rewrite (SyncStateWithCgroup_not_Running K w this c) by (done || congruence).
  rewrite Hc, Hs. reflexivity.
Qed.

Lemma Stop_rejects_Paused_witness :
  Stop calmEnv (sampleWorld Paused Paused 0) 2
    = (TError_of InvalidState, sampleWorld Paused Paused 0).
Proof.
  apply (Stop_rejects_Paused calmEnv (sampleWorld Paused Paused 0) 2
           (withTask 42 (withCommand "sleep 60" (sampleContainer 2 "a" (Some 1) [3] Paused 0))));
    reflexivity.
Defined.

(** C3 fails as stated: Stop leaves a Paused container Paused. *)
Lemma Stop_of_Paused_counterexample :
  let r := Stop calmEnv (sampleWorld Paused Paused 0) 2 in
  is_error r.1 = true ∧ State <$> Containers r.2 !! 2 = Some Paused.
Proof. vm_compute. done. Qed.

End GuardClaims.

(** ** Containers: how the operations move the world *)

Section EvolutionFacts.
Import TContainer.

Lemma lookup_upd this f w r :
  Containers (upd this f w) !! r =
    if decide (this = r) then f <$> Containers w !! r else Containers w !! r.
Proof.
  unfold upd. simpl. case_decide; subst.
  - by rewrite lookup_alter_eq.
  - by rewrite lookup_alter_ne.
Qed.

Lemma same_core_refl w : same_core w w.
Proof. by split. Qed.

Lemma same_core_trans w1 w2 w3 : same_core w1 w2 → same_core w2 w3 → same_core w1 w3.
Proof. intros [H1 H2] [H3 H4]. split; [congruence|]. intros r. by rewrite H2. Qed.

Lemma same_core_upd this f w : (∀ c, core (f c) = core c) → same_core w (upd this f w).
Proof.
  intros Hf. split; [done|]. intros r. rewrite lookup_upd. case_decide; [|done].
  destruct (Containers w !! r); simpl; [|done]. by rewrite Hf.
Qed.

Lemma same_core_fields w es lb q st :
  same_core w (mkWorld (Containers w) (NextRef w) es lb q st).
Proof. by split. Qed.

Lemma evolves_refl w : evolves w w.
Proof. apply evolves_core, same_core_refl. Qed.

Lemma evolves_step_core w0 w w' : same_core w w' → evolves w0 w → evolves w0 w'.
Proof. intros H1 H2. eapply evolves_trans; [exact H2|]. by apply evolves_core. Qed.

Lemma evolves_upd w0 w this f :
  (∀ c, core (f c) = core c) → evolves w0 w → evolves w0 (upd this f w).
Proof. intros Hf. apply evolves_step_core. by apply same_core_upd. Qed.

Lemma evolves_set_EpollSources w0 w v : evolves w0 w → evolves w0 (set_EpollSources v w).
Proof. apply evolves_step_core, same_core_fields. Qed.

Lemma evolves_set_LoopBusy w0 w v : evolves w0 w → evolves w0 (set_LoopBusy v w).
Proof. apply evolves_step_core, same_core_fields. Qed.

Lemma evolves_set_Queue w0 w v : evolves w0 w → evolves w0 (set_Queue v w).
Proof. apply evolves_step_core, same_core_fields. Qed.

Lemma evolves_set_Started w0 w v : evolves w0 w → evolves w0 (set_Started v w).
Proof. apply evolves_step_core, same_core_fields. Qed.

Lemma evolves_then_SetState w0 w this newState tree :
  evolves w0 w → evolves w0 (SetState w this newState tree).
Proof. intros H. eapply evolves_trans; [exact H|]. apply evolves_SetState. Qed.

Lemma evolves_fold_left {A} (f : TWorld → A → TWorld) (l : list A) w0 w :
  (∀ w a, evolves w0 w → evolves w0 (f w a)) →
  evolves w0 w → evolves w0 (fold_left f l w).
Proof. intros Hf. revert w. induction l as [|a l IH]; simpl; auto. Qed.

End EvolutionFacts.

Create HintDb evolve.

#[export] Hint Resolve evolves_refl evolves_upd evolves_set_EpollSources
  evolves_set_LoopBusy evolves_set_Queue evolves_set_Started
  evolves_then_SetState : evolve.

#[export] Hint Extern 1 (∀ c, core _ = core c) => (intros; reflexivity) : evolve.

(** Name the world a call returns by its projection, and split the
    branches of the operation at hand. *)
Ltac name_result :=
  match goal with
  | |- context [let '(_, _) := ?p in _] =>
      let e := fresh "e" in
      let w1 := fresh "w" in
      let E := fresh "E" in
      let Hw := fresh "Hw" in
      destruct p as [e w1] eqn:E;
      assert (w1 = p.2) as Hw by (rewrite E; reflexivity);
      clear E; subst w1
  end.

Ltac branches := repeat (name_result || case_match); cbn [fst snd].

Ltac evolve := branches; eauto 40 with evolve.

Section OperationsEvolve.
Import TContainer.

Lemma evolves_Prop_Set w0 K this name f w :
  evolves w0 w → evolves w0 (Prop_Set K this name f w).2.
Proof. intros H. unfold Prop_Set. evolve. Qed.

Lemma evolves_Data_Set w0 K this name f w :
  evolves w0 w → evolves w0 (Data_Set K this name f w).2.
Proof. intros H. unfold Data_Set. evolve. Qed.

Lemma evolves_ShutdownOom w0 w this : evolves w0 w → evolves w0 (ShutdownOom w this).
Proof. intros H. unfold ShutdownOom. evolve. Qed.

Lemma evolves_DoFreeze w0 K w this : evolves w0 w → evolves w0 (DoFreeze K w this).
Proof. intros H. unfold DoFreeze. evolve. Qed.

Lemma evolves_DoUnfreeze w0 K w this : evolves w0 w → evolves w0 (DoUnfreeze K w this).
Proof. intros H. unfold DoUnfreeze. evolve. Qed.

End OperationsEvolve.

#[export] Hint Resolve evolves_Prop_Set evolves_Data_Set evolves_ShutdownOom
  evolves_DoFreeze evolves_DoUnfreeze : evolve.

Section MoreOperationsEvolve.
Import TContainer.

Lemma evolves_SendSignal w0 K w this signal freeze :
  evolves w0 w → evolves w0 (SendSignal K w this signal freeze).2.
Proof. intros H. unfold SendSignal. evolve. Qed.

Lemma evolves_KillAll w0 K w this : evolves w0 w → evolves w0 (KillAll K w this).2.
Proof.
  intros H. unfold KillAll. name_result.
  auto using evolves_SendSignal.
Qed.

Lemma core_alter (f : TContainer → TContainer) this (h : gmap nat TContainer) r :
  (∀ c, core (f c) = core c) → core <$> alter f this h !! r = core <$> h !! r.
Proof.
  intros Hf. destruct (decide (this = r)) as [->|Hne].
  - rewrite lookup_alter_eq. destruct (h !! r); simpl; [|done]. by rewrite Hf.
  - by rewrite lookup_alter_ne.
Qed.

Lemma UpdateSoftLimit_fuel_core n K h this r :
  core <$> (UpdateSoftLimit_fuel n K h this).2 !! r = core <$> h !! r.
Proof.
  revert h this. induction n as [|n IH]; intros h this; simpl; [done|].
  destruct (h !! this) as [c0|] eqn:Hc0; [|done].
  destruct (IsRoot c0 || IsPortoRoot c0); [done|].
  set (h1 := match Parent c0 with
             | Some p => (UpdateSoftLimit_fuel n K h p).2
             | None => h
             end).
  assert (core <$> h1 !! r = core <$> h !! r) as H1.
  { unfold h1. destruct (Parent c0); [apply IH|done]. }
  destruct (h1 !! this) as [c|] eqn:Hc; [|done].
  repeat case_match; simpl; try done.
  all: by rewrite core_alter.
Qed.

Lemma evolves_UpdateSoftLimit w0 K w this :
  evolves w0 w → evolves w0 (UpdateSoftLimit K w this).2.
Proof.
  apply evolves_step_core. unfold UpdateSoftLimit.
  pose proof (UpdateSoftLimit_fuel_core (S this) K (Containers w) this) as H.
  destruct (UpdateSoftLimit_fuel (S this) K (Containers w) this) as [e h]; simpl in *.
  split; [done|]. intros r. by rewrite H.
Qed.

Lemma evolves_PrepareNetwork w0 K w this :
  evolves w0 w → evolves w0 (PrepareNetwork K w this).2.
Proof. intros H. unfold PrepareNetwork. evolve. Qed.

Lemma evolves_AddEpollSource w0 fd w : evolves w0 w → evolves w0 (AddEpollSource fd w).
Proof. intros H. unfold AddEpollSource. evolve. Qed.

Hint Resolve evolves_AddEpollSource evolves_SendSignal evolves_KillAll
  evolves_UpdateSoftLimit evolves_PrepareNetwork : evolve.

Lemma evolves_PrepareOomMonitor w0 K w this :
  evolves w0 w → evolves w0 (PrepareOomMonitor K w this).2.
Proof. intros H. unfold PrepareOomMonitor. evolve. Qed.

Hint Resolve evolves_PrepareOomMonitor : evolve.

Lemma evolves_PrepareCgroups w0 K w this :
  evolves w0 w → evolves w0 (PrepareCgroups K w this).2.
Proof. intros H. unfold PrepareCgroups. evolve. Qed.

Lemma evolves_DoPutLoopDev w0 K nr w : evolves w0 w → evolves w0 (DoPutLoopDev K nr w).
Proof. intros H. unfold DoPutLoopDev. evolve. Qed.

Lemma evolves_DoGetLoopDev w0 K w : evolves w0 w → evolves w0 (DoGetLoopDev K w).2.
Proof. intros H. unfold DoGetLoopDev. evolve. Qed.

Hint Resolve evolves_PrepareCgroups evolves_DoPutLoopDev evolves_DoGetLoopDev : evolve.

Lemma evolves_FreeResources w0 K w this :
  evolves w0 w → evolves w0 (FreeResources K w this).
Proof. intros H. unfold FreeResources. evolve. Qed.

Hint Resolve evolves_FreeResources : evolve.

Lemma evolves_PrepareResources w0 K w this :
  evolves w0 w → evolves w0 (PrepareResources K w this).2.
Proof. intros H. unfold PrepareResources. evolve. Qed.

Lemma evolves_PrepareTask w0 K w this :
  evolves w0 w → evolves w0 (PrepareTask K w this).2.
Proof. intros H. unfold PrepareTask. evolve. Qed.

Lemma evolves_ScheduleRespawn w0 w this : evolves w0 w → evolves w0 (ScheduleRespawn w this).
Proof. intros H. unfold ScheduleRespawn. evolve. Qed.

Lemma evolves_Release w0 w this : evolves w0 w → evolves w0 (Release w this).
Proof. intros H. unfold Release. evolve. Qed.

Hint Resolve evolves_PrepareResources evolves_PrepareTask evolves_ScheduleRespawn
  evolves_Release : evolve.

Lemma evolves_StartTask w0 K w this :
  evolves w0 w → evolves w0 (StartTask K w this).2.
Proof. intros H. unfold StartTask. evolve. Qed.

Lemma evolves_Exit_fuel n w0 K w this status oomKilled force :
  evolves w0 w → evolves w0 (Exit_fuel n K w this status oomKilled force).2.
Proof.
  revert w this force. induction n as [|n IH]; intros w this force H; simpl.
  - evolve.
  - destruct (Containers w !! this) as [c|]; [|done].
    match goal with |- context [if ?b then _ else _] => destruct b end; [done|].
    simpl.
    match goal with
    | |- context [fold_left ?f ?l ?w1] =>
        assert (evolves w0 (fold_left f l w1)) as Hfold
    end.
    { apply evolves_fold_left.
      - intros w' child Hw'. evolve.
      - evolve. }
    revert Hfold.
    match goal with
    | |- context [fold_left ?f ?l ?w1] => generalize (fold_left f l w1)
    end.
    intros w2 Hw2. evolve.
Qed.

Lemma evolves_Exit w0 K w this status oomKilled force :
  evolves w0 w → evolves w0 (Exit K w this status oomKilled force).2.
Proof. apply evolves_Exit_fuel. Qed.

Hint Resolve evolves_StartTask evolves_Exit : evolve.

Lemma evolves_SyncStateWithCgroup w0 K w this :
  evolves w0 w → evolves w0 (SyncStateWithCgroup K w this).
Proof. intros H. unfold SyncStateWithCgroup. evolve. Qed.

Hint Resolve evolves_SyncStateWithCgroup : evolve.

Lemma evolves_DeliverExitStatus w0 K w this pid status :
  evolves w0 w → evolves w0 (DeliverExitStatus K w this pid status).2.
Proof. intros H. unfold DeliverExitStatus. evolve. Qed.

Lemma evolves_DeliverOom w0 K w this fd :
  evolves w0 w → evolves w0 (DeliverOom K w this fd).2.
Proof. intros H. unfold DeliverOom. evolve. Qed.

Lemma evolves_Start w0 K w this meta :
  evolves w0 w → evolves w0 (Start K w this meta).2.
Proof. intros H. unfold Start. evolve. Qed.

End MoreOperationsEvolve.

#[export] Hint Resolve evolves_AddEpollSource evolves_SendSignal evolves_KillAll
  evolves_UpdateSoftLimit evolves_PrepareNetwork evolves_PrepareOomMonitor
  evolves_PrepareCgroups evolves_DoPutLoopDev evolves_DoGetLoopDev
  evolves_FreeResources evolves_PrepareResources evolves_PrepareTask
  evolves_ScheduleRespawn evolves_Release evolves_StartTask evolves_Exit
  evolves_SyncStateWithCgroup evolves_DeliverExitStatus evolves_DeliverOom
  evolves_Start : evolve.

Section LifecycleEvolves.
Import TContainer.

Lemma evolves_Stop_fuel n w0 K w this :
  evolves w0 w → evolves w0 (Stop_fuel n K w this).2.
Proof.
  revert w this. induction n as [|n IH]; intros w this H; simpl.
  - evolve.
  - destruct (Containers (SyncStateWithCgroup K w this) !! this) as [c|]; [|evolve].
    match goal with |- context [if ?b then _ else _] => destruct b end; [evolve|].
    name_result. destruct (is_error e); [evolve|].
    simpl.
    match goal with
    | |- context [fold_left ?f ?l ?w1] =>
        assert (evolves w0 (fold_left f l w1)) as Hfold
    end.
    { apply evolves_fold_left.
      - intros w' child Hw'. evolve.
      - evolve. }
    revert Hfold.
    match goal with
    | |- context [fold_left ?f ?l ?w1] => generalize (fold_left f l w1)
    end.
    intros w2 Hw2. evolve.
Qed.

Lemma evolves_Stop w0 K w this : evolves w0 w → evolves w0 (Stop K w this).2.
Proof. apply evolves_Stop_fuel. Qed.

Lemma evolves_Pause w0 K w this : evolves w0 w → evolves w0 (Pause K w this).2.
Proof. intros H. unfold Pause. evolve. Qed.

Lemma evolves_Resume w0 K w this : evolves w0 w → evolves w0 (Resume K w this).2.
Proof. intros H. unfold Resume. evolve. Qed.

Hint Resolve evolves_Stop evolves_Pause evolves_Resume : evolve.

Lemma evolves_Respawn w0 K w this : evolves w0 w → evolves w0 (Respawn K w this).2.
Proof. intros H. unfold Respawn. evolve. Qed.

Hint Resolve evolves_Respawn : evolve.

Lemma evolves_DeliverEvent w0 K w this event :
  evolves w0 w → evolves w0 (DeliverEvent K w this event).2.
Proof. intros H. unfold DeliverEvent. evolve. Qed.

Lemma evolves_Destroy w0 K w this : evolves w0 w → evolves w0 (Destroy K w this).2.
Proof. intros H. unfold Destroy. evolve. Qed.

Lemma evolves_SetProperty w0 K M w this property value client superuser :
  evolves w0 w → evolves w0 (SetProperty K M w this property value client superuser).2.
Proof. intros H. unfold SetProperty. evolve. Qed.

Lemma evolves_StartParents_fuel n w0 K w parent :
  evolves w0 w → evolves w0 (StartParents_fuel n K w parent).2.
Proof.
  revert w parent. induction n as [|n IH]; intros w parent H; simpl.
  - by destruct parent.
  - destruct parent as [p|]; [|done].
    destruct (Containers w !! p) as [c|]; [|done].
    repeat (match goal with |- context [if ?b then _ else _] => destruct b end; [done|]).
    name_result. destruct (is_error e); [evolve|]. apply IH. evolve.
Qed.

End LifecycleEvolves.

#[export] Hint Resolve evolves_Stop evolves_Pause evolves_Resume evolves_Respawn
  evolves_DeliverEvent evolves_Destroy evolves_SetProperty
  evolves_StartParents_fuel : evolve.

(** ** Containers: the running-children counter *)

Section Counters.
Import TContainer.

Implicit Types (h : gmap nat TContainer) (c : TContainer).

Lemma chain_fuel_ext n h h' r :
  (∀ x, Parent <$> h !! x = Parent <$> h' !! x) →
  chain_fuel n h r = chain_fuel n h' r.
Proof.
  intros Hp. revert r. induction n as [|n IH]; intros r; simpl; [done|].
  specialize (Hp r) as Hr.
  destruct (h !! r) as [c|], (h' !! r) as [c'|]; simpl in Hr; try congruence.
  injection Hr as ->. f_equal. destruct (Parent c'); [apply IH|done].
Qed.

Lemma chain_fuel_le n h r x : hwf_parent h → x ∈ chain_fuel n h r → x ≤ r.
Proof.
  intros Hwf. revert r. induction n as [|n IH]; intros r; simpl.
  - intros H. by apply elem_of_nil in H.
  - destruct (h !! r) as [c|] eqn:Hc; [|intros H; by apply elem_of_nil in H].
    rewrite elem_of_cons. intros [->|Hx]; [lia|].
    destruct (Parent c) as [p|] eqn:Hp; [|by apply elem_of_nil in Hx].
    destruct (Hwf r c p Hc Hp) as [Hlt _]. apply IH in Hx. lia.
Qed.

Lemma chain_fuel_stable n m h r :
  hwf_parent h → r < n → r < m → chain_fuel n h r = chain_fuel m h r.
Proof.
  intros Hwf. revert m r. induction n as [|n IH]; intros m r Hn Hm; [lia|].
  destruct m as [|m]; [lia|]. simpl.
  destruct (h !! r) as [c|] eqn:Hc; [|done]. f_equal.
  destruct (Parent c) as [p|] eqn:Hp; [|done].
  destruct (Hwf r c p Hc Hp) as [Hlt _]. apply IH; lia.
Qed.

Lemma chain_self h r : is_Some (h !! r) → r ∈ chain h r.
Proof. intros [c Hc]. unfold chain. simpl. rewrite Hc. apply list_elem_of_here. Qed.

Lemma elem_of_RunningBelow h r x :
  x ∈ RunningBelow h r ↔ State <$> h !! x = Some Running ∧ r ∈ chain h x.
Proof.
  unfold RunningBelow. rewrite elem_of_filter, elem_of_dom. split; [tauto|].
  intros [Hs Hr]. split; [done|]. destruct (h !! x); [eauto|done].
Qed.

(** UpdateRunningChildren adds [diff] to the counters of the chain and
    changes nothing else. *)
Lemma UpdateRunningChildren_fuel_lookup n h d diff x :
  hwf_parent h → d < n →
  UpdateRunningChildren_fuel n h d diff !! x =
    (λ c, if decide (x ∈ chain h d)
          then set_RunningChildren (wrap64 (RunningChildren c + diff)) c else c)
      <$> h !! x.
Proof.
  revert h d. induction n as [|n IH]; intros h d Hwf Hd; [lia|].
  unfold chain. simpl.
  destruct (h !! d) as [c|] eqn:Hc.
  2:{ by destruct (h !! x). }
  set (c' := set_RunningChildren (wrap64 (RunningChildren c + diff)) c).
  assert (∀ y, Parent <$> h !! y = Parent <$> <[d:=c']> h !! y) as Hpar.
  { intros y. destruct (decide (d = y)) as [->|Hne].
    - by rewrite lookup_insert_eq, Hc.
    - by rewrite lookup_insert_ne. }
  destruct (Parent c) as [p|] eqn:Hp.
  - destruct (Hwf d c p Hc Hp) as [Hlt _].
    assert (hwf_parent (<[d:=c']> h)) as Hwf'.
    { intros r cr pr Hr Hpr.
      assert (Parent <$> h !! r = Some (Some pr)) as Hr'.
      { rewrite Hpar, Hr. simpl. by rewrite Hpr. }
      destruct (h !! r) as [cr0|] eqn:Hr0; [|done]. injection Hr' as Hr'.
      destruct (Hwf r cr0 pr Hr0 Hr') as [? [cp Hcp]]. split; [done|].
      destruct (decide (d = pr)) as [->|]; [rewrite lookup_insert_eq|rewrite lookup_insert_ne]; eauto. }
    rewrite IH by (done || lia).
    unfold chain.
    rewrite <- (chain_fuel_ext _ h) by done.
    rewrite (chain_fuel_stable (S p) d h p) by (done || lia).
    destruct (decide (d = x)) as [->|Hne].
    + rewrite lookup_insert_eq, Hc. simpl.
      rewrite decide_False, decide_True; [done|apply list_elem_of_here|].
      intros Hin. apply (chain_fuel_le _ _ _ _ Hwf) in Hin. lia.
    + rewrite lookup_insert_ne by done. destruct (h !! x); simpl; [|done].
      f_equal. repeat case_decide; try done.
      * exfalso. set_solver.
      * exfalso. set_solver.
  - destruct (decide (d = x)) as [->|Hne].
    + rewrite lookup_insert_eq, Hc. simpl. rewrite decide_True; [done|apply list_elem_of_here].
    + rewrite lookup_insert_ne by done. destruct (h !! x); simpl; [|done].
      rewrite decide_False; [done|]. set_solver.
Qed.

Lemma UpdateRunningChildren_lookup h d diff x :
  hwf_parent h →
  UpdateRunningChildren h d diff !! x =
    (λ c, if decide (x ∈ chain h d)
          then set_RunningChildren (wrap64 (RunningChildren c + diff)) c else c)
      <$> h !! x.
Proof. intros. apply UpdateRunningChildren_fuel_lookup; [done|lia]. Qed.

End Counters.

Section SetStateCounters.
Import TContainer.

Implicit Types (h : gmap nat TContainer) (c : TContainer).

Lemma wrap64_succ (n : nat) :
  wrap64 (wrap64 (Z.of_nat n) + 1) = wrap64 (Z.of_nat (S n)).
Proof. unfold wrap64. rewrite Z.add_mod_idemp_l by lia. f_equal. lia. Qed.

Lemma wrap64_pred (n : nat) :
  wrap64 (wrap64 (Z.of_nat (S n)) + wrap64 (-1)) = wrap64 (Z.of_nat n).
Proof. unfold wrap64. rewrite <- Z.add_mod by lia. f_equal. lia. Qed.

Lemma SetState_fuel_unfold n h this newState tree :
  SetState_fuel (S n) h this newState tree =
    match h !! this with
    | None => h
    | Some c0 =>
        SetOwnState
          (if tree
           then fold_left (λ h child, SetState_fuel n h child newState tree) (Children c0) h
           else h)
          this newState
    end.
Proof. simpl. unfold SetOwnState. by destruct (h !! this). Qed.

Lemma SetOwnState_lookup h d s c x :
  hwf_parent h → h !! d = Some c → State c ≠ s →
  SetOwnState h d s !! x =
    (λ cx, (if decide (d = x) then AssignState s else id)
             (match delta s c with
              | Some diff =>
                  if decide (x ∈ chain h d)
                  then set_RunningChildren (wrap64 (RunningChildren cx + diff)) cx else cx
              | None => cx
              end)) <$> h !! x.
Proof.
  intros Hwf Hc Hs. unfold SetOwnState, delta. rewrite Hc, decide_False by done.
  destruct (decide (d = x)) as [->|Hne].
  - rewrite lookup_alter_eq.
    destruct (decide (s = Running)); [|destruct (decide (State c = Running))];
      rewrite ?UpdateRunningChildren_lookup by done; rewrite Hc; reflexivity.
  - rewrite lookup_alter_ne by done.
    destruct (decide (s = Running)); [|destruct (decide (State c = Running))];
      rewrite ?UpdateRunningChildren_lookup by done; by destruct (h !! x).
Qed.

Lemma SetOwnState_shape h d s x :
  hwf_parent h → shape <$> SetOwnState h d s !! x = shape <$> h !! x.
Proof.
  intros Hwf. destruct (h !! d) as [c|] eqn:Hc.
  2:{ unfold SetOwnState. by rewrite Hc. }
  destruct (decide (State c = s)) as [Hs|Hs].
  { unfold SetOwnState. by rewrite Hc, decide_True. }
  rewrite (SetOwnState_lookup h d s c) by done.
  destruct (h !! x); simpl; [|done]. f_equal.
  destruct (delta s c); repeat case_decide; reflexivity.
Qed.

Lemma SetOwnState_State h d s x :
  hwf_parent h → is_Some (h !! d) →
  State <$> SetOwnState h d s !! x =
    if decide (d = x) then Some s else State <$> h !! x.
Proof.
  intros Hwf [c Hc].
  destruct (decide (State c = s)) as [Hs|Hs].
  { unfold SetOwnState. rewrite Hc, decide_True by done.
    case_decide; subst; [by rewrite Hc|done]. }
  rewrite (SetOwnState_lookup h d s c) by done.
  case_decide; subst.
  - rewrite Hc. simpl. f_equal.
  - destruct (h !! x); simpl; [|done]. f_equal.
    destruct (delta s c); repeat case_decide; reflexivity.
Qed.

Lemma hwf_parent_shape h h' :
  (∀ x, shape <$> h' !! x = shape <$> h !! x) → hwf_parent h → hwf_parent h'.
Proof.
  intros Hsh Hwf r c p Hc Hp.
  pose proof (Hsh r) as Hr. rewrite Hc in Hr. simpl in Hr.
  destruct (h !! r) as [c0|] eqn:Hc0; [|done]. injection Hr as Hr1 Hr2.
  destruct (Hwf r c0 p Hc0) as [Hlt [cp Hcp]]; [congruence|]. split; [done|].
  pose proof (Hsh p) as Hq. rewrite Hcp in Hq.
  destruct (h' !! p); [eauto|done].
Qed.

Lemma chain_shape h h' x :
  (∀ y, shape <$> h' !! y = shape <$> h !! y) → chain h' x = chain h x.
Proof.
  intros Hsh. apply chain_fuel_ext. intros y. specialize (Hsh y).
  destruct (h' !! y), (h !! y); simpl in *; unfold shape in *; congruence.
Qed.

Lemma SetOwnState_hcount h d s :
  hwf_parent h → hcount h → hcount (SetOwnState h d s).
Proof.
  intros Hwf Hcnt.
  destruct (h !! d) as [c|] eqn:Hc.
  2:{ unfold SetOwnState. by rewrite Hc. }
  destruct (decide (State c = s)) as [Hs|Hs].
  { unfold SetOwnState. by rewrite Hc, decide_True. }
  set (h' := SetOwnState h d s).
  assert (∀ x, chain h' x = chain h x) as Hch.
  { intros x. apply chain_shape. intros y. by apply SetOwnState_shape. }
  assert (∀ r x, x ∈ RunningBelow h' r ↔
                 (if decide (d = x) then Some s else State <$> h !! x) = Some Running
                 ∧ r ∈ chain h x) as Hin.
  { intros r x. unfold h'. rewrite elem_of_RunningBelow, SetOwnState_State by eauto.
    fold h'. by rewrite Hch. }
  intros r cr' Hr'. unfold h' in Hr'.
  rewrite (SetOwnState_lookup h d s c) in Hr' by done.
  destruct (h !! r) as [cr|] eqn:Hr; [|done]. simpl in Hr'. injection Hr' as <-.
  pose proof (Hcnt r cr Hr) as Hrc.
  assert (∀ c0, RunningChildren ((if decide (d = r) then AssignState s else id) c0)
                = RunningChildren c0) as Hassign.
  { intros c0. by case_decide. }
  rewrite Hassign. clear Hassign. unfold delta.
  destruct (decide (s = Running)) as [->|Hnew].
  - (* entering Running *)
    destruct (decide (r ∈ chain h d)) as [Hrd|Hrd]; simpl.
    + assert (RunningBelow h' r = {[d]} ∪ RunningBelow h r) as ->.
      { apply set_eq. intros x. rewrite elem_of_union, elem_of_singleton, Hin.
        rewrite elem_of_RunningBelow. case_decide; subst; [|naive_solver]. split; [auto|].
        intros _. done. }
      rewrite size_union, size_singleton.
      * rewrite Hrc. apply wrap64_succ.
      * apply disjoint_singleton_l. rewrite elem_of_RunningBelow, Hc. simpl.
        intros [[= Hst] _]. done.
    + assert (RunningBelow h' r = RunningBelow h r) as ->; [|done].
      apply set_eq. intros x. rewrite Hin, elem_of_RunningBelow.
      case_decide; subst; [|naive_solver]. rewrite Hc. simpl. split; intros [? ?]; done.
  - destruct (decide (State c = Running)) as [Hold|Hold].
    + (* leaving Running *)
      destruct (decide (r ∈ chain h d)) as [Hrd|Hrd]; simpl.
      * assert (RunningBelow h' r = RunningBelow h r ∖ {[d]}) as Heq.
        { apply set_eq. intros x.
          rewrite elem_of_difference, elem_of_singleton, Hin, elem_of_RunningBelow.
          case_decide; subst.
          - split; [intros [[= ?] _]; done|]. intros [_ ?]. done.
          - split; [intros [? ?]; split; [done|congruence]|naive_solver]. }
        assert (d ∈ RunningBelow h r) as Hd.
        { rewrite elem_of_RunningBelow, Hc. simpl. by rewrite Hold. }
        assert (size (RunningBelow h r) = S (size (RunningBelow h' r))) as Hsz.
        { rewrite Heq, size_difference by set_solver. rewrite size_singleton.
          assert (size (RunningBelow h r) ≠ 0); [|lia].
          intros H0. apply size_empty_inv in H0. set_solver. }
        rewrite Hrc, Hsz. apply wrap64_pred.
      * assert (RunningBelow h' r = RunningBelow h r) as ->; [|done].
        apply set_eq. intros x. rewrite Hin, elem_of_RunningBelow.
        case_decide; subst; [|naive_solver]. rewrite Hc. simpl.
        split; intros [? ?]; done.
    + (* the Running boundary is not crossed *)
      assert (RunningBelow h' r = RunningBelow h r) as ->; [|done].
      apply set_eq. intros x. rewrite Hin, elem_of_RunningBelow.
      case_decide; subst; [|naive_solver]. rewrite Hc. simpl.
      split; intros [[= ?] ?]; done.
Qed.

End SetStateCounters.

Section SetStateInvariant.
Import TContainer.

Implicit Types (h : gmap nat TContainer) (c : TContainer).

Lemma SetState_fuel_invariant n h this s tree :
  hwf_parent h →
  (∀ x, shape <$> SetState_fuel n h this s tree !! x = shape <$> h !! x) ∧
  (hcount h → hcount (SetState_fuel n h this s tree)).
Proof.
  revert h this. induction n as [|n IH]; intros h this Hwf; [done|].
  rewrite SetState_fuel_unfold.
  destruct (h !! this) as [c0|] eqn:Hc0; [|done].
  set (f := λ h child, SetState_fuel n h child s tree).
  assert (∀ l h0, hwf_parent h0 →
            (∀ x, shape <$> fold_left f l h0 !! x = shape <$> h0 !! x) ∧
            (hcount h0 → hcount (fold_left f l h0))) as Hfold.
  { induction l as [|k l IHl]; intros h0 Hwf0; simpl; [done|].
    destruct (IH h0 k Hwf0) as [Hsh Hcnt].
    destruct (IHl (f h0 k)) as [Hsh' Hcnt'].
    { by apply (hwf_parent_shape h0). }
    split; [|by auto]. intros x. by rewrite Hsh', <- Hsh. }
  set (h1 := if tree then fold_left f (Children c0) h else h).
  assert ((∀ x, shape <$> h1 !! x = shape <$> h !! x) ∧ (hcount h → hcount h1))
    as [Hsh1 Hcnt1].
  { unfold h1. destruct tree; [by apply Hfold|done]. }
  assert (hwf_parent h1) as Hwf1 by by apply (hwf_parent_shape h).
  split.
  - intros x. by rewrite SetOwnState_shape, Hsh1.
  - intros Hcnt. apply SetOwnState_hcount; auto.
Qed.

Lemma wf_hwf_parent w : wf w → hwf_parent (Containers w).
Proof. intros [_ H _ _]. exact H. Qed.

Lemma counters_ok_hcount w : counters_ok w ↔ hcount (Containers w).
Proof. done. Qed.

Lemma same_core_shape w w' : same_core w w' → same_shape w w'.
Proof.
  intros [Hn Hc]. split; [done|]. intros r. specialize (Hc r).
  destruct (Containers w !! r), (Containers w' !! r); simpl in *;
    unfold core, shape in *; congruence.
Qed.

Lemma same_shape_refl w : same_shape w w.
Proof. by split. Qed.

Lemma same_shape_trans w1 w2 w3 : same_shape w1 w2 → same_shape w2 w3 → same_shape w1 w3.
Proof. intros [H1 H2] [H3 H4]. split; [congruence|]. intros r. by rewrite H2. Qed.

Lemma wf_same_shape w w' : wf w → same_shape w w' → wf w'.
Proof.
  intros [Hb Hp Hc Hcb] [Hn Hsh].
  assert (∀ r c', Containers w' !! r = Some c' →
            ∃ c, Containers w !! r = Some c ∧ Parent c = Parent c' ∧ Children c = Children c')
    as Hback.
  { intros r c' Hr. specialize (Hsh r). rewrite Hr in Hsh.
    destruct (Containers w !! r) as [c|]; [|done]. exists c.
    simpl in Hsh. unfold shape in Hsh. split; [done|]. split; congruence. }
  assert (∀ r, is_Some (Containers w !! r) → is_Some (Containers w' !! r)) as Hfwd.
  { intros r [c Hr]. specialize (Hsh r). rewrite Hr in Hsh.
    destruct (Containers w' !! r); [eauto|done]. }
  split.
  - intros r c' Hr. destruct (Hback r c' Hr) as (c & Hc0 & _). rewrite <- Hn. eauto.
  - intros r c' p Hr Hpar. destruct (Hback r c' Hr) as (c & Hc0 & Hpc & _).
    destruct (Hp r c p Hc0) as [? ?]; [congruence|]. auto.
  - intros r c' k ck' Hr Hk Hck.
    destruct (Hback r c' Hr) as (c & Hc0 & _ & Hch).
    destruct (Hback k ck' Hck) as (ck & Hck0 & Hpk & _).
    rewrite <- Hpk. apply (Hc r c k ck Hc0); [congruence|done].
  - intros r c' k Hr Hk. destruct (Hback r c' Hr) as (c & Hc0 & _ & Hch).
    rewrite <- Hn. apply (Hcb r c k Hc0). congruence.
Qed.

Lemma SetState_same_shape w this s tree : wf w → same_shape w (SetState w this s tree).
Proof.
  intros Hwf. split; [done|]. intros r. unfold SetState.
  cbn [Containers set_Containers]. symmetry.
  by apply SetState_fuel_invariant, wf_hwf_parent.
Qed.

Lemma SetState_counters_ok w this s tree :
  wf w → counters_ok w → counters_ok (SetState w this s tree).
Proof.
  intros Hwf Hcnt. unfold SetState. apply counters_ok_hcount.
  cbn [Containers set_Containers].
  by apply SetState_fuel_invariant; [apply wf_hwf_parent|].
Qed.

Lemma RunningBelow_same_core w w' r :
  same_core w w' → RunningBelow (Containers w') r = RunningBelow (Containers w) r.
Proof.
  intros Hcore. pose proof Hcore as [_ Hc].
  apply set_eq. intros x. rewrite !elem_of_RunningBelow.
  rewrite (chain_shape (Containers w) (Containers w')).
  2:{ intros y. symmetry. by apply same_core_shape. }
  specialize (Hc x).
  destruct (Containers w !! x), (Containers w' !! x); simpl in *;
    unfold core in *; try done.
  assert (State t = State t0) as -> by congruence. done.
Qed.

Lemma counters_ok_same_core w w' : counters_ok w → same_core w w' → counters_ok w'.
Proof.
  intros Hcnt Hcore r c' Hr.
  rewrite (RunningBelow_same_core w w') by done.
  pose proof Hcore as [_ Hc]. specialize (Hc r). rewrite Hr in Hc.
  destruct (Containers w !! r) as [c|] eqn:Hr0; [|done].
  rewrite <- (Hcnt r c Hr0). simpl in Hc. unfold core in Hc. congruence.
Qed.

(** Every operation that only evolves the world keeps the tree well
    formed and the counters right. *)
Lemma evolves_invariant w w' :
  evolves w w' → wf w → counters_ok w → wf w' ∧ counters_ok w'.
Proof.
  induction 1 as [w w' Hcore|w this s tree|w1 w2 w3 _ IH1 _ IH2]; intros Hwf Hcnt.
  - split; [by apply (wf_same_shape w), same_core_shape|by apply (counters_ok_same_core w)].
  - split; [by apply (wf_same_shape w), SetState_same_shape|by apply SetState_counters_ok].
  - destruct IH1 as [? ?]; auto.
Qed.

Lemma evolves_same_shape w w' : evolves w w' → wf w → same_shape w w'.
Proof.
  induction 1 as [w w' Hcore|w this s tree|w1 w2 w3 H1 IH1 H2 IH2]; intros Hwf.
  - by apply same_core_shape.
  - by apply SetState_same_shape.
  - eapply same_shape_trans; [by apply IH1|]. apply IH2.
    eapply wf_same_shape; [exact Hwf|by apply IH1].
Qed.

End SetStateInvariant.

Section AllocationInvariant.
Import TContainer.

Implicit Types (h : gmap nat TContainer) (c : TContainer).

Lemma chain_fuel_live n h r y : y ∈ chain_fuel n h r → is_Some (h !! y).
Proof.
  revert r. induction n as [|n IH]; intros r; simpl.
  - intros H. by apply elem_of_nil in H.
  - destruct (h !! r) as [c|] eqn:Hc; [|intros H; by apply elem_of_nil in H].
    rewrite elem_of_cons. intros [->|Hy]; [eauto|].
    destruct (Parent c); [eauto|by apply elem_of_nil in Hy].
Qed.

Lemma chain_fuel_parents n h r y :
  y ∈ chain_fuel n h r → y = r ∨ ∃ z cz, h !! z = Some cz ∧ Parent cz = Some y.
Proof.
  revert r. induction n as [|n IH]; intros r; simpl.
  - intros H. by apply elem_of_nil in H.
  - destruct (h !! r) as [c|] eqn:Hc; [|intros H; by apply elem_of_nil in H].
    rewrite elem_of_cons. intros [->|Hy]; [by left|]. right.
    destruct (Parent c) as [p|] eqn:Hp; [|by apply elem_of_nil in Hy].
    destruct (IH p Hy) as [->|?]; eauto.
Qed.

Lemma chain_fuel_agree (Q : nat → Prop) n h h' r :
  Q r →
  (∀ y c p, Q y → h !! y = Some c → Parent c = Some p → Q p) →
  (∀ y, Q y → Parent <$> h !! y = Parent <$> h' !! y) →
  chain_fuel n h r = chain_fuel n h' r.
Proof.
  intros Hr Hclosed Hag. revert r Hr.
  induction n as [|n IH]; intros r Hr; simpl; [done|].
  pose proof (Hag r Hr) as Hpar.
  destruct (h !! r) as [c|] eqn:Hc, (h' !! r) as [c'|] eqn:Hc'; simpl in Hpar; try done.
  injection Hpar as Hpar. rewrite <- Hpar. f_equal.
  destruct (Parent c) as [p|] eqn:Hp; [|done]. apply IH. by apply (Hclosed r c).
Qed.

End AllocationInvariant.

Section StepInvariant.
Import TContainer.

Implicit Types (h : gmap nat TContainer) (c : TContainer).

Lemma counters_ok_ccore w w' :
  counters_ok w →
  (∀ r, ccore <$> Containers w !! r = ccore <$> Containers w' !! r) →
  counters_ok w'.
Proof.
  intros Hcnt Hc r c' Hr.
  assert (RunningBelow (Containers w') r = RunningBelow (Containers w) r) as ->.
  { apply set_eq. intros x. rewrite !elem_of_RunningBelow.
    unfold chain. rewrite (chain_fuel_ext _ (Containers w') (Containers w)).
    2:{ intros y. specialize (Hc y).
        destruct (Containers w !! y), (Containers w' !! y); simpl in *;
          unfold ccore in *; congruence. }
    specialize (Hc x).
    destruct (Containers w !! x) as [t|], (Containers w' !! x) as [t0|]; simpl in *;
      unfold ccore in *; try done.
    assert (State t = State t0) as -> by congruence. done. }
  specialize (Hc r). rewrite Hr in Hc.
  destruct (Containers w !! r) as [c|] eqn:Hr0; [|done].
  rewrite <- (Hcnt r c Hr0). simpl in Hc. unfold ccore in Hc. congruence.
Qed.

Lemma alloc_invariant w c0 es lb q st :
  wf w → counters_ok w →
  live_parent w (Parent c0) → State c0 = Stopped →
  RunningChildren c0 = 0%Z → Children c0 = [] →
  let w' := mkWorld (<[NextRef w := c0]> (Containers w)) (S (NextRef w)) es lb q st in
  wf w' ∧ counters_ok w'.
Proof.
  intros Hwf Hcnt Hlive Hst Hrc Hch. pose proof Hwf as [Hb Hp Hc Hcb].
  set (n := NextRef w). set (h := Containers w).
  assert (h !! n = None) as Hfresh.
  { destruct (h !! n) as [c|] eqn:Hn; [|done]. apply Hb in Hn. unfold n in Hn. lia. }
  assert (∀ y, y ≠ n → <[n:=c0]> h !! y = h !! y) as Hne.
  { intros y Hy. by rewrite lookup_insert_ne. }
  simpl. split.
  - split; simpl.
    + intros r c. destruct (decide (n = r)) as [<-|Hr]; [lia|].
      rewrite Hne by done. intros Hr'. apply Hb in Hr'. fold n in Hr'. lia.
    + intros r c p. destruct (decide (n = r)) as [<-|Hr].
      * rewrite lookup_insert_eq. intros [= <-] Hpar. rewrite Hpar in Hlive. simpl in Hlive.
        destruct Hlive as [cp Hcp]. pose proof (Hb p cp Hcp). fold n in H.
        split; [lia|]. rewrite Hne by lia. eauto.
      * rewrite Hne by done. intros Hr' Hpar.
        destruct (Hp r c p Hr' Hpar) as [Hlt [cp Hcp]]. split; [done|].
        pose proof (Hb p cp Hcp). fold n in H. rewrite Hne by lia. eauto.
    + intros r c k ck. destruct (decide (n = r)) as [<-|Hr].
      * rewrite lookup_insert_eq. intros [= <-]. rewrite Hch. intros H.
        by apply elem_of_nil in H.
      * rewrite Hne by done. intros Hr' Hk.
        pose proof (Hcb r c k Hr' Hk) as Hkb. fold n in Hkb.
        rewrite Hne by lia. by apply (Hc r c k ck).
    + intros r c k. destruct (decide (n = r)) as [<-|Hr].
      * rewrite lookup_insert_eq. intros [= <-]. rewrite Hch. intros H.
        by apply elem_of_nil in H.
      * rewrite Hne by done. intros Hr' Hk. pose proof (Hcb r c k Hr' Hk). lia.
  - assert (∀ x, x ≠ n → chain (<[n:=c0]> h) x = chain h x) as Hchain.
    { intros x Hx. symmetry. apply (chain_fuel_agree (λ y, y ≠ n)); [done| |].
      - intros y c p Hy Hyc Hpar. destruct (Hp y c p Hyc Hpar) as [_ [cp Hcp]].
        intros ->. fold h in Hcp. congruence.
      - intros y Hy. by rewrite Hne. }
    intros r c. simpl. destruct (decide (n = r)) as [<-|Hr].
    + rewrite lookup_insert_eq. intros [= <-].
      assert (RunningBelow (<[n:=c0]> h) n = ∅) as ->; [|by rewrite Hrc].
      apply set_eq. intros x. rewrite elem_of_RunningBelow. split; [|set_solver].
      intros [Hs Hin]. exfalso. destruct (decide (x = n)) as [->|Hx].
      * rewrite lookup_insert_eq in Hs. simpl in Hs. congruence.
      * rewrite Hchain in Hin by done. apply chain_fuel_live in Hin as [? ?]. congruence.
    + rewrite Hne by done. intros Hr'. rewrite (Hcnt r c Hr'). do 3 f_equal.
      apply set_eq. intros x. rewrite !elem_of_RunningBelow.
      destruct (decide (x = n)) as [->|Hx].
      * rewrite lookup_insert_eq. fold h. rewrite Hfresh. simpl. rewrite Hst.
        split; intros [? ?]; done.
      * by rewrite Hne, Hchain.
Qed.

Lemma push_child_invariant w p this c :
  wf w → counters_ok w →
  Containers w !! this = Some c → Parent c = Some p →
  let w' := upd p (λ c, set_Children (Children c ++ [this]) c) w in
  wf w' ∧ counters_ok w'.
Proof.
  intros Hwf Hcnt Hthis Hpar. pose proof Hwf as [Hb Hp Hc Hcb]. simpl. split.
  - assert (∀ r c', Containers (upd p (λ c, set_Children (Children c ++ [this]) c) w) !! r
                     = Some c' →
              ∃ c0, Containers w !! r = Some c0 ∧ Parent c0 = Parent c' ∧
                    Children c' = if decide (p = r) then Children c0 ++ [this]
                                  else Children c0) as Hback.
    { intros r c'. rewrite lookup_upd. case_decide; subst.
      - destruct (Containers w !! r) as [c0|]; [|done]. intros [= <-]. eauto.
      - intros Hr. eauto. }
    split.
    + intros r c' Hr. destruct (Hback r c' Hr) as (c0 & H0 & _). eauto.
    + intros r c' q Hr Hq. destruct (Hback r c' Hr) as (c0 & H0 & Hpc & _).
      destruct (Hp r c0 q H0) as [Hlt [cq Hcq]]; [congruence|]. split; [done|].
      rewrite lookup_upd. case_decide; rewrite Hcq; eauto.
    + intros r c' k ck' Hr Hk Hck.
      destruct (Hback r c' Hr) as (c0 & H0 & _ & Hch).
      destruct (Hback k ck' Hck) as (ck & Hk0 & Hpk & _). rewrite <- Hpk.
      rewrite Hch in Hk. case_decide; subst.
      * apply elem_of_app in Hk as [Hk|Hk]; [by apply (Hc r c0 k ck)|].
        apply list_elem_of_singleton in Hk. subst. congruence.
      * by apply (Hc r c0 k ck).
    + intros r c' k Hr Hk. destruct (Hback r c' Hr) as (c0 & H0 & _ & Hch).
      rewrite Hch in Hk. simpl. case_decide; subst.
      * apply elem_of_app in Hk as [Hk|Hk]; [by apply (Hcb r c0 k)|].
        apply list_elem_of_singleton in Hk. subst. by apply (Hb this c).
      * by apply (Hcb r c0 k).
  - apply (counters_ok_ccore w); [done|]. intros r. rewrite lookup_upd.
    case_decide; [|done]. by destruct (Containers w !! r).
Qed.

Lemma Remove_invariant w this c :
  wf w → counters_ok w →
  Containers w !! this = Some c → State c = Stopped →
  (∀ r cr, Containers w !! r = Some cr → Parent cr ≠ Some this) →
  wf (Remove w this) ∧ counters_ok (Remove w this).
Proof.
  intros Hwf Hcnt Hthis Hst Hleaf. pose proof Hwf as [Hb Hp Hc Hcb].
  unfold Remove. set (h := Containers w).
  assert (∀ y, y ≠ this → delete this h !! y = h !! y) as Hne.
  { intros y Hy. by rewrite lookup_delete_ne. }
  assert (∀ r c', delete this h !! r = Some c' → r ≠ this ∧ h !! r = Some c') as Hback.
  { intros r c'. destruct (decide (this = r)) as [<-|Hr].
    - by rewrite lookup_delete_eq.
    - rewrite Hne by done. done. }
  split.
  - split; simpl.
    + intros r c' Hr. apply Hback in Hr as [_ Hr]. eauto.
    + intros r c' p Hr Hpar. apply Hback in Hr as [_ Hr].
      destruct (Hp r c' p Hr Hpar) as [Hlt Hsome]. split; [done|].
      rewrite Hne; [done|]. intros ->. by apply (Hleaf r c').
    + intros r c' k ck Hr Hk Hck. apply Hback in Hr as [_ Hr]. apply Hback in Hck as [_ Hck].
      by apply (Hc r c' k ck).
    + intros r c' k Hr Hk. apply Hback in Hr as [_ Hr]. by apply (Hcb r c' k).
  - assert (∀ x, x ≠ this → chain (delete this h) x = chain h x) as Hchain.
    { intros x Hx. symmetry. apply (chain_fuel_agree (λ y, y ≠ this)); [done| |].
      - intros y cy p Hy Hyc Hpar. intros ->. by apply (Hleaf y cy).
      - intros y Hy. by rewrite Hne. }
    intros r c' Hr. simpl in Hr. apply Hback in Hr as [Hrne Hr].
    rewrite (Hcnt r c' Hr). simpl. do 3 f_equal.
    apply set_eq. intros x. rewrite !elem_of_RunningBelow.
    destruct (decide (x = this)) as [->|Hx].
    + rewrite lookup_delete_eq. unfold h. rewrite Hthis. simpl. rewrite Hst.
      split; intros [? ?]; done.
    + by rewrite Hne, Hchain.
Qed.

End StepInvariant.

Section ReachableInvariant.
Import TContainer.

Lemma evolves_RestoreState w0 K w this parent props data lost zombie freezed :
  evolves w0 w →
  evolves w0 (RestoreState K w this parent props data lost zombie freezed).2.
Proof. intros H. unfold RestoreState. evolve. Qed.

Lemma Create_invariant K w id name parent :
  wf w → counters_ok w → live_parent w parent →
  wf (Create K w id name parent).2 ∧ counters_ok (Create K w id name parent).2.
Proof.
  intros Hwf Hcnt Hlive. unfold Create.
  destruct (alloc_invariant w (NewContainer id name parent)
              (EpollSources w) (LoopBusy w) (Queue w) (Started w))
    as [Hwf1 Hcnt1]; try done.
  set (w1 := mkWorld _ _ _ _ _ _) in *.
  repeat (match goal with |- context [if ?b then _ else _] => destruct b end; [done|]).
  simpl. destruct parent as [p|].
  - destruct (push_child_invariant w1 p (NextRef w) (NewContainer id name (Some p)))
      as [Hwf2 Hcnt2]; try done.
    { unfold w1. simpl. by rewrite lookup_insert_eq. }
    apply (evolves_invariant _ _ (evolves_SetState _ _ _ _)); done.
  - apply (evolves_invariant _ _ (evolves_SetState _ _ _ _)); done.
Qed.

Lemma Restore_invariant K w id name parent props data loadError lost zombie freezed :
  wf w → counters_ok w → live_parent w parent →
  wf (Restore K w id name parent props data loadError lost zombie freezed).2 ∧
  counters_ok (Restore K w id name parent props data loadError lost zombie freezed).2.
Proof.
  intros Hwf Hcnt Hlive. unfold Restore.
  set (c0 := set_Data data (set_Props props (NewContainer id name parent))).
  destruct (alloc_invariant w c0 (EpollSources w) (LoopBusy w) (Queue w) (Started w))
    as [Hwf1 Hcnt1]; try done.
  set (w1 := mkWorld _ _ _ _ _ _) in *.
  repeat (match goal with |- context [if ?b then _ else _] => destruct b end; [done|]).
  pose proof (evolves_RestoreState w1 K w1 (NextRef w) parent props data lost zombie freezed
                (evolves_refl w1)) as Hev.
  destruct (RestoreState K w1 (NextRef w) parent props data lost zombie freezed)
    as [e w2]; simpl in Hev.
  destruct (evolves_invariant w1 w2 Hev Hwf1 Hcnt1) as [Hwf2 Hcnt2].
  destruct (is_error e); [done|]. simpl. destruct parent as [p|]; [|done].
  destruct (evolves_same_shape w1 w2 Hev Hwf1) as [_ Hsh].
  specialize (Hsh (NextRef w)). unfold w1 in Hsh at 1. simpl in Hsh.
  rewrite lookup_insert_eq in Hsh. simpl in Hsh.
  destruct (Containers w2 !! NextRef w) as [c2|] eqn:Hc2; [|done].
  apply (push_child_invariant w2 p (NextRef w) c2); try done.
  simpl in Hsh. unfold shape in Hsh. simpl in Hsh. congruence.
Qed.

Lemma step_invariant w w' :
  step w w' → wf w → counters_ok w → wf w' ∧ counters_ok w'.
Proof.
  intros Hstep Hwf Hcnt.
  destruct Hstep;
    try (eapply evolves_invariant; [|done|done]; solve [eauto with evolve]).
  - by apply Create_invariant.
  - by apply Restore_invariant.
  - by apply (Remove_invariant w this c).
Qed.

Lemma initial_invariant : wf initial ∧ counters_ok initial.
Proof.
  split; [split|]; intros r c; unfold initial; simpl; rewrite lookup_empty; done.
Qed.

Lemma reachable_invariant w : reachable w → wf w ∧ counters_ok w.
Proof.
  induction 1 as [|w w' _ [IH1 IH2] Hstep]; [apply initial_invariant|].
  by apply (step_invariant w w').
Qed.

(** C8. In every world the engine can reach, the RunningChildren counter
    of every container is the number of Running containers in its
    subtree, itself included, as a size_t. *)
Theorem RunningChildren_counts_running_subtree
    (w : TWorld) (r : nat) (c : TContainer) :
  reachable w →
  Containers w !! r = Some c →
  RunningChildren c = wrap64 (Z.of_nat (size (RunningBelow (Containers w) r))).
Proof. intros Hreach Hc. by apply (reachable_invariant w). Qed.

End ReachableInvariant.

Section ReachableWitness.
Import TContainer.

Lemma started_reachable : reachable started.
Proof.
  apply (reachable_step configured); [|apply step_Start].
  apply (reachable_step created); [|apply step_SetProperty].
  apply (reachable_step booted3); [|apply step_Create; vm_compute; eauto].
  apply (reachable_step booted2); [|apply step_Start].
  apply (reachable_step booted1); [|apply step_Start].
  apply (reachable_step booted0); [|apply step_Create; vm_compute; eauto].
  apply (reachable_step initial); [|apply step_Create; exact I].
  apply reachable_initial.
Defined.

Lemma RunningChildren_counts_running_subtree_witness :
  ∃ c, Containers started !! 0 = Some c ∧ State c = Meta ∧
       RunningChildren c = wrap64 (Z.of_nat (size (RunningBelow (Containers started) 0))).
Proof.
  eexists. split; [vm_compute; reflexivity|]. split; [reflexivity|].
  apply (RunningChildren_counts_running_subtree started 0).
  - exact started_reachable.
  - vm_compute. reflexivity.
Defined.

End ReachableWitness.

(** ** Containers: Start *)

Section StartClaims.
Import TContainer.

(** C1 (the code at the failing input). The container is Stopped and holds
    no resources; its root is an image file and no loop device can be
    had.  Start returns the error of GetLoopDev and the container stays
    Stopped, but the leaf cgroups, the traffic class and the OOM event
    source that PrepareResources set up are still there: the call of
    FreeResources in that branch stands after the return. *)
Theorem Start_without_loop_device_keeps_resources :
  let before := Containers imageWorld !! 2 in
  let r := Start noLoopEnv imageWorld 2 false in
  let after := Containers r.2 !! 2 in
  (State <$> before = Some Stopped ∧ LeafCgroups <$> before = Some [] ∧
   Tclass <$> before = Some None ∧ Source <$> before = Some None ∧
   EpollSources imageWorld = []) ∧
  r.1 = mkError Unknown 16 ∧
  State <$> after = Some Stopped ∧
  LeafCgroups <$> after =
    Some [cpuSubsystem; cpuacctSubsystem; memorySubsystem; freezerSubsystem;
          blkioSubsystem; netclsSubsystem; devicesSubsystem] ∧
  Tclass <$> after = Some (Some (mkTclass 1 2)) ∧
  Source <$> after = Some (Some 7%Z) ∧
  EpollSources r.2 = [7%Z].
Proof. vm_compute. repeat split; reflexivity. Qed.

End StartClaims.

(** ** Containers: exit events *)

Section ExitClaims.
Import TContainer.

Implicit Types (h : gmap nat TContainer) (c : TContainer).

Lemma SetState_State_self w this s tree :
  wf w → is_Some (Containers w !! this) →
  State <$> Containers (SetState w this s tree) !! this = Some s.
Proof.
  intros Hwf [c0 Hc0]. pose proof (wf_hwf_parent w Hwf) as Hp.
  unfold SetState. cbn [Containers set_Containers].
  rewrite SetState_fuel_unfold, Hc0.
  set (h1 := if tree then _ else _).
  assert (∀ x, shape <$> h1 !! x = shape <$> Containers w !! x) as Hsh.
  { unfold h1. destruct tree; [|done].
    generalize (Children c0). intros l. generalize Hp. generalize (Containers w).
    induction l as [|k l IH]; intros h Hh x; simpl; [done|].
    rewrite IH.
    - by apply SetState_fuel_invariant.
    - apply (hwf_parent_shape h); [|done]. intros y. by apply SetState_fuel_invariant. }
  rewrite SetOwnState_State.
  - by rewrite decide_True.
  - by apply (hwf_parent_shape (Containers w)).
  - specialize (Hsh this). rewrite Hc0 in Hsh. destruct (h1 !! this); [eauto|done].
Qed.

Lemma same_core_State w w' r :
  same_core w w' → State <$> Containers w' !! r = State <$> Containers w !! r.
Proof.
  intros [_ Hc]. specialize (Hc r).
  destruct (Containers w !! r), (Containers w' !! r); simpl in *; unfold core in *;
    congruence.
Qed.

Lemma same_core_Prop_Set K this name f w : same_core w (Prop_Set K this name f w).2.
Proof.
  unfold Prop_Set. case_match; simpl; [apply same_core_refl|]. by apply same_core_upd.
Qed.

(** An exit that is not skipped leaves the container Dead. *)
Lemma Exit_sets_Dead K w this c status oomKilled force :
  wf w → Containers w !! this = Some c →
  negb force && negb oomKilled
    && negb (bool_decide (Processes K this = [])) && Get_ISOLATE c = false →
  State <$> Containers (Exit K w this status oomKilled force).2 !! this = Some Dead.
Proof.
  intros Hwf Hc Hguard. unfold Exit. cbn [Exit_fuel]. rewrite Hc, Hguard.
  match goal with
  | |- context [SetState ?W this Dead false] => set (wa := W)
  end.
  assert (evolves w wa) as Hev.
  { unfold wa. apply evolves_upd; [intros; reflexivity|].
    apply evolves_fold_left.
    - intros w' child Hw'. destruct (Containers w' !! child); [|done].
      case_match; [|done]. apply evolves_Exit_fuel. by apply evolves_KillAll.
    - evolve. }
  assert (wf wa) as Hwfa.
  { apply (wf_same_shape w); [done|]. by apply evolves_same_shape. }
  assert (is_Some (Containers wa !! this)) as Hlive.
  { destruct (evolves_same_shape w wa Hev Hwf) as [_ Hsh]. specialize (Hsh this).
    rewrite Hc in Hsh. destruct (Containers wa !! this); [eauto|done]. }
  pose proof (SetState_State_self wa this Dead false Hwfa Hlive) as Hdead.
  cbn [snd].
  match goal with
  | |- context [MayRespawn ?X this] => set (wb := X)
  end.
  assert (State <$> Containers wb !! this = Some Dead) as Hb.
  { unfold wb. by rewrite (same_core_State _ _ _ (same_core_Prop_Set _ _ _ _ _)). }
  by destruct (MayRespawn wb this).
Qed.

(** Exit returns on a container that has a task and no children. *)
Lemma Exit_returns_without_children K w this c status oomKilled force :
  Containers w !! this = Some c → is_Some (Task c) → Children c = [] →
  Exit_returns K w this status oomKilled force = true.
Proof.
  intros Hc [t Ht] Hch. unfold Exit_returns. cbn [Exit_returns_fuel].
  rewrite Hc, Ht, Hch. simpl. by case_match.
Qed.




End ExitClaims.

(** ** Containers: Pause *)

Section PauseClaims.
Import TContainer.

Implicit Types (h : gmap nat TContainer) (c : TContainer).

Lemma hwf_children_shape h h' :
  (∀ x, shape <$> h' !! x = shape <$> h !! x) → hwf_children h → hwf_children h'.
Proof.
  intros Hsh Hwf r c k ck Hr Hk Hck.
  pose proof (Hsh r) as H1. rewrite Hr in H1.
  pose proof (Hsh k) as H2. rewrite Hck in H2.
  destruct (h !! r) as [c0|] eqn:Hr0; [|done].
  destruct (h !! k) as [ck0|] eqn:Hk0; [|done].
  simpl in *. unfold shape in *.
  assert (Parent ck = Parent ck0) as -> by congruence.
  apply (Hwf r c0 k ck0); [done| |done]. congruence.
Qed.

Lemma descendant_shape h h' r d :
  (∀ x, shape <$> h' !! x = shape <$> h !! x) → descendant h r d → descendant h' r d.
Proof.
  intros Hsh. induction 1 as [|d c k _ IH Hd Hk]; [constructor|].
  pose proof (Hsh d) as H1. rewrite Hd in H1.
  destruct (h' !! d) as [c'|] eqn:Hd'; [|done].
  apply (descendant_child h' r d c'); [done|done|].
  simpl in H1. unfold shape in H1. congruence.
Qed.

Lemma descendant_first h r d c0 :
  h !! r = Some c0 → descendant h r d →
  d = r ∨ ∃ k, k ∈ Children c0 ∧ descendant h k d.
Proof.
  intros Hr. induction 1 as [|d c k Hdesc IH Hd Hk]; [by left|]. right.
  destruct IH as [->|(k0 & Hk0 & Hdk)].
  - exists k. split; [congruence|constructor].
  - exists k0. split; [done|]. by apply (descendant_child h k0 d c).
Qed.

Lemma descendant_dead_root h r d : h !! r = None → descendant h r d → d = r.
Proof.
  intros Hr. induction 1 as [|d c k _ IH Hd Hk]; [done|]. subst. congruence.
Qed.

Lemma descendant_ge h r d :
  hwf_parent h → hwf_children h → descendant h r d → is_Some (h !! d) → r ≤ d.
Proof.
  intros Hp Hc. induction 1 as [|d c k _ IH Hd Hk]; [lia|]. intros [ck Hck].
  pose proof (Hc d c k ck Hd Hk Hck) as Hpar.
  destruct (Hp k ck d Hck Hpar) as [Hlt _]. specialize (IH (ex_intro _ c Hd)). lia.
Qed.

(** SetState leaves alone every field it does not assign. *)
Lemma SetState_fuel_frame {A} (π : TContainer → A) n h this s tree x :
  (∀ s c, π (AssignState s c) = π c) →
  (∀ v c, π (set_RunningChildren v c) = π c) →
  hwf_parent h →
  π <$> SetState_fuel n h this s tree !! x = π <$> h !! x.
Proof.
  intros Ha Hr. revert h this. induction n as [|n IH]; intros h this Hwf; [done|].
  rewrite SetState_fuel_unfold. destruct (h !! this) as [c0|] eqn:Hc0; [|done].
  set (h1 := if tree then _ else _).
  assert ((∀ y, shape <$> h1 !! y = shape <$> h !! y) ∧ π <$> h1 !! x = π <$> h !! x)
    as [Hsh1 Hπ1].
  { unfold h1. destruct tree; [|done].
    generalize (Children c0). intros l. generalize Hwf. generalize h.
    induction l as [|k l IHl]; intros h0 Hh0; simpl; [done|].
    destruct (IHl (SetState_fuel n h0 k s true)) as [H1 H2].
    { apply (hwf_parent_shape h0); [|done]. intros y. by apply SetState_fuel_invariant. }
    split.
    - intros y. rewrite H1. by apply SetState_fuel_invariant.
    - rewrite H2. by apply IH. }
  assert (hwf_parent h1) as Hwf1 by by apply (hwf_parent_shape h).
  rewrite <- Hπ1. destruct (h1 !! this) as [c|] eqn:Hc.
  2:{ unfold SetOwnState. by rewrite Hc. }
  destruct (decide (State c = s)) as [Hs|Hs].
  { unfold SetOwnState. by rewrite Hc, decide_True. }
  rewrite (SetOwnState_lookup h1 this s c) by done.
  destruct (h1 !! x); simpl; [|done].
  destruct (delta s c); repeat case_decide; simpl; rewrite ?Ha, ?Hr; reflexivity.
Qed.

(** A container that has the new state keeps it. *)
Lemma SetState_fuel_keeps n h this s tree d :
  hwf_parent h → State <$> h !! d = Some s →
  State <$> SetState_fuel n h this s tree !! d = Some s.
Proof.
  revert h this. induction n as [|n IH]; intros h this Hwf Hd; [done|].
  rewrite SetState_fuel_unfold. destruct (h !! this) as [c0|] eqn:Hc0; [|done].
  set (h1 := if tree then _ else _).
  assert ((∀ y, shape <$> h1 !! y = shape <$> h !! y) ∧ State <$> h1 !! d = Some s)
    as [Hsh1 Hd1].
  { unfold h1. destruct tree; [|done].
    generalize (Children c0). intros l. generalize Hd. generalize Hwf. generalize h.
    induction l as [|k l IHl]; intros h0 Hh0 Hd0; simpl; [done|].
    destruct (IHl (SetState_fuel n h0 k s true)) as [H1 H2].
    { apply (hwf_parent_shape h0); [|done]. intros y. by apply SetState_fuel_invariant. }
    { by apply IH. }
    split; [|done]. intros y. rewrite H1. by apply SetState_fuel_invariant. }
  assert (hwf_parent h1) as Hwf1 by by apply (hwf_parent_shape h).
  destruct (h1 !! this) as [c|] eqn:Hc.
  2:{ unfold SetOwnState. by rewrite Hc. }
  rewrite SetOwnState_State by eauto. by case_decide.
Qed.

(** With enough fuel, SetState with [tree] reaches the whole subtree. *)
Lemma SetState_fuel_tree n h this s B d :
  hwf_parent h → hwf_children h →
  (∀ r, is_Some (h !! r) → r < B) → B ≤ this + n →
  descendant h this d → is_Some (h !! d) →
  State <$> SetState_fuel n h this s true !! d = Some s.
Proof.
  revert h this. induction n as [|n IH]; intros h this Hp Hc Hb Hn Hdesc Hlive.
  { pose proof (descendant_ge h this d Hp Hc Hdesc Hlive).
    pose proof (Hb d Hlive). lia. }
  rewrite SetState_fuel_unfold. destruct (h !! this) as [c0|] eqn:Hc0.
  2:{ apply (descendant_dead_root h this d Hc0) in Hdesc. subst.
      destruct Hlive. congruence. }
  set (f := λ h child, SetState_fuel n h child s true).
  assert (∀ l h0,
            (∀ y, shape <$> h0 !! y = shape <$> h !! y) →
            (∀ k, k ∈ l → k ∈ Children c0) →
            (∀ y, shape <$> fold_left f l h0 !! y = shape <$> h !! y) ∧
            (State <$> h0 !! d = Some s ∨ (∃ k, k ∈ l ∧ descendant h k d) →
             State <$> fold_left f l h0 !! d = Some s)) as Hfold.
  { induction l as [|k l IHl]; intros h0 Hsh0 Hsub; simpl.
    { split; [done|]. intros [?|(k & Hk & _)]; [done|]. by apply elem_of_nil in Hk. }
    assert (hwf_parent h0) as Hp0 by by apply (hwf_parent_shape h).
    assert (hwf_children h0) as Hc0' by by apply (hwf_children_shape h).
    assert (∀ y, shape <$> f h0 k !! y = shape <$> h !! y) as Hsh1.
    { intros y. rewrite <- Hsh0. by apply SetState_fuel_invariant. }
    destruct (IHl (f h0 k) Hsh1) as [H1 H2].
    { intros k' Hk'. apply Hsub. by apply list_elem_of_further. }
    split; [done|]. intros Hcase. apply H2.
    destruct Hcase as [Hs|(k' & Hk' & Hdk)].
    { left. by apply SetState_fuel_keeps. }
    apply elem_of_cons in Hk' as [->|Hk']; [|right; eauto]. left.
    assert (is_Some (h !! k)) as [ck Hck].
    { destruct (h !! k) eqn:Hk0; [eauto|].
      apply (descendant_dead_root h k d Hk0) in Hdk. subst. destruct Hlive. congruence. }
    assert (this < k) as Hlt.
    { assert (Parent ck = Some this) as Hpar.
      { apply (Hc this c0 k ck); [done| |done]. apply Hsub. apply list_elem_of_here. }
      by destruct (Hp k ck this Hck Hpar). }
    apply (IH h0 k); try done.
    - intros r [cr Hr]. apply Hb. specialize (Hsh0 r). rewrite Hr in Hsh0.
      destruct (h !! r); [eauto|done].
    - lia.
    - by apply (descendant_shape h).
    - destruct Hlive as [cd Hcd]. specialize (Hsh0 d). rewrite Hcd in Hsh0.
      destruct (h0 !! d); [eauto|done]. }
  destruct (Hfold (Children c0) h) as [Hsh1 Hst1]; [done|done|].
  assert (hwf_parent (fold_left f (Children c0) h)) as Hp1 by by apply (hwf_parent_shape h).
  assert (is_Some (fold_left f (Children c0) h !! this)) as Hthis.
  { specialize (Hsh1 this). rewrite Hc0 in Hsh1.
    destruct (fold_left f (Children c0) h !! this); [eauto|done]. }
  rewrite SetOwnState_State by done. case_decide; [done|].
  apply Hst1. right.
  destruct (descendant_first h this d c0 Hc0 Hdesc) as [->|?]; [done|done].
Qed.

End PauseClaims.

Section PauseTheorem.
Import TContainer.

Lemma wf_hwf_children w : wf w → hwf_children (Containers w).
Proof. intros [_ _ H _]. exact H. Qed.

(** C6 (as the code has it). Pause is accepted in state Running only: in
    any other state, Meta included, it fails with InvalidState and changes
    nothing.  On a Running container that SyncStateWithCgroup leaves
    alone, a failed freeze is returned with nothing changed, and a
    successful one leaves the freezer cgroup frozen and the container and
    every container of its subtree Paused. *)
Theorem Pause_only_from_Running (K : TEnv) (w : TWorld) (this : nat) (c : TContainer) :
  wf w →
  Containers w !! this = Some c →
  (State c ≠ Running → Pause K w this = (TError_of InvalidState, w)) ∧
  (State c = Running →
   LostAndRestored c
     && (bool_decide (Task c = None) || bool_decide (Processes K this = [])) = false →
   (is_error (Freeze K this) = true → Pause K w this = (Freeze K this, w)) ∧
   (is_error (Freeze K this) = false →
    (Pause K w this).1 = TError_Success ∧
    Frozen <$> Containers (Pause K w this).2 !! this = Some true ∧
    ∀ d, descendant (Containers w) this d → is_Some (Containers w !! d) →
         State <$> Containers (Pause K w this).2 !! d = Some Paused)).
Proof.
  intros Hwf Hc. split.
  - intros Hs. unfold Pause.
    rewrite (SyncStateWithCgroup_not_Running K w this c) by done.
    by rewrite Hc, decide_True.
  - intros Hs Hsync.
    assert (SyncStateWithCgroup K w this = w) as Hsame.
    { unfold SyncStateWithCgroup. rewrite Hc.
      destruct (LostAndRestored c); simpl in *; [|done].
      rewrite Hsync, andb_false_r. done. }
    unfold Pause. rewrite Hsame, Hc, decide_False by (intros H; by apply H).
    split; intros Hfreeze; rewrite Hfreeze; [done|].
    unfold DoFreeze. rewrite Hfreeze. cbn [fst snd].
    set (w1 := upd this (set_Frozen true) w).
    assert (same_core w w1) as Hcore by (apply same_core_upd; intros; reflexivity).
    assert (wf w1) as Hwf1 by (apply (wf_same_shape w); [done|by apply same_core_shape]).
    pose proof (same_core_shape _ _ Hcore) as [_ Hsh].
    split; [done|]. split.
    + unfold SetState. cbn [Containers set_Containers].
      rewrite (SetState_fuel_frame Frozen) by (done || by apply wf_hwf_parent).
      unfold w1. rewrite lookup_upd, decide_True by done. by rewrite Hc.
    + intros d Hdesc [cd Hcd]. unfold SetState. cbn [Containers set_Containers].
      apply (SetState_fuel_tree _ _ _ _ (NextRef w1)).
      * by apply wf_hwf_parent.
      * by apply wf_hwf_children.
      * intros r [cr Hr]. by apply (wf_bound w1 Hwf1 r cr).
      * lia.
      * apply (descendant_shape (Containers w)); [|done]. intros x. by rewrite Hsh.
      * specialize (Hsh d). rewrite Hcd in Hsh.
        destruct (Containers w1 !! d); [eauto|done].
Qed.

Lemma Pause_only_from_Running_witness :
  (Pause calmEnv started 1 = (TError_of InvalidState, started)) ∧
  State <$> Containers (Pause calmEnv started 2).2 !! 2 = Some Paused.
Proof.
  assert (wf started) as Hwf by apply (reachable_invariant _ started_reachable).
  assert (∃ c, Containers started !! 1 = Some c ∧ State c = Meta)
    as (c1 & Hc1 & Hs1) by (eexists; split; vm_compute; reflexivity).
  assert (∃ c, Containers started !! 2 = Some c ∧ State c = Running ∧
               LostAndRestored c = false)
    as (c2 & Hc2 & Hs2 & Hl2)
    by (eexists; split; [vm_compute; reflexivity|split; reflexivity]).
  split.
  - apply (Pause_only_from_Running calmEnv started 1 c1 Hwf Hc1). congruence.
  - destruct (Pause_only_from_Running calmEnv started 2 c2 Hwf Hc2) as [_ H].
    destruct (H Hs2) as [_ H']; [by rewrite Hl2|].
    destruct H' as (_ & _ & Hsub); [reflexivity|].
    apply Hsub; [constructor|eauto].
Defined.

(** C6 fails as stated: Pause on a Meta container is rejected, and the
    container stays Meta. *)
Lemma Pause_of_Meta_counterexample :
  let w := sampleWorld Meta Running 1 in
  let r := Pause calmEnv w 2 in
  State <$> Containers w !! 2 = Some Meta ∧
  r.1 = TError_of InvalidState ∧
  State <$> Containers r.2 !! 2 = Some Meta.
Proof. vm_compute. repeat split; reflexivity. Qed.

End PauseTheorem.

(** ** Containers: hierarchical properties *)

Section HierarchyFacts.
Import TContainer.

Implicit Types (h : gmap nat TContainer) (c : TContainer).

Lemma fold_left_rel {A B C} (R : A → B → Prop) (f : A → C → A) (g : B → C → B)
    (l : list C) a b :
  R a b → (∀ a b x, x ∈ l → R a b → R (f a x) (g b x)) →
  R (fold_left f l a) (fold_left g l b).
Proof.
  revert a b. induction l as [|x l IH]; intros a b Hab Hstep; simpl; [done|].
  apply IH.
  - apply Hstep; [apply list_elem_of_here|done].
  - intros a' b' y Hy. apply Hstep. by apply list_elem_of_further.
Qed.

Lemma FindAncestor_fuel_spec n h po (P : TContainer → bool) :
  hwf_parent h → (∀ p, po = Some p → p < n) →
  FindAncestor_fuel n h po P ≠ None ↔
  ∃ a ca, a ∈ match po with Some p => chain h p | None => [] end
          ∧ h !! a = Some ca ∧ P ca = true.
Proof.
  intros Hwf. revert po. induction n as [|n IH]; intros po Hpo.
  - destruct po as [p|]; [specialize (Hpo p eq_refl); lia|]. simpl.
    split; [done|]. intros (a & ca & Ha & _). by apply elem_of_nil in Ha.
  - destruct po as [p|]; simpl.
    2:{ split; [done|]. intros (a & ca & Ha & _). by apply elem_of_nil in Ha. }
    unfold chain. simpl. destruct (h !! p) as [c|] eqn:Hc.
    2:{ split; [done|]. intros (a & ca & Ha & _). by apply elem_of_nil in Ha. }
    destruct (P c) eqn:HP.
    { split; [|done]. intros _. exists p, c. split; [apply list_elem_of_here|done]. }
    assert (∀ q, Parent c = Some q → q < n) as Hq.
    { intros q Hpar. destruct (Hwf p c q Hc Hpar) as [Hlt _].
      specialize (Hpo p eq_refl). lia. }
    rewrite (IH (Parent c) Hq).
    destruct (Parent c) as [q|] eqn:Hpar.
    + destruct (Hwf p c q Hc Hpar) as [Hlt _].
      unfold chain. rewrite (chain_fuel_stable (S q) p h q) by (done || lia).
      split; intros (a & ca & Ha & Hca & HPa); exists a, ca.
      * split; [by apply list_elem_of_further|done].
      * split; [|done]. apply elem_of_cons in Ha as [->|Ha]; [|done]. congruence.
    + split; intros (a & ca & Ha & Hca & HPa).
      * by apply elem_of_nil in Ha.
      * apply elem_of_cons in Ha as [->|Ha]; [congruence|by apply elem_of_nil in Ha].
Qed.

Lemma FindAncestor_spec h this c (P : TContainer → bool) :
  hwf_parent h → h !! this = Some c →
  FindAncestor h this P ≠ None ↔
  ∃ a ca, a ∈ ancestors h this ∧ h !! a = Some ca ∧ P ca = true.
Proof.
  intros Hwf Hc. unfold FindAncestor, ancestors. rewrite Hc. simpl.
  apply FindAncestor_fuel_spec; [done|]. intros p Hp. by destruct (Hwf this c p Hc Hp).
Qed.

Lemma wrap64_small z : (0 ≤ z < 2 ^ 64)%Z → wrap64 z = z.
Proof. intros. unfold wrap64. by apply Z.mod_small. Qed.

Lemma ChildrenSumZ_fuel_nonneg n h this property except exceptVal :
  uint_values h property → (0 ≤ exceptVal)%Z →
  (0 ≤ ChildrenSumZ_fuel n h this property except exceptVal)%Z.
Proof.
  intros Hu Hv. revert this. induction n as [|n IH]; intros this; simpl; [lia|].
  destruct (h !! this) as [c|]; [|lia].
  apply (fold_left_rel (λ a (_ : unit), 0 ≤ a)%Z _ (λ b _, b) (Children c) 0%Z tt); [lia|].
  intros a _ k _ Ha. destruct (h !! k) as [ck|] eqn:Hk; [|done].
  pose proof (Hu k ck Hk). pose proof (IH k). repeat case_match; lia.
Qed.

(** The accumulator of the loop only grows. *)
Lemma ChildrenSumZ_step_mono n h property except exceptVal (l : list nat) acc :
  uint_values h property → (0 ≤ exceptVal)%Z →
  (acc ≤ fold_left
           (λ val child,
              match h !! child with
              | None => val
              | Some cc =>
                  if bool_decide (except = Some child) then (val + exceptVal)%Z
                  else if decide (Get_uint cc property ≠ 0%Z)
                       then (val + Get_uint cc property)%Z
                       else (val + ChildrenSumZ_fuel n h child property except exceptVal)%Z
              end) l acc)%Z.
Proof.
  intros Hu Hv. revert acc. induction l as [|k l IH]; intros acc; simpl; [lia|].
  etransitivity; [|apply IH].
  destruct (h !! k) as [ck|] eqn:Hk; [|lia].
  pose proof (Hu k ck Hk).
  pose proof (ChildrenSumZ_fuel_nonneg n h k property except exceptVal Hu Hv).
  repeat case_match; lia.
Qed.

(** When the sum over the integers fits 64 bits, GetChildrenSum is that sum. *)
Lemma GetChildrenSum_fuel_no_wrap n h this property except exceptVal :
  uint_values h property → (0 ≤ exceptVal)%Z →
  (ChildrenSumZ_fuel n h this property except exceptVal < 2 ^ 64)%Z →
  GetChildrenSum_fuel n h this property except exceptVal
  = ChildrenSumZ_fuel n h this property except exceptVal.
Proof.
  intros Hu Hv. revert this. induction n as [|n IH]; intros this; simpl; [done|].
  destruct (h !! this) as [c|]; [|done].
  generalize (Children c). intros l.
  match goal with
  | |- (fold_left ?fz _ _ < _)%Z → fold_left ?fw _ _ = _ =>
      enough (∀ acc, (0 ≤ acc)%Z → (fold_left fz l acc < 2 ^ 64)%Z →
                     fold_left fw l acc = fold_left fz l acc) as Hgen
        by (apply Hgen; lia)
  end.
  induction l as [|k l IHl]; intros acc Hacc Hlt; simpl in *; [done|].
  pose proof (ChildrenSumZ_step_mono n h property except exceptVal l) as Hmono.
  destruct (h !! k) as [ck|] eqn:Hk; [|by apply IHl].
  pose proof (Hu k ck Hk) as Hck.
  pose proof (ChildrenSumZ_fuel_nonneg n h k property except exceptVal Hu Hv) as Hnn.
  destruct (bool_decide (except = Some k)).
  { specialize (Hmono (acc + exceptVal)%Z Hu Hv).
    rewrite wrap64_small by lia. apply IHl; [lia|done]. }
  destruct (decide (Get_uint ck property ≠ 0%Z)).
  { specialize (Hmono (acc + Get_uint ck property)%Z Hu Hv).
    rewrite wrap64_small by lia. apply IHl; [lia|done]. }
  specialize (Hmono (acc + ChildrenSumZ_fuel n h k property except exceptVal)%Z Hu Hv).
  rewrite IH by lia. rewrite wrap64_small by lia. apply IHl; [lia|done].
Qed.

Lemma DirectSum_le_ChildrenSumZ n h this property except exceptVal :
  uint_values h property → (0 ≤ exceptVal)%Z →
  (DirectSum h this property except exceptVal
   ≤ ChildrenSumZ_fuel (S n) h this property except exceptVal)%Z.
Proof.
  intros Hu Hv. unfold DirectSum. simpl. destruct (h !! this) as [c|]; [|lia].
  apply (fold_left_rel (λ a b, a ≤ b)%Z); [lia|].
  intros a b k _ Hab. destruct (h !! k) as [ck|] eqn:Hk; [|done].
  pose proof (ChildrenSumZ_fuel_nonneg n h k property except exceptVal Hu Hv).
  repeat case_match; lia.
Qed.

Lemma DirectSum_not_child h this c property x exceptVal :
  h !! this = Some c → x ∉ Children c →
  DirectSum h this property (Some x) exceptVal = DirectSum h this property None 0.
Proof.
  intros Hc Hx. unfold DirectSum. rewrite Hc.
  apply (fold_left_rel eq); [done|].
  intros a b k Hk ->. destruct (h !! k); [|done].
  rewrite bool_decide_eq_false_2 by (intros [= ->]; done).
  by rewrite bool_decide_eq_false_2.
Qed.

Lemma Get_uint_withUint property value c : Get_uint (withUint property value c) property = value.
Proof. unfold Get_uint, withUint. simpl. by rewrite lookup_insert_eq. Qed.

Lemma DirectSum_Set_uint w this c property value r :
  Containers w !! this = Some c →
  DirectSum (Containers (Set_uint w this property value)) r property None 0
  = DirectSum (Containers w) r property (Some this) value.
Proof.
  intros Hc. unfold DirectSum, Set_uint. rewrite !lookup_upd.
  assert (∀ k, (Containers (upd this (withUint property value) w) !! k)
               = if decide (this = k) then Some (withUint property value c)
                 else Containers w !! k) as Hlook.
  { intros k. rewrite lookup_upd. case_decide; subst; [by rewrite Hc|done]. }
  assert (∀ l a,
            fold_left
              (λ val child,
                 match Containers (upd this (withUint property value) w) !! child with
                 | None => val
                 | Some cc =>
                     if bool_decide (None = Some child) then (val + 0)%Z
                     else (val + Get_uint cc property)%Z
                 end) l a
            = fold_left
                (λ val child,
                   match Containers w !! child with
                   | None => val
                   | Some cc =>
                       if bool_decide (Some this = Some child) then (val + value)%Z
                       else (val + Get_uint cc property)%Z
                   end) l a) as Hfold.
  { intros l a. apply (fold_left_rel eq); [done|].
    intros a0 b k _ ->. rewrite Hlook. case_decide; subst.
    - rewrite Hc, (bool_decide_eq_true_2 (Some k = Some k)) by done.
      rewrite (bool_decide_eq_false_2 (None = Some k)) by done.
      by rewrite Get_uint_withUint.
    - destruct (Containers w !! k); [|done].
      rewrite (bool_decide_eq_false_2 (None = Some k)) by done.
      by rewrite (bool_decide_eq_false_2 (Some this = Some k)) by congruence. }
  case_decide; subst.
  - rewrite Hc. simpl. apply Hfold.
  - destruct (Containers w !! r); [|done]. apply Hfold.
Qed.

End HierarchyFacts.

Section HierarchyClaims.
Import TContainer.

Implicit Types (h : gmap nat TContainer) (c : TContainer).

(** With the fuel GetChildrenSum takes, the descent reaches every level:
    more fuel gives the same sum. *)
Lemma GetChildrenSum_fuel_enough n m h this property except exceptVal B :
  hwf_parent h → hwf_children h → (∀ r, is_Some (h !! r) → r < B) →
  B ≤ this + n → B ≤ this + m →
  GetChildrenSum_fuel n h this property except exceptVal
  = GetChildrenSum_fuel m h this property except exceptVal.
Proof.
  intros Hp Hc Hb. revert m this. induction n as [|n IH]; intros m this Hn Hm.
  - destruct m as [|m]; simpl; [done|].
    destruct (h !! this) eqn:Hthis; [|done].
    specialize (Hb this (ex_intro _ _ Hthis)). lia.
  - destruct m as [|m]; simpl.
    + destruct (h !! this) eqn:Hthis; [|done].
      specialize (Hb this (ex_intro _ _ Hthis)). lia.
    + destruct (h !! this) as [c|] eqn:Hthis; [|done].
      apply (fold_left_rel eq); [done|].
      intros a b k Hk ->. destruct (h !! k) as [ck|] eqn:Hck; [|done].
      repeat case_match; try done. f_equal. f_equal. apply IH.
      * pose proof (Hc this c k ck Hthis Hk Hck) as Hpar.
        destruct (Hp k ck this Hck Hpar). lia.
      * pose proof (Hc this c k ck Hthis Hk Hck) as Hpar.
        destruct (Hp k ck this Hck Hpar). lia.
Qed.

Lemma ancestor_predicate ca property value :
  bool_decide (Get_uint ca property ≠ 0%Z) && bool_decide (Get_uint ca property < value)%Z
    = true
  ↔ Get_uint ca property ≠ 0%Z ∧ (Get_uint ca property < value)%Z.
Proof. rewrite andb_true_iff, !bool_decide_eq_true. done. Qed.

(** The rejection rule of ValidHierarchicalProperty. *)
Lemma ValidHierarchicalProperty_false w this c property value :
  wf w → Containers w !! this = Some c → (0 ≤ value)%Z →
  ValidHierarchicalProperty w this property value = false ↔
    (GetChildrenSum w this property None 0 ≠ 0%Z
     ∧ value < GetChildrenSum w this property None 0)%Z
    ∨ (∃ a ca, a ∈ ancestors (Containers w) this ∧ Containers w !! a = Some ca ∧
               Get_uint ca property ≠ 0%Z ∧ (Get_uint ca property < value)%Z)
    ∨ (∃ p cp, Parent c = Some p ∧ Containers w !! p = Some cp ∧
               Get_uint cp property ≠ 0%Z ∧
               (Get_uint cp property < GetChildrenSum w p property (Some this) value)%Z).
Proof.
  intros Hwf Hc Hv. unfold ValidHierarchicalProperty.
  pose proof (FindAncestor_spec (Containers w) this c
                (λ c, bool_decide (Get_uint c property ≠ 0%Z)
                      && bool_decide (Get_uint c property < value)%Z)
                (wf_hwf_parent w Hwf) Hc) as Hanc.
  rewrite Hc. simpl.
  destruct (bool_decide (GetChildrenSum w this property None 0 ≠ 0%Z)
            && bool_decide (value < GetChildrenSum w this property None 0)%Z) eqn:H1.
  { split; [|done]. intros _. left.
    apply andb_true_iff in H1 as [Ha Hb].
    apply bool_decide_eq_true in Ha. apply bool_decide_eq_true in Hb. done. }
  assert (¬ (GetChildrenSum w this property None 0 ≠ 0%Z
             ∧ value < GetChildrenSum w this property None 0)%Z) as Hn1.
  { intros [Ha Hb]. apply andb_false_iff in H1 as [H1|H1];
      apply bool_decide_eq_false in H1; done. }
  match goal with |- context [bool_decide (?X ≠ None)] => destruct (bool_decide (X ≠ None)) eqn:H2 end.
  { split; [|done]. intros _. right. left.
    apply bool_decide_eq_true in H2. apply Hanc in H2 as (a & ca & Ha & Hca & HP).
    apply ancestor_predicate in HP. eauto. }
  assert (¬ ∃ a ca, a ∈ ancestors (Containers w) this ∧ Containers w !! a = Some ca ∧
                    Get_uint ca property ≠ 0%Z ∧ (Get_uint ca property < value)%Z) as Hn2.
  { intros (a & ca & Ha & Hca & HP). apply bool_decide_eq_false in H2. apply H2.
    apply Hanc. exists a, ca. split; [done|]. split; [done|].
    by apply ancestor_predicate. }
  destruct (Parent c) as [p|] eqn:Hpar.
  2:{ split; [done|]. intros [?|[?|(p & cp & ? & _)]]; done. }
  destruct (Containers w !! p) as [cp|] eqn:Hcp; simpl.
  2:{ split; [done|]. intros [?|[?|(p' & cp' & [= <-] & Hcp' & _)]]; try done. congruence. }
  destruct (bool_decide (Get_uint cp property ≠ 0%Z)
            && bool_decide (Get_uint cp property
                            < GetChildrenSum w p property (Some this) value)%Z) eqn:H3.
  - split; [|done]. intros _. right. right. exists p, cp.
    apply andb_true_iff in H3 as [Ha Hb].
    apply bool_decide_eq_true in Ha. apply bool_decide_eq_true in Hb. done.
  - split; [done|]. intros [?|[?|(p' & cp' & [= <-] & Hcp' & Ha & Hb)]]; try done.
    assert (cp' = cp) as -> by congruence.
    apply andb_false_iff in H3 as [H3|H3]; apply bool_decide_eq_false in H3; done.
Qed.

End HierarchyClaims.

Section HierarchyTheorem.
Import TContainer.

Implicit Types (h : gmap nat TContainer) (c : TContainer).

Lemma Set_uint_lookup w this property value r :
  Containers (Set_uint w this property value) !! r =
    if decide (this = r) then withUint property value <$> Containers w !! r
    else Containers w !! r.
Proof. unfold Set_uint. by rewrite lookup_upd. Qed.

(** An accepted set keeps parent(P) >= sum of children(P) wherever
    parent(P) > 0, as long as the sums GetChildrenSum computes fit 64
    bits. *)
Lemma accepted_set_keeps_hierarchy w this c property value :
  wf w → Containers w !! this = Some c → (0 ≤ value)%Z →
  ValidHierarchicalProperty w this property value = true →
  uint_values (Containers w) property →
  (ChildrenSumZ w this property None 0 < 2 ^ 64)%Z →
  (∀ p, Parent c = Some p → ChildrenSumZ w p property (Some this) value < 2 ^ 64)%Z →
  hierarchy_ok (Containers w) property →
  hierarchy_ok (Containers (Set_uint w this property value)) property.
Proof.
  intros Hwf Hc Hv Hvalid Hu Hfit1 Hfit2 Hok r c' Hr Hpos.
  pose proof (ValidHierarchicalProperty_false w this c property value Hwf Hc Hv) as Hrule.
  assert (¬ ((GetChildrenSum w this property None 0 ≠ 0%Z
              ∧ value < GetChildrenSum w this property None 0)%Z
             ∨ (∃ a ca, a ∈ ancestors (Containers w) this ∧ Containers w !! a = Some ca ∧
                        Get_uint ca property ≠ 0%Z ∧ (Get_uint ca property < value)%Z)
             ∨ (∃ p cp, Parent c = Some p ∧ Containers w !! p = Some cp ∧
                        Get_uint cp property ≠ 0%Z ∧
                        (Get_uint cp property
                         < GetChildrenSum w p property (Some this) value)%Z))) as Hacc.
  { intros H. apply Hrule in H. congruence. }
  clear Hrule.
  rewrite (DirectSum_Set_uint w this c) by done.
  rewrite Set_uint_lookup in Hr.
  assert (this ∉ Children c) as Hself.
  { intros Hin. pose proof (wf_children w Hwf this c this c Hc Hin Hc) as Hpar.
    destruct (wf_parent w Hwf this c this Hc Hpar). lia. }
  destruct (decide (this = r)) as [<-|Hne].
  - rewrite Hc in Hr. injection Hr as <-. rewrite Get_uint_withUint in *.
    rewrite (DirectSum_not_child _ this c) by done.
    pose proof (DirectSum_le_ChildrenSumZ (NextRef w - this) (Containers w) this property
                  None 0 Hu (Z.le_refl 0)) as Hle.
    fold (ChildrenSumZ w this property None 0) in Hle.
    assert (GetChildrenSum w this property None 0 = ChildrenSumZ w this property None 0)
      as Heq.
    { apply GetChildrenSum_fuel_no_wrap; [done|lia|done]. }
    destruct (decide (GetChildrenSum w this property None 0 = 0%Z)) as [H0|H0]; [lia|].
    destruct (decide (value < GetChildrenSum w this property None 0)%Z) as [Hlt|Hge]; [|lia].
    exfalso. apply Hacc. by left.
  - destruct (decide (Parent c = Some r)) as [Hpar|Hpar].
    + pose proof (DirectSum_le_ChildrenSumZ (NextRef w - r) (Containers w) r property
                    (Some this) value Hu Hv) as Hle.
      fold (ChildrenSumZ w r property (Some this) value) in Hle.
      assert (GetChildrenSum w r property (Some this) value
              = ChildrenSumZ w r property (Some this) value) as Heq.
      { apply GetChildrenSum_fuel_no_wrap; [done|done|]. by apply Hfit2. }
      destruct (decide (Get_uint c' property
                        < GetChildrenSum w r property (Some this) value)%Z) as [Hlt|Hge];
        [|lia].
      exfalso. apply Hacc. right. right. exists r, c'. repeat split; [done|done|lia|done].
    + assert (this ∉ Children c') as Hnot.
      { intros Hin. apply Hpar. by apply (wf_children w Hwf r c' this c). }
      rewrite (DirectSum_not_child _ r c') by done. by apply Hok.
Qed.

(** C4 (as the code has it). With GetChildrenSum the sum in which a child
    with a value counts with it and a child without one counts with the
    sum of its own children, a value is rejected exactly when that sum
    over this container exceeds it, or an ancestor with a non-zero value
    has less, or the parent has a non-zero value below its own such sum
    with this container counted as the new value; the memory limit is
    refused with InvalidValue in exactly those cases.  An accepted set
    keeps parent(P) >= sum of children(P) wherever parent(P) > 0, provided
    the sums fit 64 bits. *)
Theorem hierarchical_value_is_checked
    (w : TWorld) (this : nat) (c : TContainer) (property : string) (value : Z) :
  wf w →
  Containers w !! this = Some c →
  (0 ≤ value)%Z →
  (ValidHierarchicalProperty w this property value = false ↔
     (value < GetChildrenSum w this property None 0)%Z
     ∨ (∃ a ca, a ∈ ancestors (Containers w) this ∧ Containers w !! a = Some ca ∧
                Get_uint ca property ≠ 0%Z ∧ (Get_uint ca property < value)%Z)
     ∨ (∃ p cp, Parent c = Some p ∧ Containers w !! p = Some cp ∧
                Get_uint cp property ≠ 0%Z ∧
                (Get_uint cp property < GetChildrenSum w p property (Some this) value)%Z)) ∧
  (TMemoryLimitProperty_CheckValue w this value = TError_of InvalidValue ↔
     ValidHierarchicalProperty w this P_MEM_LIMIT value = false) ∧
  (∀ n, NextRef w ≤ this + n →
     GetChildrenSum_fuel n (Containers w) this property None 0
     = GetChildrenSum w this property None 0) ∧
  (ValidHierarchicalProperty w this property value = true →
   uint_values (Containers w) property →
   (ChildrenSumZ w this property None 0 < 2 ^ 64)%Z →
   (∀ p, Parent c = Some p → ChildrenSumZ w p property (Some this) value < 2 ^ 64)%Z →
   hierarchy_ok (Containers w) property →
   hierarchy_ok (Containers (Set_uint w this property value)) property).
Proof.
  intros Hwf Hc Hv. split; [|split; [|split]].
  - rewrite (ValidHierarchicalProperty_false w this c) by done.
    split; (intros [H|H]; [left|right; exact H]); [by destruct H|].
    split; [lia|done].
  - unfold TMemoryLimitProperty_CheckValue.
    destruct (ValidHierarchicalProperty w this P_MEM_LIMIT value); simpl; split; done.
  - intros n Hn. unfold GetChildrenSum.
    apply (GetChildrenSum_fuel_enough _ _ _ _ _ _ _ (NextRef w)).
    + by apply wf_hwf_parent.
    + by apply wf_hwf_children.
    + intros r [cr Hr]. by apply (wf_bound w Hwf r cr).
    + done.
    + lia.
  - by apply accepted_set_keeps_hierarchy.
Qed.

End HierarchyTheorem.

Section HierarchyWitness.
Import TContainer.

Lemma wf_check_sound w : wf_check w = true → wf w.
Proof.
  unfold wf_check. rewrite forallb_forall. intros Hall.
  assert (∀ r c, Containers w !! r = Some c →
            r < NextRef w
            ∧ (∀ p, Parent c = Some p → p < r ∧ is_Some (Containers w !! p))
            ∧ (∀ k, k ∈ Children c →
                 k < NextRef w ∧ ∀ ck, Containers w !! k = Some ck → Parent ck = Some r))
    as H.
  { intros r c Hr. specialize (Hall (r, c)). simpl in Hall.
    apply andb_true_iff in Hall as [Hall H3].
    2:{ apply list_elem_of_In. by apply elem_of_map_to_list. }
    apply andb_true_iff in Hall as [H1 H2].
    apply bool_decide_eq_true in H1. split; [done|]. split.
    - intros p Hp. rewrite Hp in H2. apply andb_true_iff in H2 as [Ha Hb].
      apply bool_decide_eq_true in Ha. apply bool_decide_eq_true in Hb. done.
    - intros k Hk. rewrite forallb_forall in H3. apply list_elem_of_In in Hk.
      specialize (H3 k Hk). apply andb_true_iff in H3 as [Ha Hb].
      apply bool_decide_eq_true in Ha. split; [done|]. intros ck Hck.
      rewrite Hck in Hb. by apply bool_decide_eq_true in Hb. }
  split.
  - intros r c Hr. by destruct (H r c Hr) as (H1 & _ & _).
  - intros r c p Hr Hp. destruct (H r c Hr) as (_ & H2 & _). by apply H2.
  - intros r c k ck Hr Hk Hck. destruct (H r c Hr) as (_ & _ & H3).
    destruct (H3 k Hk) as [_ H4]. by apply H4.
  - intros r c k Hr Hk. destruct (H r c Hr) as (_ & _ & H3).
    by destruct (H3 k Hk) as [H4 _].
Qed.

Lemma hierarchical_value_is_checked_witness :
  ValidHierarchicalProperty siblingWorld 4 P_MEM_LIMIT 50 = false ∧
  TMemoryLimitProperty_CheckValue siblingWorld 4 50 = TError_of InvalidValue.
Proof.
  assert (∃ c, Containers siblingWorld !! 4 = Some c ∧ Parent c = Some 2)
    as (c & Hc & Hpar) by (eexists; split; [vm_compute; reflexivity|reflexivity]).
  destruct (hierarchical_value_is_checked siblingWorld 4 c P_MEM_LIMIT 50)
    as (Hrule & Hcheck & _).
  - apply wf_check_sound. vm_compute. reflexivity.
  - exact Hc.
  - lia.
  - assert (ValidHierarchicalProperty siblingWorld 4 P_MEM_LIMIT 50 = false) as Hfalse.
    { apply Hrule. right. right.
      eexists 2, _. split; [exact Hpar|]. split; [vm_compute; reflexivity|].
      split; vm_compute; congruence. }
    split; [exact Hfalse|]. by apply Hcheck.
Defined.

(** C4 fails as stated: "a" has no value on its children themselves, no
    ancestor with a value and a parent without one, so the rule of the
    specification accepts a memory limit of 5; the code rejects it,
    because the limit 10 of the grandchild counts for the child. *)
Lemma hierarchical_rule_counterexample :
  SpecRejects nestedWorld 2 P_MEM_LIMIT 5 = false ∧
  ValidHierarchicalProperty nestedWorld 2 P_MEM_LIMIT 5 = false ∧
  TMemoryLimitProperty_CheckValue nestedWorld 2 5 = TError_of InvalidValue.
Proof. vm_compute. repeat split; reflexivity. Qed.

End HierarchyWitness.

(* ================================================================== *)
(** * Further properties of the code *)
(* ================================================================== *)

Section KeyValueMore.
Import TKeyValueStorage.

Implicit Types (node next : TNode) (k v : string) (p : TPair).

Lemma FindFile_PutFile_ne dir name other f :
  other ≠ name → FindFile (PutFile dir name f) other = FindFile dir other.
Proof.
  intros Hne. induction dir as [|[n g] dir IH]; simpl.
  - by rewrite decide_False.
  - destruct (decide (n = name)) as [->|Hn]; simpl.
    + by rewrite !decide_False by done.
    + destruct (decide (n = other)); [done|]. apply IH.
Qed.

Lemma MergeWhile_good (recs : list TNode) (s : TFile) node :
  MergeWhile ((Good <$> recs) ++ s) node = MergeWhile s (fold_left Merge recs node).
Proof.
  revert node. induction recs as [|r recs IH]; intros node; simpl; [done|]. apply IH.
Qed.

Lemma ReplaceFirst_replaced k v node :
  (ReplaceFirst k v node).2 = bool_decide (k ∈ key <$> node).
Proof.
  induction node as [|q rest IH]; csimpl.
  - done.
  - destruct (decide (k = key q)) as [->|Hne]; csimpl.
    + symmetry. apply bool_decide_eq_true_2, list_elem_of_here.
    + destruct (ReplaceFirst k v rest) as [rest' fl]; csimpl in *. rewrite IH.
      apply bool_decide_ext. rewrite elem_of_cons. naive_solver.
Qed.

Lemma MergePair_keys node p :
  key <$> MergePair node p =
    if bool_decide (key p ∈ key <$> node) then key <$> node else (key <$> node) ++ [key p].
Proof.
  unfold MergePair.
  pose proof (ReplaceFirst_keys (key p) (val p) node) as HK.
  pose proof (ReplaceFirst_replaced (key p) (val p) node) as HR.
  destruct (ReplaceFirst (key p) (val p) node) as [node' fl]; simpl in *.
  rewrite <- HR. destruct fl; [done|]. by rewrite fmap_app, HK.
Qed.

Lemma Merge_keys_prefix node next : (key <$> node) `prefix_of` (key <$> Merge node next).
Proof.
  unfold Merge. revert node. induction next as [|p next IH]; intros node; simpl; [done|].
  etrans; [|apply IH]. rewrite MergePair_keys. case_bool_decide; [done|].
  by apply prefix_app_r.
Qed.

Lemma Merge_keys_elem node next k :
  k ∈ key <$> Merge node next ↔ k ∈ key <$> node ∨ k ∈ key <$> next.
Proof.
  unfold Merge. revert node. induction next as [|p next IH]; intros node; simpl.
  - rewrite elem_of_nil. tauto.
  - rewrite IH, MergePair_keys, elem_of_cons.
    case_bool_decide as Hk; [|rewrite elem_of_app, list_elem_of_singleton]; naive_solver.
Qed.

Lemma Merge_length node next : length (Merge node next) ≤ length node + length next.
Proof.
  unfold Merge. revert node. induction next as [|p next IH]; intros node; simpl; [lia|].
  etrans; [apply IH|].
  assert (length (MergePair node p) ≤ S (length node)); [|lia].
  rewrite <- (length_fmap key (MergePair node p)), MergePair_keys.
  case_bool_decide; rewrite ?length_app, !length_fmap; simpl; lia.
Qed.

(** Replacing where the value is already there changes nothing. *)
Lemma MergePair_same node p :
  Lookup (key p) node = Some (val p) → MergePair node p = node.
Proof.
  unfold MergePair. destruct p as [k v]. simpl.
  induction node as [|[k0 v0] rest IH]; simpl; [done|].
  destruct (decide (k = k0)) as [->|Hne]; simpl.
  - by intros [= ->].
  - intros Hl. specialize (IH Hl).
    pose proof (ReplaceFirst_replaced k v rest) as HR.
    rewrite bool_decide_eq_true_2 in HR.
    2:{ apply Lookup_Some_elem in Hl. apply list_elem_of_fmap. by exists (mkPair k v). }
    destruct (ReplaceFirst k v rest) as [rest' fl]; simpl in *. subst fl. by rewrite IH.
Qed.

Lemma ReplaceFirst_twice k v v' node :
  ReplaceFirst k v (ReplaceFirst k v' node).1 = ReplaceFirst k v node.
Proof.
  induction node as [|q rest IH]; simpl; [done|].
  destruct (decide (k = key q)) as [->|Hne]; simpl.
  - by rewrite decide_True.
  - destruct (ReplaceFirst k v' rest) as [r1 f1]; simpl in *.
    rewrite decide_False by done. by rewrite IH.
Qed.

Lemma ReplaceFirst_comm k v k' v' node :
  k ≠ k' →
  (ReplaceFirst k v (ReplaceFirst k' v' node).1).1
    = (ReplaceFirst k' v' (ReplaceFirst k v node).1).1.
Proof.
  intros Hkk. induction node as [|q rest IH]; simpl; [done|].
  destruct (ReplaceFirst k' v' rest) as [r1 f1] eqn:E1.
  destruct (ReplaceFirst k v rest) as [r2 f2] eqn:E2. simpl in IH.
  destruct (decide (k' = key q)) as [->|Hne'], (decide (k = key q)) as [->|Hne];
    simpl; try done.
  - rewrite decide_False, E2 by done. simpl. by rewrite decide_True.
  - rewrite decide_True by done. simpl. by rewrite decide_False, E1.
  - rewrite !decide_False by done.
    destruct (ReplaceFirst k v r1) as [r3 f3], (ReplaceFirst k' v' r2) as [r4 f4];
      simpl in *. by rewrite IH.
Qed.

Lemma ReplaceFirst_app k v (a b : TNode) :
  ReplaceFirst k v (a ++ b) =
    if bool_decide (k ∈ key <$> a) then ((ReplaceFirst k v a).1 ++ b, true)
    else (a ++ (ReplaceFirst k v b).1, (ReplaceFirst k v b).2).
Proof.
  induction a as [|q a IH]; csimpl.
  - by destruct (ReplaceFirst k v b).
  - destruct (decide (k = key q)) as [->|Hne]; csimpl.
    + rewrite bool_decide_eq_true_2; [done|apply list_elem_of_here].
    + rewrite IH. rewrite (bool_decide_ext (k ∈ key q :: (key <$> a)) (k ∈ key <$> a)).
      2:{ rewrite elem_of_cons. naive_solver. }
      case_bool_decide; [|done]. by destruct (ReplaceFirst k v a).
Qed.

Lemma MergePair_unfold node p :
  MergePair node p =
    if bool_decide (key p ∈ key <$> node) then (ReplaceFirst (key p) (val p) node).1
    else node ++ [mkPair (key p) (val p)].
Proof.
  unfold MergePair.
  pose proof (ReplaceFirst_replaced (key p) (val p) node) as HR.
  pose proof (ReplaceFirst_missing (key p) (val p) node) as HM.
  destruct (ReplaceFirst (key p) (val p) node) as [node' fl]; simpl in *.
  rewrite <- HR. destruct fl; [done|]. by destruct HM as [-> _].
Qed.

Lemma MergePair_absorb node p q :
  key q = key p → MergePair (MergePair node p) q = MergePair node q.
Proof.
  intros Hk. rewrite (MergePair_unfold (MergePair node p)), MergePair_keys.
  rewrite (MergePair_unfold node p), (MergePair_unfold node q), Hk.
  destruct (decide (key p ∈ key <$> node)) as [Hin|Hin].
  - rewrite !(bool_decide_eq_true_2 _ Hin). by rewrite ReplaceFirst_twice.
  - rewrite !(bool_decide_eq_false_2 _ Hin). rewrite bool_decide_eq_true_2.
    2:{ rewrite elem_of_app, list_elem_of_singleton. by right. }
    rewrite ReplaceFirst_app, (bool_decide_eq_false_2 _ Hin). simpl.
    by rewrite decide_True.
Qed.

Lemma MergePair_comm node p q :
  key p ∈ key <$> node → key q ≠ key p →
  MergePair (MergePair node p) q = MergePair (MergePair node q) p.
Proof.
  intros Hp Hne.
  rewrite (MergePair_unfold (MergePair node p)), (MergePair_unfold (MergePair node q)).
  rewrite !MergePair_keys, !(bool_decide_eq_true_2 _ Hp).
  rewrite (MergePair_unfold node p), (MergePair_unfold node q).
  rewrite !(bool_decide_eq_true_2 _ Hp).
  destruct (decide (key q ∈ key <$> node)) as [Hq|Hq].
  - rewrite !(bool_decide_eq_true_2 _ Hq), !(bool_decide_eq_true_2 _ Hp).
    apply ReplaceFirst_comm. congruence.
  - rewrite !(bool_decide_eq_false_2 _ Hq). rewrite bool_decide_eq_true_2.
    2:{ rewrite elem_of_app. by left. }
    by rewrite ReplaceFirst_app, (bool_decide_eq_true_2 _ Hp).
Qed.

(** A pair written to a key the node has is overwritten by a later
    record that writes the key again. *)
Lemma Merge_overwrites node p next :
  key p ∈ key <$> node → key p ∈ key <$> next →
  Merge (MergePair node p) next = Merge node next.
Proof.
  unfold Merge. revert node. induction next as [|q next IH]; intros node Hn Hin; csimpl.
  { by apply elem_of_nil in Hin. }
  destruct (decide (key q = key p)) as [Hq|Hq].
  - by rewrite MergePair_absorb.
  - rewrite MergePair_comm by done. apply IH.
    + rewrite MergePair_keys. case_bool_decide; [done|]. rewrite elem_of_app. by left.
    + apply elem_of_cons in Hin as [?|?]; [congruence|done].
Qed.

(** X1. Merging the same record a second time changes nothing: a record
    that is replayed leaves the node as the first merge made it. *)
Theorem Merge_is_idempotent node next : Merge (Merge node next) next = Merge node next.
Proof.
  revert node. induction next as [|p next IH]; intros node; [done|].
  change (Merge node (p :: next)) with (Merge (MergePair node p) next).
  set (m := MergePair node p).
  change (Merge (Merge m next) (p :: next)) with (Merge (MergePair (Merge m next) p) next).
  assert (key p ∈ key <$> m) as Hm.
  { unfold m. rewrite MergePair_keys. case_bool_decide; [done|].
    rewrite elem_of_app, list_elem_of_singleton. by right. }
  destruct (decide (key p ∈ key <$> next)) as [Hin|Hout].
  - rewrite Merge_overwrites; [apply IH| |done]. apply Merge_keys_elem. by left.
  - rewrite MergePair_same; [apply IH|].
    rewrite Lookup_Merge.
    assert (Lookup (key p) (reverse next) = None) as ->.
    { destruct (Lookup (key p) (reverse next)) as [v|] eqn:E; [|done].
      apply Lookup_Some_elem in E. rewrite elem_of_reverse in E. exfalso. apply Hout.
      apply list_elem_of_fmap. by exists (mkPair (key p) v). }
    unfold m. by rewrite Lookup_MergePair, decide_True.
Qed.

Lemma RestoreNodes_all_good st nodes map :
  Forall (λ n, is_error (LoadNode st n).1 = false) nodes →
  RestoreNodes st nodes map =
    (TError_Success, foldl (λ m n, <[n := (LoadNode st n).2]> m) map nodes).
Proof.
  intros Hall. revert map. induction Hall as [|n nodes Hn _ IH]; intros map; simpl; [done|].
  destruct (LoadNode st n) as [e nd]; simpl in *. rewrite Hn. apply IH.
Qed.

Lemma RestoreNodes_success st nodes map :
  is_error (RestoreNodes st nodes map).1 = false →
  Forall (λ n, is_error (LoadNode st n).1 = false) nodes.
Proof.
  revert map. induction nodes as [|n nodes IH]; intros map; simpl; [by constructor|].
  destruct (LoadNode st n) as [e nd] eqn:E; simpl.
  destruct (is_error e) eqn:He; simpl; [by rewrite He|].
  intros H. constructor; [by rewrite E|by eapply IH].
Qed.

Lemma foldl_insert_loaded st nodes (map : gmap string TNode) name :
  foldl (λ m n, <[n := (LoadNode st n).2]> m) map nodes !! name =
    if bool_decide (name ∈ nodes) then Some (LoadNode st name).2 else map !! name.
Proof.
  revert map. induction nodes as [|n nodes IH]; intros map; simpl; [done|].
  rewrite IH. destruct (decide (name ∈ nodes)) as [Hin|Hin].
  - rewrite !bool_decide_eq_true_2; [done| |done]. by apply list_elem_of_further.
  - rewrite (bool_decide_eq_false_2 _ Hin). destruct (decide (n = name)) as [->|Hne].
    + rewrite lookup_insert_eq, bool_decide_eq_true_2; [done|apply list_elem_of_here].
    + rewrite lookup_insert_ne by done. rewrite bool_decide_eq_false_2; [done|].
      rewrite elem_of_cons. naive_solver.
Qed.

Lemma DumpNodes_all_good st nodes :
  Forall (λ n, is_error (LoadNode st n).1 = false) nodes →
  DumpNodes st nodes = (λ n, (n, (LoadNode st n).2)) <$> nodes.
Proof.
  induction 1 as [|n nodes Hn _ IH]; simpl; [done|].
  destruct (LoadNode st n) as [e nd]; simpl in *. by rewrite Hn, IH.
Qed.

(** X2. Saving a node and loading it again returns the node that was
    saved, whatever the file held before: SaveNode truncates. *)
Theorem SaveNode_LoadNode_round_trip (st : Tmpfs) (name : string) (node : TNode) :
  (SaveNode IoOk st name node).1 = TError_Success ∧
  LoadNode (SaveNode IoOk st name node).2 name = (TError_Success, node).
Proof.
  split; [done|]. unfold LoadNode, SaveNode. cbn [snd Dir].
  by rewrite FindFile_PutFile.
Qed.

(** X3. A record that cannot be read, after a first record that can, ends
    the load without an error: the node is the merge of the records before
    it, and everything after it in the file is ignored. *)
Theorem LoadNode_stops_at_unreadable_record
    (st : Tmpfs) (name : string) (first : TNode) (recs : list TNode) (tail : TFile) :
  FindFile (Dir st) name = Some (Good first :: (Good <$> recs) ++ Corrupt :: tail) →
  LoadNode st name = (TError_Success, fold_left Merge recs first).
Proof.
  intros Hfile. unfold LoadNode. rewrite Hfile. simpl. by rewrite MergeWhile_good.
Qed.

Lemma LoadNode_stops_at_unreadable_record_witness :
  LoadNode (mkTmpfs [("2", [Good [mkPair "command" "a"]; Good [mkPair "command" "b"];
                            Corrupt; Good [mkPair "command" "c"]])] TError_Success) "2"
    = (TError_Success, [mkPair "command" "b"]).
Proof.
  apply (LoadNode_stops_at_unreadable_record _ "2" [mkPair "command" "a"]
           [[mkPair "command" "b"]] [Good [mkPair "command" "c"]]).
  reflexivity.
Defined.

(** X4. Merge keeps the pairs of the node in their places: the keys of
    the node are a prefix of the keys of the result, the result has the
    keys of both and no other, a node without duplicate keys stays without
    them, and the result is no longer than both together. *)
Theorem Merge_keeps_keys_in_place (node next : TNode) :
  (key <$> node) `prefix_of` (key <$> Merge node next) ∧
  (∀ k, k ∈ key <$> Merge node next ↔ k ∈ key <$> node ∨ k ∈ key <$> next) ∧
  (NoDup (key <$> node) → NoDup (key <$> Merge node next)) ∧
  length (Merge node next) ≤ length node + length next.
Proof.
  split; [apply Merge_keys_prefix|]. split; [intros k; apply Merge_keys_elem|].
  split; [apply NoDup_Merge|apply Merge_length].
Qed.

(** X5. When the directory can be listed and every listed node loads,
    Restore succeeds, binds every listed name to the node loaded for it
    and leaves the other entries of the map as they were. *)
Theorem Restore_loads_every_listed_node (st : Tmpfs) (map : gmap string TNode) :
  is_error (ItemsError st) = false →
  (∀ name, name ∈ (Dir st).*1 → is_error (LoadNode st name).1 = false) →
  (Restore st map).1 = TError_Success ∧
  (∀ name, name ∈ (Dir st).*1 → (Restore st map).2 !! name = Some (LoadNode st name).2) ∧
  (∀ name, name ∉ (Dir st).*1 → (Restore st map).2 !! name = map !! name).
Proof.
  intros Hitems Hall. unfold Restore, ListNodes. rewrite Hitems. simpl.
  rewrite RestoreNodes_all_good by by apply Forall_forall.
  split; [done|]. split; intros name Hn; simpl; rewrite foldl_insert_loaded.
  - by rewrite bool_decide_eq_true_2.
  - by rewrite bool_decide_eq_false_2.
Qed.

Lemma Restore_loads_every_listed_node_witness :
  let st := mkTmpfs [("2", [Good [mkPair "command" "a"]; Good [mkPair "command" "b"]]);
                     ("5", [Good [mkPair "user" "root"]])] TError_Success in
  (Restore st ∅).1 = TError_Success ∧
  (Restore st ∅).2 !! "2" = Some [mkPair "command" "b"].
Proof.
  intros st.
  destruct (Restore_loads_every_listed_node st ∅) as (H1 & H2 & _).
  - reflexivity.
  - intros name Hn. simpl in Hn.
    apply elem_of_cons in Hn as [->|Hn]; [reflexivity|].
    apply elem_of_cons in Hn as [->|Hn]; [reflexivity|]. by apply elem_of_nil in Hn.
  - split; [exact H1|]. apply (H2 "2"). simpl. apply list_elem_of_here.
Defined.

(** X6. On a store that Restore loads without an error, Dump prints the
    listed names in order, each with the node that Restore binds to it. *)
Theorem Dump_agrees_with_Restore (st : Tmpfs) :
  (Restore st ∅).1 = TError_Success →
  (DumpNodes st (ListNodes st).2).*1 = (Dir st).*1 ∧
  ∀ name node, (name, node) ∈ DumpNodes st (ListNodes st).2 ↔
               (Restore st ∅).2 !! name = Some node.
Proof.
  unfold Restore, ListNodes.
  destruct (is_error (ItemsError st)) eqn:Hitems; rewrite ?Hitems; simpl.
  { intros He. rewrite He in Hitems. done. }
  intros Hok.
  assert (Forall (λ n, is_error (LoadNode st n).1 = false) (Dir st).*1) as Hall.
  { apply (RestoreNodes_success st _ ∅). by rewrite Hok. }
  rewrite DumpNodes_all_good, RestoreNodes_all_good by done. simpl. split.
  - rewrite <- list_fmap_compose. by rewrite list_fmap_id.
  - intros name node. rewrite foldl_insert_loaded, list_elem_of_fmap. split.
    + intros (n & [= -> ->] & Hn). by rewrite bool_decide_eq_true_2.
    + case_bool_decide as Hn; [|by rewrite lookup_empty].
      intros [= <-]. by exists name.
Qed.

Lemma Dump_agrees_with_Restore_witness :
  let st := mkTmpfs [("2", [Good [mkPair "command" "a"]; Good [mkPair "command" "b"]]);
                     ("5", [Good [mkPair "user" "root"]])] TError_Success in
  (DumpNodes st (ListNodes st).2).*1 = ["2"; "5"].
Proof.
  intros st. apply (Dump_agrees_with_Restore st). reflexivity.
Defined.

End KeyValueMore.

Section SignalFacts.
Import TContainer.

Implicit Types (h : gmap nat TContainer) (c : TContainer).

(** X7. KillAll reports what the freezer did, not what the kills did: when
    the task list of the cgroup can be read, its result is the result of
    the final Unfreeze, whatever SIGTERM and SIGKILL returned; when the
    list cannot be read, its result is that error.  After a successful
    Unfreeze the cgroup is not frozen. *)
Theorem KillAll_reports_the_unfreeze (K : TEnv) (w : TWorld) (this : nat) :
  (KillAll K w this).1 =
    (if is_error (GetTasks K this) then GetTasks K this else Unfreeze K this) ∧
  (is_error (Unfreeze K this) = false →
   ∀ c, Containers w !! this = Some c →
        Frozen <$> Containers (KillAll K w this).2 !! this = Some false).
Proof.
  unfold KillAll, SendSignal, DoUnfreeze, DoFreeze.
  destruct (is_error (GetTasks K this)) eqn:Ht; simpl; (split; [done|]);
    intros Hu c Hc; rewrite Hu; rewrite lookup_upd, decide_True by done;
    destruct (is_error (Freeze K this)); rewrite ?lookup_upd, ?decide_True by done;
    rewrite Hc; done.
Qed.

End SignalFacts.

Section QuietOperations.
Import TContainer.

Implicit Types (h : gmap nat TContainer) (c : TContainer).

Lemma same_core_then_upd w0 w this f :
  (∀ c, core (f c) = core c) → same_core w0 w → same_core w0 (upd this f w).
Proof. intros Hf H. eapply same_core_trans; [exact H|]. by apply same_core_upd. Qed.

Lemma same_core_then_fields w0 w es lb q st :
  same_core w0 w → same_core w0 (mkWorld (Containers w) (NextRef w) es lb q st).
Proof. intros H. eapply same_core_trans; [exact H|]. apply same_core_fields. Qed.

Lemma same_core_set_EpollSources w0 w v : same_core w0 w → same_core w0 (set_EpollSources v w).
Proof. apply same_core_then_fields. Qed.

Lemma same_core_set_LoopBusy w0 w v : same_core w0 w → same_core w0 (set_LoopBusy v w).
Proof. apply same_core_then_fields. Qed.

Lemma same_core_set_Queue w0 w v : same_core w0 w → same_core w0 (set_Queue v w).
Proof. apply same_core_then_fields. Qed.

Lemma same_core_live w w' r :
  same_core w w' → is_Some (Containers w' !! r) ↔ is_Some (Containers w !! r).
Proof.
  intros [_ H]. specialize (H r). rewrite <- !(fmap_is_Some core). by rewrite H.
Qed.

End QuietOperations.

Create HintDb quiet.

#[export] Hint Resolve same_core_refl same_core_then_upd same_core_set_EpollSources
  same_core_set_LoopBusy same_core_set_Queue : quiet.

#[export] Hint Extern 1 (∀ c, core _ = core c) => (intros; reflexivity) : quiet.

Ltac quiet := branches; eauto 40 with quiet.

Section QuietResources.
Import TContainer.

Lemma quiet_Prop_Set w0 K this name f w :
  same_core w0 w → same_core w0 (Prop_Set K this name f w).2.
Proof. intros H. unfold Prop_Set. quiet. Qed.

Lemma quiet_Data_Set w0 K this name f w :
  same_core w0 w → same_core w0 (Data_Set K this name f w).2.
Proof. intros H. unfold Data_Set. quiet. Qed.

Lemma quiet_ShutdownOom w0 w this : same_core w0 w → same_core w0 (ShutdownOom w this).
Proof. intros H. unfold ShutdownOom. quiet. Qed.

Lemma quiet_AddEpollSource w0 fd w : same_core w0 w → same_core w0 (AddEpollSource fd w).
Proof. intros H. unfold AddEpollSource. quiet. Qed.

Lemma quiet_PrepareNetwork w0 K w this :
  same_core w0 w → same_core w0 (PrepareNetwork K w this).2.
Proof. intros H. unfold PrepareNetwork. quiet. Qed.

Hint Resolve quiet_Prop_Set quiet_Data_Set quiet_ShutdownOom quiet_AddEpollSource
  quiet_PrepareNetwork : quiet.

Lemma quiet_PrepareOomMonitor w0 K w this :
  same_core w0 w → same_core w0 (PrepareOomMonitor K w this).2.
Proof. intros H. unfold PrepareOomMonitor. quiet. Qed.

Hint Resolve quiet_PrepareOomMonitor : quiet.

Lemma quiet_PrepareCgroups w0 K w this :
  same_core w0 w → same_core w0 (PrepareCgroups K w this).2.
Proof. intros H. unfold PrepareCgroups. quiet. Qed.

Lemma quiet_DoPutLoopDev w0 K nr w : same_core w0 w → same_core w0 (DoPutLoopDev K nr w).
Proof. intros H. unfold DoPutLoopDev. quiet. Qed.

Lemma quiet_DoGetLoopDev w0 K w : same_core w0 w → same_core w0 (DoGetLoopDev K w).2.
Proof. intros H. unfold DoGetLoopDev. quiet. Qed.

Hint Resolve quiet_PrepareCgroups quiet_DoPutLoopDev quiet_DoGetLoopDev : quiet.

Lemma quiet_FreeResources w0 K w this :
  same_core w0 w → same_core w0 (FreeResources K w this).
Proof. intros H. unfold FreeResources. quiet. Qed.

Hint Resolve quiet_FreeResources : quiet.

Lemma quiet_PrepareResources w0 K w this :
  same_core w0 w → same_core w0 (PrepareResources K w this).2.
Proof. intros H. unfold PrepareResources. quiet. Qed.

Lemma quiet_PrepareTask w0 K w this :
  same_core w0 w → same_core w0 (PrepareTask K w this).2.
Proof. intros H. unfold PrepareTask. quiet. Qed.

Hint Resolve quiet_PrepareResources quiet_PrepareTask : quiet.

Lemma quiet_StartTask w0 K w this :
  same_core w0 w → same_core w0 (StartTask K w this).2.
Proof. intros H. unfold StartTask. quiet. Qed.

End QuietResources.

#[export] Hint Resolve quiet_Prop_Set quiet_Data_Set quiet_ShutdownOom quiet_AddEpollSource
  quiet_PrepareNetwork quiet_PrepareOomMonitor quiet_PrepareCgroups quiet_DoPutLoopDev
  quiet_DoGetLoopDev quiet_FreeResources quiet_PrepareResources quiet_PrepareTask
  quiet_StartTask : quiet.

Section ResourceFacts.
Import TContainer.

Implicit Types (h : gmap nat TContainer) (c : TContainer).

Lemma ShutdownOom_lookup w this r :
  Containers (ShutdownOom w this) !! r =
    if decide (this = r) then (λ c, set_Source None (set_Efd (-1) c)) <$> Containers w !! r
    else Containers w !! r.
Proof.
  unfold ShutdownOom. destruct (Containers w !! this) as [c|] eqn:Hc.
  - rewrite lookup_upd. by destruct (Source c).
  - case_decide; [|done]. subst. by rewrite Hc.
Qed.

(** What FreeResources leaves of the container. *)
Lemma FreeResources_clears K w this c :
  Containers w !! this = Some c →
  ∃ c', Containers (FreeResources K w this) !! this = Some c' ∧
        LeafCgroups c' = [] ∧ Tclass c' = None ∧ Task c' = None ∧
        Source c' = None ∧ Efd c' = (-1)%Z ∧
        (is_error (PropSet K this "raw_loop_dev") = false →
         P_RAW_LOOP_DEV (Props c') = (-1)%Z).
Proof.
  intros Hc.
  set (c1 := set_Source None (set_Efd (-1)
               (set_Task None (set_Tclass None (set_LeafCgroups [] c))))).
  exists (if is_error (PropSet K this "raw_loop_dev") then c1
          else set_Props (set_P_RAW_LOOP_DEV (-1) (Props c1)) c1).
  split.
  - unfold FreeResources.
    rewrite ShutdownOom_lookup, decide_True, lookup_upd, decide_True, Hc by done. simpl.
    unfold Prop_Set, DoPutLoopDev.
    destruct (is_error (PropSet K this "raw_loop_dev")) eqn:Hset; simpl;
      repeat case_match; cbn [Containers set_LoopBusy];
      repeat (rewrite lookup_upd || rewrite ShutdownOom_lookup || rewrite decide_True by done);
      by rewrite Hc.
  - destruct (is_error (PropSet K this "raw_loop_dev")); by repeat split.
Qed.

(** X8. When PrepareResources fails, in the network or in the cgroups, it
    has freed what it prepared: the container holds no leaf cgroups, no
    traffic class, no task and no OOM event source, and its state is
    what it was. *)
Theorem PrepareResources_failure_frees (K : TEnv) (w : TWorld) (this : nat) (c : TContainer) :
  Containers w !! this = Some c →
  is_error (PrepareResources K w this).1 = true →
  ∃ c', Containers (PrepareResources K w this).2 !! this = Some c' ∧
        LeafCgroups c' = [] ∧ Tclass c' = None ∧ Task c' = None ∧
        Source c' = None ∧ Efd c' = (-1)%Z ∧ State c' = State c.
Proof.
  intros Hc. unfold PrepareResources.
  assert (∀ w1, same_core w w1 → ∃ c',
            Containers (FreeResources K w1 this) !! this = Some c' ∧
            LeafCgroups c' = [] ∧ Tclass c' = None ∧ Task c' = None ∧
            Source c' = None ∧ Efd c' = (-1)%Z ∧ State c' = State c) as Hfree.
  { intros w1 Hw1.
    destruct (proj2 (same_core_live w w1 this Hw1)) as [c1 Hc1]; [eauto|].
    destruct (FreeResources_clears K w1 this c1 Hc1) as (c' & Hc' & H1 & H2 & H3 & H4 & H5 & _).
    exists c'. repeat (split; [done|]).
    assert (same_core w (FreeResources K w1 this)) as Hsc by by apply quiet_FreeResources.
    pose proof (same_core_State _ _ this Hsc) as Hst. rewrite Hc', Hc in Hst.
    simpl in Hst. congruence. }
  pose proof (quiet_PrepareNetwork w K w this (same_core_refl w)) as Hn.
  destruct (PrepareNetwork K w this) as [e1 w1]; simpl in Hn.
  destruct (is_error e1) eqn:He1; simpl.
  { intros _. by apply Hfree. }
  pose proof (quiet_PrepareCgroups w K w1 this Hn) as Hg.
  destruct (PrepareCgroups K w1 this) as [e2 w2]; simpl in Hg.
  destruct (is_error e2) eqn:He2; simpl; [|done].
  intros _. by apply Hfree.
Qed.

Lemma PrepareResources_failure_frees_witness :
  ∃ c c', Containers configured !! 2 = Some c ∧
          Containers (PrepareResources noCgroupEnv configured 2).2 !! 2 = Some c' ∧
          LeafCgroups c' = [] ∧ Tclass c' = None ∧ Task c' = None ∧
          Source c' = None ∧ Efd c' = (-1)%Z ∧ State c' = State c.
Proof.
  destruct (Containers configured !! 2) as [c|] eqn:Hc; [|vm_compute in Hc; discriminate].
  destruct (PrepareResources_failure_frees noCgroupEnv configured 2 c Hc) as (c' & H);
    [vm_compute; reflexivity|].
  exists c, c'. split; [reflexivity|exact H].
Defined.

(** X9. A Start that fails on a Stopped container leaves the state, the
    parent, the children and the running-children counter of every
    container as they were: the container is still Stopped. *)
Theorem failed_Start_changes_no_state
    (K : TEnv) (w : TWorld) (this : nat) (c : TContainer) (meta : bool) :
  Containers w !! this = Some c →
  State c = Stopped →
  is_error (Start K w this meta).1 = true →
  same_core w (Start K w this meta).2 ∧
  State <$> Containers (Start K w this meta).2 !! this = Some Stopped.
Proof.
  intros Hc Hs Herr.
  assert (same_core w (Start K w this meta).2) as Hsc.
  { revert Herr. unfold Start.
    rewrite (SyncStateWithCgroup_not_Running K w this c) by (done || congruence).
    rewrite Hc, decide_False by (intros H; by apply H).
    branches; intros Herr; try done; quiet. }
  split; [done|]. rewrite (same_core_State _ _ _ Hsc), Hc. simpl. by rewrite Hs.
Qed.

Lemma failed_Start_changes_no_state_witness :
  same_core imageWorld (Start noLoopEnv imageWorld 2 false).2 ∧
  State <$> Containers (Start noLoopEnv imageWorld 2 false).2 !! 2 = Some Stopped.
Proof.
  destruct (Containers imageWorld !! 2) as [c|] eqn:Hc; [|vm_compute in Hc; discriminate].
  apply (failed_Start_changes_no_state noLoopEnv imageWorld 2 c false Hc).
  - vm_compute in Hc. injection Hc as <-. reflexivity.
  - vm_compute. reflexivity.
Defined.

End ResourceFacts.

Section ResumeFacts.
Import TContainer.

Implicit Types (h : gmap nat TContainer) (c : TContainer).

(** X10. Resume of a Paused container is rejected with InvalidState, and
    nothing changes, while one of its ancestors is Paused. *)
Theorem Resume_rejects_under_paused_ancestor
    (K : TEnv) (w : TWorld) (this : nat) (c : TContainer) (a : nat) (ca : TContainer) :
  wf w →
  Containers w !! this = Some c →
  State c = Paused →
  a ∈ ancestors (Containers w) this →
  Containers w !! a = Some ca →
  State ca = Paused →
  Resume K w this = (TError_of InvalidState, w).
Proof.
  intros Hwf Hc Hs Ha Hca Hsa. unfold Resume.
  rewrite (SyncStateWithCgroup_not_Running K w this c) by (done || congruence).
  rewrite Hc, decide_False by (intros H; by apply H).
  rewrite bool_decide_eq_true_2; [done|].
  apply (FindAncestor_spec _ this c); [by apply wf_hwf_parent|done|].
  exists a, ca. repeat split; try done. by apply bool_decide_eq_true_2.
Qed.

Lemma Resume_rejects_under_paused_ancestor_witness :
  Resume calmEnv (sampleWorld Paused Paused 0) 3
    = (TError_of InvalidState, sampleWorld Paused Paused 0).
Proof.
  destruct (Containers (sampleWorld Paused Paused 0) !! 3) as [c|] eqn:Hc;
    [|vm_compute in Hc; discriminate].
  destruct (Containers (sampleWorld Paused Paused 0) !! 2) as [ca|] eqn:Hca;
    [|vm_compute in Hca; discriminate].
  apply (Resume_rejects_under_paused_ancestor calmEnv (sampleWorld Paused Paused 0) 3 c 2 ca).
  - apply wf_check_sound. vm_compute. reflexivity.
  - exact Hc.
  - vm_compute in Hc. injection Hc as <-. reflexivity.
  - apply (bool_decide_unpack _). vm_compute. exact I.
  - exact Hca.
  - vm_compute in Hca. injection Hca as <-. reflexivity.
Defined.

(** X11. Resume of a Paused container with no Paused ancestor, when the
    freezer thaws, succeeds, leaves the freezer cgroup thawed and sets the
    container and every container of its subtree to Running, whatever the
    state of that container was. *)
Theorem Resume_runs_the_whole_subtree
    (K : TEnv) (w : TWorld) (this : nat) (c : TContainer) :
  wf w →
  Containers w !! this = Some c →
  State c = Paused →
  (∀ a ca, a ∈ ancestors (Containers w) this → Containers w !! a = Some ca →
           State ca ≠ Paused) →
  is_error (Unfreeze K this) = false →
  (Resume K w this).1 = TError_Success ∧
  Frozen <$> Containers (Resume K w this).2 !! this = Some false ∧
  ∀ d, descendant (Containers w) this d → is_Some (Containers w !! d) →
       State <$> Containers (Resume K w this).2 !! d = Some Running.
Proof.
  intros Hwf Hc Hs Hanc Hthaw. unfold Resume.
  rewrite (SyncStateWithCgroup_not_Running K w this c) by (done || congruence).
  rewrite Hc, decide_False by (intros H; by apply H).
  rewrite bool_decide_eq_false_2.
  2:{ intros Hfind. apply (FindAncestor_spec _ this c) in Hfind as (a & ca & Ha & Hca & HP);
        [|by apply wf_hwf_parent|done].
      apply bool_decide_eq_true_1 in HP. by apply (Hanc a ca). }
  rewrite Hthaw. unfold DoUnfreeze. rewrite Hthaw. cbn [fst snd].
  set (w1 := upd this (set_Frozen false) w).
  assert (same_core w w1) as Hcore by (apply same_core_upd; intros; reflexivity).
  assert (wf w1) as Hwf1 by (apply (wf_same_shape w); [done|by apply same_core_shape]).
  pose proof (same_core_shape _ _ Hcore) as [_ Hsh].
  split; [done|]. split.
  - unfold SetState. cbn [Containers set_Containers].
    rewrite (SetState_fuel_frame Frozen) by (done || by apply wf_hwf_parent).
    unfold w1. rewrite lookup_upd, decide_True by done. by rewrite Hc.
  - intros d Hdesc [cd Hcd]. unfold SetState. cbn [Containers set_Containers].
    apply (SetState_fuel_tree _ _ _ _ (NextRef w1)).
    + by apply wf_hwf_parent.
    + by apply wf_hwf_children.
    + intros r [cr Hr]. by apply (wf_bound w1 Hwf1 r cr).
    + lia.
    + apply (descendant_shape (Containers w)); [|done]. intros x. by rewrite Hsh.
    + specialize (Hsh d). rewrite Hcd in Hsh.
      destruct (Containers w1 !! d); [eauto|done].
Qed.

Lemma Resume_runs_the_whole_subtree_witness :
  (Resume calmEnv (sampleWorld Paused Paused 0) 2).1 = TError_Success ∧
  Frozen <$> Containers (Resume calmEnv (sampleWorld Paused Paused 0) 2).2 !! 2
    = Some false ∧
  ∀ d, descendant (Containers (sampleWorld Paused Paused 0)) 2 d →
       is_Some (Containers (sampleWorld Paused Paused 0) !! d) →
       State <$> Containers (Resume calmEnv (sampleWorld Paused Paused 0) 2).2 !! d
         = Some Running.
Proof.
  destruct (Containers (sampleWorld Paused Paused 0) !! 2) as [c|] eqn:Hc;
    [|vm_compute in Hc; discriminate].
  apply (Resume_runs_the_whole_subtree calmEnv (sampleWorld Paused Paused 0) 2 c).
  - apply wf_check_sound. vm_compute. reflexivity.
  - exact Hc.
  - vm_compute in Hc. injection Hc as <-. reflexivity.
  - intros a ca Ha Hl. apply list_elem_of_In in Ha. vm_compute in Ha.
    destruct Ha as [<-|[<-|[]]]; vm_compute in Hl; injection Hl as <-; discriminate.
  - reflexivity.
Defined.

End ResumeFacts.

Section SettingsFacts.
Import TContainer.

Implicit Types (h : gmap nat TContainer) (c : TContainer).

Lemma proceeds_refl w : proceeds w w.
Proof. apply proceeds_quiet; [apply same_core_refl|done]. Qed.

Lemma proceeds_upd w0 w this f :
  (∀ c, core (f c) = core c) → (∀ c, settings (f c) = settings c) →
  proceeds w0 w → proceeds w0 (upd this f w).
Proof.
  intros Hc Hs H. eapply proceeds_trans; [exact H|]. apply proceeds_quiet.
  - by apply same_core_upd.
  - intros r. rewrite lookup_upd. case_decide; [|done].
    destruct (Containers w !! r); simpl; [|done]. by rewrite Hs.
Qed.

Lemma proceeds_fields w0 w es lb q st :
  proceeds w0 w → proceeds w0 (mkWorld (Containers w) (NextRef w) es lb q st).
Proof.
  intros H. eapply proceeds_trans; [exact H|]. apply proceeds_quiet; [|done].
  apply same_core_fields.
Qed.

Lemma proceeds_set_EpollSources w0 w v : proceeds w0 w → proceeds w0 (set_EpollSources v w).
Proof. apply proceeds_fields. Qed.

Lemma proceeds_set_LoopBusy w0 w v : proceeds w0 w → proceeds w0 (set_LoopBusy v w).
Proof. apply proceeds_fields. Qed.

Lemma proceeds_set_Queue w0 w v : proceeds w0 w → proceeds w0 (set_Queue v w).
Proof. apply proceeds_fields. Qed.

Lemma proceeds_then_SetState w0 w this newState tree :
  proceeds w0 w → proceeds w0 (SetState w this newState tree).
Proof. intros H. eapply proceeds_trans; [exact H|]. apply proceeds_SetState. Qed.

Lemma proceeds_fold_left {A} (f : TWorld → A → TWorld) (l : list A) w0 w :
  (∀ w a, proceeds w0 w → proceeds w0 (f w a)) →
  proceeds w0 w → proceeds w0 (fold_left f l w).
Proof. intros Hf. revert w. induction l as [|a l IH]; simpl; auto. Qed.

Lemma proceeds_evolves w w' : proceeds w w' → evolves w w'.
Proof.
  induction 1 as [w w' Hc _| |w1 w2 w3 _ IH1 _ IH2].
  - by apply evolves_core.
  - apply evolves_SetState.
  - by eapply evolves_trans.
Qed.

(** Along such a run the settings of every container stay as they are. *)
Lemma proceeds_same_settings w w' : proceeds w w' → wf w → same_settings w w'.
Proof.
  induction 1 as [w w' _ Hs|w this s tree|w1 w2 w3 H12 IH1 H23 IH2]; intros Hwf.
  - done.
  - intros r. unfold SetState. cbn [Containers set_Containers].
    apply (SetState_fuel_frame settings); [done|done|by apply wf_hwf_parent].
  - assert (wf w2) as Hwf2.
    { apply (wf_same_shape w1); [done|]. apply evolves_same_shape; [|done].
      by apply proceeds_evolves. }
    intros r. rewrite (IH2 Hwf2 r). by apply IH1.
Qed.

End SettingsFacts.

Create HintDb settle.

#[export] Hint Resolve proceeds_refl proceeds_upd proceeds_set_EpollSources
  proceeds_set_LoopBusy proceeds_set_Queue proceeds_then_SetState : settle.

#[export] Hint Extern 1 (∀ c, core _ = core c) => (intros; reflexivity) : settle.
#[export] Hint Extern 1 (∀ c, settings _ = settings c) => (intros; reflexivity) : settle.

Ltac settle := branches; eauto 40 with settle.

Section SettledOperations.
Import TContainer.

Implicit Types (h : gmap nat TContainer) (c : TContainer).

Lemma proceeds_Prop_Set w0 K this name f w :
  (∀ c, settings (set_Props (f (Props c)) c) = settings c) →
  proceeds w0 w → proceeds w0 (Prop_Set K this name f w).2.
Proof. intros Hf H. unfold Prop_Set. settle. Qed.

Lemma proceeds_Data_Set w0 K this name f w :
  (∀ c, settings (set_Data (f (Data c)) c) = settings c) →
  proceeds w0 w → proceeds w0 (Data_Set K this name f w).2.
Proof. intros Hf H. unfold Data_Set. settle. Qed.

Lemma proceeds_ShutdownOom w0 w this : proceeds w0 w → proceeds w0 (ShutdownOom w this).
Proof. intros H. unfold ShutdownOom. settle. Qed.

Lemma proceeds_DoFreeze w0 K w this : proceeds w0 w → proceeds w0 (DoFreeze K w this).
Proof. intros H. unfold DoFreeze. settle. Qed.

Lemma proceeds_DoUnfreeze w0 K w this : proceeds w0 w → proceeds w0 (DoUnfreeze K w this).
Proof. intros H. unfold DoUnfreeze. settle. Qed.

Hint Resolve proceeds_Prop_Set proceeds_Data_Set proceeds_ShutdownOom proceeds_DoFreeze
  proceeds_DoUnfreeze : settle.

Lemma proceeds_SendSignal w0 K w this signal freeze :
  proceeds w0 w → proceeds w0 (SendSignal K w this signal freeze).2.
Proof. intros H. unfold SendSignal. settle. Qed.

Lemma proceeds_KillAll w0 K w this : proceeds w0 w → proceeds w0 (KillAll K w this).2.
Proof. intros H. unfold KillAll. name_result. auto using proceeds_SendSignal. Qed.

Lemma UpdateSoftLimit_fuel_frame {A} (π : TContainer → A) n K h this r :
  (∀ v c, π (set_MemSoftLimit v c) = π c) →
  π <$> (UpdateSoftLimit_fuel n K h this).2 !! r = π <$> h !! r.
Proof.
  intros Hπ.
  assert (∀ v h0, π <$> alter (set_MemSoftLimit v) this h0 !! r = π <$> h0 !! r) as Halter.
  { intros v h0. destruct (decide (this = r)) as [->|Hne].
    - rewrite lookup_alter_eq. destruct (h0 !! r); simpl; [|done]. by rewrite Hπ.
    - by rewrite lookup_alter_ne. }
  revert h this Halter. induction n as [|n IH]; intros h this Halter; simpl; [done|].
  destruct (h !! this) as [c0|] eqn:Hc0; [|done].
  destruct (IsRoot c0 || IsPortoRoot c0); [done|].
  set (h1 := match Parent c0 with
             | Some p => (UpdateSoftLimit_fuel n K h p).2
             | None => h
             end).
  assert (π <$> h1 !! r = π <$> h !! r) as H1.
  { unfold h1. destruct (Parent c0) as [p|]; [|done]. apply IH.
    intros v h0. destruct (decide (p = r)) as [->|Hne].
    - rewrite lookup_alter_eq. destruct (h0 !! r); simpl; [|done]. by rewrite Hπ.
    - by rewrite lookup_alter_ne. }
  destruct (h1 !! this) as [c|] eqn:Hc; [|done].
  repeat case_match; simpl; try done.
  all: by rewrite Halter.
Qed.

Lemma proceeds_UpdateSoftLimit w0 K w this :
  proceeds w0 w → proceeds w0 (UpdateSoftLimit K w this).2.
Proof.
  intros H. eapply proceeds_trans; [exact H|]. unfold UpdateSoftLimit.
  pose proof (UpdateSoftLimit_fuel_frame core (S this) K (Containers w) this) as Hc.
  pose proof (UpdateSoftLimit_fuel_frame settings (S this) K (Containers w) this) as Hs.
  destruct (UpdateSoftLimit_fuel (S this) K (Containers w) this) as [e h]; simpl in *.
  apply proceeds_quiet.
  - split; [done|]. intros r. by rewrite Hc.
  - intros r. by rewrite Hs.
Qed.

Lemma proceeds_DoPutLoopDev w0 K nr w : proceeds w0 w → proceeds w0 (DoPutLoopDev K nr w).
Proof. intros H. unfold DoPutLoopDev. settle. Qed.

Hint Resolve proceeds_SendSignal proceeds_KillAll proceeds_UpdateSoftLimit
  proceeds_DoPutLoopDev : settle.

Lemma proceeds_FreeResources w0 K w this :
  proceeds w0 w → proceeds w0 (FreeResources K w this).
Proof. intros H. unfold FreeResources. settle. Qed.

Lemma proceeds_ScheduleRespawn w0 w this : proceeds w0 w → proceeds w0 (ScheduleRespawn w this).
Proof. intros H. unfold ScheduleRespawn. settle. Qed.

Lemma proceeds_Release w0 w this : proceeds w0 w → proceeds w0 (Release w this).
Proof. intros H. unfold Release. settle. Qed.

Hint Resolve proceeds_FreeResources proceeds_ScheduleRespawn proceeds_Release : settle.

Lemma proceeds_Exit_fuel n w0 K w this status oomKilled force :
  proceeds w0 w → proceeds w0 (Exit_fuel n K w this status oomKilled force).2.
Proof.
  revert w this force. induction n as [|n IH]; intros w this force H; simpl.
  - settle.
  - destruct (Containers w !! this) as [c|]; [|done].
    match goal with |- context [if ?b then _ else _] => destruct b end; [done|].
    simpl.
    match goal with
    | |- context [fold_left ?f ?l ?w1] =>
        assert (proceeds w0 (fold_left f l w1)) as Hfold
    end.
    { apply proceeds_fold_left.
      - intros w' child Hw'. settle.
      - settle. }
    revert Hfold.
    match goal with
    | |- context [fold_left ?f ?l ?w1] => generalize (fold_left f l w1)
    end.
    intros w2 Hw2. settle.
Qed.

Lemma proceeds_Exit w0 K w this status oomKilled force :
  proceeds w0 w → proceeds w0 (Exit K w this status oomKilled force).2.
Proof. apply proceeds_Exit_fuel. Qed.

Hint Resolve proceeds_Exit : settle.

Lemma proceeds_SyncStateWithCgroup w0 K w this :
  proceeds w0 w → proceeds w0 (SyncStateWithCgroup K w this).
Proof. intros H. unfold SyncStateWithCgroup. settle. Qed.

Hint Resolve proceeds_SyncStateWithCgroup : settle.

Lemma proceeds_DeliverExitStatus w0 K w this pid status :
  proceeds w0 w → proceeds w0 (DeliverExitStatus K w this pid status).2.
Proof. intros H. unfold DeliverExitStatus. settle. Qed.

Lemma proceeds_DeliverOom w0 K w this fd :
  proceeds w0 w → proceeds w0 (DeliverOom K w this fd).2.
Proof. intros H. unfold DeliverOom. settle. Qed.

Lemma proceeds_Stop_fuel n w0 K w this :
  proceeds w0 w → proceeds w0 (Stop_fuel n K w this).2.
Proof.
  revert w this. induction n as [|n IH]; intros w this H; simpl.
  - settle.
  - destruct (Containers (SyncStateWithCgroup K w this) !! this) as [c|]; [|settle].
    match goal with |- context [if ?b then _ else _] => destruct b end; [settle|].
    name_result. destruct (is_error e); [settle|].
    simpl.
    match goal with
    | |- context [fold_left ?f ?l ?w1] =>
        assert (proceeds w0 (fold_left f l w1)) as Hfold
    end.
    { apply proceeds_fold_left.
      - intros w' child Hw'. settle.
      - settle. }
    revert Hfold.
    match goal with
    | |- context [fold_left ?f ?l ?w1] => generalize (fold_left f l w1)
    end.
    intros w2 Hw2. settle.
Qed.

Lemma proceeds_Stop w0 K w this : proceeds w0 w → proceeds w0 (Stop K w this).2.
Proof. apply proceeds_Stop_fuel. Qed.

Lemma proceeds_Pause w0 K w this : proceeds w0 w → proceeds w0 (Pause K w this).2.
Proof. intros H. unfold Pause. settle. Qed.

Lemma proceeds_Resume w0 K w this : proceeds w0 w → proceeds w0 (Resume K w this).2.
Proof. intros H. unfold Resume. settle. Qed.

Hint Resolve proceeds_Stop proceeds_Pause proceeds_Resume : settle.

Lemma proceeds_Destroy w0 K w this : proceeds w0 w → proceeds w0 (Destroy K w this).2.
Proof. intros H. unfold Destroy. settle. Qed.

End SettledOperations.

Section SettingsClaims.
Import TContainer.

Implicit Types (h : gmap nat TContainer) (c : TContainer).

(** X12. Stop, Pause, Resume, Destroy and the delivery of an exit or of an
    OOM event change no setting of any container: identity, name,
    command, root, isolation, virtualisation mode, cpu policy, respawn
    policy, the uint properties and the respawn count are what they
    were, also in the children that are stopped or exit along the way. *)
Theorem lifecycle_keeps_settings (K : TEnv) (w : TWorld) (this : nat) :
  wf w →
  same_settings w (Stop K w this).2 ∧
  same_settings w (Pause K w this).2 ∧
  same_settings w (Resume K w this).2 ∧
  same_settings w (Destroy K w this).2 ∧
  (∀ pid status, same_settings w (DeliverExitStatus K w this pid status).2) ∧
  (∀ fd, same_settings w (DeliverOom K w this fd).2).
Proof.
  intros Hwf. repeat split; intros; apply proceeds_same_settings; try done.
  - apply proceeds_Stop, proceeds_refl.
  - apply proceeds_Pause, proceeds_refl.
  - apply proceeds_Resume, proceeds_refl.
  - apply proceeds_Destroy, proceeds_refl.
  - apply proceeds_DeliverExitStatus, proceeds_refl.
  - apply proceeds_DeliverOom, proceeds_refl.
Qed.

Lemma lifecycle_keeps_settings_witness :
  same_settings started (Stop calmEnv started 2).2 ∧
  same_settings started (Pause calmEnv started 2).2 ∧
  same_settings started (Resume calmEnv started 2).2 ∧
  same_settings started (Destroy calmEnv started 2).2 ∧
  (∀ pid status, same_settings started (DeliverExitStatus calmEnv started 2 pid status).2) ∧
  (∀ fd, same_settings started (DeliverOom calmEnv started 2 fd).2).
Proof.
  apply (lifecycle_keeps_settings calmEnv started 2).
  apply wf_check_sound. vm_compute. reflexivity.
Defined.

(** X13. Respawn counts the attempt whether or not the start succeeds:
    once Stop has succeeded, and when the count can be stored, the
    respawn count of the container is one more than it was, also when
    Start fails. *)
Theorem Respawn_counts_every_attempt (K : TEnv) (w : TWorld) (this : nat) (c : TContainer) :
  wf w →
  Containers w !! this = Some c →
  is_error (Stop K w this).1 = false →
  is_error (DataSet K this "respawn_count") = false →
  D_RESPAWN_COUNT ∘ Data <$> Containers (Respawn K w this).2 !! this
    = Some (wrap64 (D_RESPAWN_COUNT (Data c) + 1)).
Proof.
  intros Hwf Hc Hstop Hset. unfold Respawn.
  pose proof (proceeds_Stop w K w this (proceeds_refl w)) as Hp.
  pose proof (proceeds_same_settings _ _ Hp Hwf this) as Hs.
  pose proof (proceeds_evolves _ _ Hp) as Hev.
  destruct (Stop K w this) as [e w1]; simpl in *. rewrite Hstop.
  assert (wf w1) as Hwf1.
  { apply (wf_same_shape w); [done|]. by apply evolves_same_shape. }
  rewrite Hc in Hs. destruct (Containers w1 !! this) as [c1|] eqn:Hc1; [|done].
  simpl in Hs. injection Hs as _ _ _ _ _ _ _ _ _ _ _ Hcnt.
  cbn [default fmap option_fmap option_map compose]. rewrite Hcnt.
  pose proof (evolves_Start w1 K w1 this false (evolves_refl w1)) as Hev2.
  pose proof (evolves_same_shape _ _ Hev2 Hwf1) as [_ Hsh].
  destruct (Start K w1 this false) as [e2 w2]; simpl in *.
  specialize (Hsh this). rewrite Hc1 in Hsh.
  destruct (Containers w2 !! this) as [c2|] eqn:Hc2; [|done].
  unfold Data_Set. rewrite Hset. simpl.
  by rewrite lookup_alter_eq, Hc2.
Qed.

Lemma Respawn_counts_every_attempt_witness :
  ∃ c, Containers started !! 2 = Some c ∧
       D_RESPAWN_COUNT ∘ Data <$> Containers (Respawn noLoopEnv started 2).2 !! 2
         = Some (wrap64 (D_RESPAWN_COUNT (Data c) + 1)).
Proof.
  destruct (Containers started !! 2) as [c|] eqn:Hc; [|vm_compute in Hc; discriminate].
  exists c. split; [reflexivity|].
  apply (Respawn_counts_every_attempt noLoopEnv started 2 c).
  - apply wf_check_sound. vm_compute. reflexivity.
  - exact Hc.
  - vm_compute. reflexivity.
  - reflexivity.
Defined.

End SettingsClaims.

Section AliasFacts.
Import TContainer.

Implicit Types (h : gmap nat TContainer) (c : TContainer).

(** X14. The alias table that GetProperty reads and the renaming that
    SetProperty applies agree: AliasToProperty maps a name to the entry
    of the table, and leaves a name without an entry, and its value, as
    they are.  For the two boolean aliases a value written through the
    alias reads back as "0" when it was "0" and as "1" otherwise. *)
Theorem alias_table_agrees_with_AliasToProperty (property value : string) :
  (AliasToProperty property value).1 = default property (alias property) ∧
  (alias property = None → AliasToProperty property value = (property, value)) ∧
  (property = "cpu.smart" ∨ property = "memory.recharge_on_pgfault" →
   PropertyToAlias property (AliasToProperty property value).2
     = if decide (value = "0") then "0" else "1").
Proof.
  unfold AliasToProperty, alias, PropertyToAlias.
  repeat split.
  - repeat case_decide; done.
  - repeat case_decide; done.
  - intros [-> | ->]; simpl; repeat case_decide; done.
Qed.

Lemma GetChildrenSum_fuel_except_current n h this property x cx :
  h !! x = Some cx → Get_uint cx property ≠ 0%Z →
  GetChildrenSum_fuel n h this property (Some x) (Get_uint cx property)
    = GetChildrenSum_fuel n h this property None 0.
Proof.
  intros Hx Hv. revert this. induction n as [|n IH]; intros this; simpl; [done|].
  destruct (h !! this) as [c|]; [|done].
  match goal with
  | |- fold_left ?f ?l _ = fold_left ?g _ _ =>
      enough (∀ acc, fold_left f l acc = fold_left g l acc) as Hen by apply Hen
  end.
  induction (Children c) as [|k l IHl]; intros acc; simpl; [done|].
  rewrite <- IHl. f_equal.
  destruct (h !! k) as [ck|] eqn:Hk; [|done].
  destruct (decide (k = x)) as [->|Hne].
  - rewrite bool_decide_eq_true_2 by done. simpl.
    assert (ck = cx) as -> by congruence. by rewrite decide_True.
  - rewrite bool_decide_eq_false_2 by congruence. simpl.
    case_decide; [done|]. by rewrite IH.
Qed.

(** X15. Leaving a container out of the children sum at the value it
    holds, when that value is not zero, gives the plain children sum. *)
Theorem GetChildrenSum_except_current
    (w : TWorld) (this : nat) (property : string) (x : nat) (cx : TContainer) :
  Containers w !! x = Some cx →
  Get_uint cx property ≠ 0%Z →
  GetChildrenSum w this property (Some x) (Get_uint cx property)
    = GetChildrenSum w this property None 0.
Proof. intros. by apply GetChildrenSum_fuel_except_current. Qed.

End AliasFacts.

Section StringFacts.
Import TContainer.

Lemma app_String x (a b : string) : String x a +:+ b = String x (a +:+ b).
Proof. reflexivity. Qed.

Lemma app_Empty (b : string) : "" +:+ b = b.
Proof. reflexivity. Qed.

Lemma length_app_string (a b : string) :
  String.length (a +:+ b) = String.length a + String.length b.
Proof.
  induction a as [|x a IH]; [done|]. rewrite app_String. simpl. by rewrite IH.
Qed.

Lemma GetChildrenSum_except_current_witness :
  ∃ cx, Containers siblingWorld !! 3 = Some cx ∧
        GetChildrenSum siblingWorld 2 P_MEM_LIMIT (Some 3) (Get_uint cx P_MEM_LIMIT)
          = GetChildrenSum siblingWorld 2 P_MEM_LIMIT None 0.
Proof.
  destruct (Containers siblingWorld !! 3) as [cx|] eqn:Hc; [|vm_compute in Hc; discriminate].
  exists cx. split; [reflexivity|].
  apply (GetChildrenSum_except_current siblingWorld 2 P_MEM_LIMIT 3 cx Hc).
  vm_compute in Hc. injection Hc as <-. vm_compute. discriminate.
Defined.

Lemma substr_app_length (a b : string) : substr (String.length a) (a +:+ b) = b.
Proof.
  induction a as [|x a IH]; [rewrite app_Empty; by destruct b|].
  rewrite app_String. simpl. exact IH.
Qed.

Lemma substring_app_length (a b : string) :
  String.substring 0 (String.length a) (a +:+ b) = a.
Proof.
  induction a as [|x a IH]; [rewrite app_Empty; by destruct b|].
  rewrite app_String. simpl. by rewrite IH.
Qed.

Lemma substring_substr (n : nat) (s : string) :
  n ≤ String.length s → String.substring 0 n s +:+ substr n s = s.
Proof.
  revert s. induction n as [|n IH]; intros [|x s] Hn; simpl in *; try done; try lia.
  rewrite app_String. f_equal. apply IH. lia.
Qed.

Lemma app_string_nil_r (a : string) : a +:+ "" = a.
Proof. induction a as [|x a IH]; [done|]. rewrite app_String. by rewrite IH. Qed.

Lemma app_string_assoc (a b c : string) : (a +:+ b) +:+ c = a +:+ (b +:+ c).
Proof.
  induction a as [|x a IH]; [done|]. rewrite !app_String. by rewrite IH.
Qed.

Lemma rfind_app ch (a b : string) :
  rfind ch (a +:+ b) =
    match rfind ch b with
    | Some n => Some (String.length a + n)
    | None => rfind ch a
    end.
Proof.
  induction a as [|x a IH].
  - rewrite app_Empty. by destruct (rfind ch b).
  - rewrite app_String. simpl. rewrite IH. by destruct (rfind ch b).
Qed.

Lemma rfind_substr ch (s : string) n :
  rfind ch s = Some n → rfind ch (substr (S n) s) = None.
Proof.
  revert n. induction s as [|x s IH]; intros n; simpl; [done|].
  destruct (rfind ch s) as [m|] eqn:Hm.
  - intros [= <-]. by apply IH.
  - case_decide; [|done]. intros [= <-]. by destruct s.
Qed.

Lemma rfind_lt ch (s : string) n : rfind ch s = Some n → n < String.length s.
Proof.
  revert n. induction s as [|x s IH]; intros n; simpl; [done|].
  destruct (rfind ch s) as [m|].
  - intros [= <-]. specialize (IH m eq_refl). lia.
  - case_decide; [|done]. intros [= <-]. lia.
Qed.

End StringFacts.

Section StripParentNameClaims.
Import TContainer.

(** X16. StripParentName returns the last component of a name: the
    reserved names are returned whole; of any other name the result has
    no '/', and it is [leaf] for a name [parent/leaf] whose leaf has no
    '/'.  Stripping twice is stripping once. *)
Theorem StripParentName_is_the_last_component (R : TReservedNames) (name : string) :
  (name ≠ ROOT_CONTAINER R → name ≠ PORTO_ROOT_CONTAINER R →
   rfind slash (StripParentName R name) = None) ∧
  (∀ parent leaf,
     name = parent +:+ "/" +:+ leaf → rfind slash leaf = None →
     name ≠ ROOT_CONTAINER R → name ≠ PORTO_ROOT_CONTAINER R →
     StripParentName R name = leaf) ∧
  StripParentName R (StripParentName R name) = StripParentName R name.
Proof.
  assert (name ≠ ROOT_CONTAINER R → name ≠ PORTO_ROOT_CONTAINER R →
          rfind slash (StripParentName R name) = None) as Hno.
  { intros H1 H2. unfold StripParentName. rewrite !decide_False by done.
    destruct (rfind slash name) as [n|] eqn:Hn; [|done]. by apply rfind_substr. }
  split; [done|]. split.
  - intros parent leaf -> Hleaf H1 H2. unfold StripParentName.
    rewrite !decide_False by done.
    rewrite rfind_app. change ("/" +:+ leaf) with (String slash leaf).
    cbn [rfind]. rewrite Hleaf, decide_True by done.
    replace (S (String.length parent + 0)) with (String.length (parent +:+ "/")).
    2:{ rewrite length_app_string. simpl. lia. }
    change (String slash leaf) with ("/" +:+ leaf).
    rewrite <- app_string_assoc. apply substr_app_length.
  - destruct (decide (name = ROOT_CONTAINER R)) as [H1|H1].
    { unfold StripParentName. rewrite !(decide_True _ _ H1). by rewrite decide_True. }
    destruct (decide (name = PORTO_ROOT_CONTAINER R)) as [H2|H2].
    { unfold StripParentName. rewrite (decide_False _ _ H1), !(decide_True _ _ H2).
      case_decide; [congruence|]. by rewrite decide_True. }
    specialize (Hno H1 H2). revert Hno. generalize (StripParentName R name). intros s Hs.
    unfold StripParentName. repeat case_decide; try congruence. by rewrite Hs.
Qed.

Lemma StripParentName_is_the_last_component_witness :
  StripParentName (mkReservedNames "/" "/porto" ".") "a/b/c" = "c".
Proof.
  destruct (StripParentName_is_the_last_component
              (mkReservedNames "/" "/porto" ".") "a/b/c") as (_ & H & _).
  apply (H "a/b" "c"); [reflexivity|reflexivity|discriminate|discriminate].
Defined.

End StripParentNameClaims.

Section NameFacts.
Import TContainer.

Implicit Types (h : gmap nat TContainer) (c : TContainer).

Lemma GetPortoNamespace_fuel_stable n m ns h x :
  hwf_parent h → x < n → x < m →
  GetPortoNamespace_fuel n ns h x = GetPortoNamespace_fuel m ns h x.
Proof.
  intros Hwf. revert m x. induction n as [|n IH]; intros m x Hn Hm; [lia|].
  destruct m as [|m]; [lia|]. simpl.
  destruct (h !! x) as [c|] eqn:Hc; simpl; [|done].
  destruct (Parent c) as [p|] eqn:Hp; [|done].
  destruct (Hwf x c p Hc Hp) as [Hlt _]. f_equal. apply IH; lia.
Qed.

Lemma GetName_fuel_stable n m h x recursive sep :
  hwf_parent h → x < n → x < m →
  GetName_fuel n h x recursive sep = GetName_fuel m h x recursive sep.
Proof.
  intros Hwf. revert m x. induction n as [|n IH]; intros m x Hn Hm; [lia|].
  destruct m as [|m]; [lia|]. simpl.
  destruct (h !! x) as [c|] eqn:Hc; simpl; [|done].
  destruct (negb recursive); [done|]. destruct (IsRoot c || IsPortoRoot c); [done|].
  destruct (Parent c) as [p|] eqn:Hp; simpl; [|done].
  destruct (h !! p) as [cp|]; simpl; [|done]. destruct (IsPortoRoot cp); [done|].
  destruct (Hwf x c p Hc Hp) as [Hlt _]. rewrite (IH m p) by lia. done.
Qed.

(** The full name of a container is made of its own name, after the full
    name of its parent if that is not the porto root. *)
Lemma GetName_fuel_ends n h x c sep :
  hwf_parent h →
  (∀ y cy, h !! y = Some cy → IsRoot cy || IsPortoRoot cy = false → is_Some (Parent cy)) →
  x < n → h !! x = Some c →
  ∃ s, GetName_fuel n h x true sep = Some s ∧
       (s = Name c ∨ ∃ pre, s = pre +:+ sep +:+ Name c).
Proof.
  intros Hwf Hpar. revert x c. induction n as [|n IH]; intros x c Hn Hc; [lia|].
  simpl. rewrite Hc. simpl.
  destruct (IsRoot c || IsPortoRoot c) eqn:Hroot; [eauto|].
  destruct (Hpar x c Hc Hroot) as [p Hp]. rewrite Hp. simpl.
  destruct (Hwf x c p Hc Hp) as [Hlt [cp Hcp]]. rewrite Hcp. simpl.
  destruct (IsPortoRoot cp); [eauto|].
  destruct (IH p cp) as (s & -> & _); [lia|done|]. simpl. eauto.
Qed.

(** RelativeName succeeds for the containers whose full name extends the
    namespace, and returns the extension. *)
Lemma RelativeName_spec R ns w this x cx n name :
  Containers w !! x = Some cx → IsRoot cx = false →
  GetName w x true "/" = Some n →
  RelativeName R ns w this x = Some (inr name) ↔
  n = GetPortoNamespace ns w this +:+ name ∧
  (GetPortoNamespace ns w this = "" ∨ name ≠ "").
Proof.
  intros Hx Hroot Hn. unfold RelativeName. rewrite Hx. simpl. rewrite Hroot, Hn. simpl.
  set (nsp := GetPortoNamespace ns w this).
  destruct (decide (nsp = "")) as [He|He].
  { rewrite He. split; [intros [= ->]; auto|]. intros [-> _]. done. }
  destruct (decide (String.length n ≤ String.length nsp)) as [Hlen|Hlen].
  { rewrite (bool_decide_eq_true_2 _ Hlen). simpl. split; [done|].
    intros [-> [?|Hne]]; [done|]. rewrite length_app_string in Hlen.
    destruct name; [done|]. simpl in Hlen. lia. }
  rewrite (bool_decide_eq_false_2 _ Hlen). simpl.
  destruct (decide (String.substring 0 (String.length nsp) n = nsp)) as [Hpre|Hpre].
  - rewrite (bool_decide_eq_true_2 _ Hpre). simpl.
    assert (n = nsp +:+ substr (String.length nsp) n) as Hsplit.
    { rewrite <- Hpre at 1. symmetry. apply substring_substr. lia. }
    split.
    + intros [= <-]. split; [done|]. right. intros Hempty.
      rewrite Hempty, app_string_nil_r in Hsplit. subst n. lia.
    + intros [-> _]. by rewrite substr_app_length.
  - rewrite (bool_decide_eq_false_2 _ Hpre). simpl. split; [done|].
    intros [-> _]. by rewrite substring_app_length in Hpre.
Qed.

(** X17. RelativeName shows a client the containers of its namespace, and
    no other: for a container that is not the host root it succeeds
    exactly when the full name of the container is the client's namespace
    followed by a name, which is not empty unless the namespace is, and
    it returns that name; otherwise it fails with ContainerDoesNotExist. *)
Theorem RelativeName_shows_the_namespace_only
    (R : TReservedNames) (ns : nat → string) (w : TWorld) (this x : nat)
    (cx : TContainer) (n : string) :
  Containers w !! x = Some cx →
  IsRoot cx = false →
  GetName w x true "/" = Some n →
  (∀ name, RelativeName R ns w this x = Some (inr name) ↔
           n = GetPortoNamespace ns w this +:+ name ∧
           (GetPortoNamespace ns w this = "" ∨ name ≠ "")) ∧
  (∀ e, RelativeName R ns w this x = Some (inl e) → e = TError_of ContainerDoesNotExist).
Proof.
  intros Hx Hroot Hn. split.
  - intros name. by apply (RelativeName_spec R ns w this x cx).
  - intros e. unfold RelativeName. rewrite Hx. simpl. rewrite Hroot, Hn. simpl.
    repeat case_match; congruence.
Qed.

Lemma RelativeName_shows_the_namespace_only_witness :
  (∀ name, RelativeName reservedNames sampleNamespace namedWorld 2 3 = Some (inr name) ↔
           "a/b" = GetPortoNamespace sampleNamespace namedWorld 2 +:+ name ∧
           (GetPortoNamespace sampleNamespace namedWorld 2 = "" ∨ name ≠ "")) ∧
  (∀ e, RelativeName reservedNames sampleNamespace namedWorld 2 3 = Some (inl e) →
        e = TError_of ContainerDoesNotExist).
Proof.
  destruct (Containers namedWorld !! 3) as [cx|] eqn:Hc; [|vm_compute in Hc; discriminate].
  apply (RelativeName_shows_the_namespace_only
           reservedNames sampleNamespace namedWorld 2 3 cx "a/b" Hc).
  - vm_compute in Hc. injection Hc as <-. reflexivity.
  - vm_compute. reflexivity.
Defined.

(** X18. A name that a client gives, other than the reserved names and
    the empty name, is resolved by AbsoluteName to the namespace of the
    client followed by the name; RelativeName of the container that has
    this full name gives the client's name back. *)
Theorem AbsoluteName_RelativeName_round_trip
    (R : TReservedNames) (ns : nat → string) (w : TWorld) (this x : nat)
    (cx : TContainer) (orig : string) (resolve_meta : bool) :
  orig ≠ "" →
  orig ≠ ROOT_CONTAINER R → orig ≠ PORTO_ROOT_CONTAINER R → orig ≠ DOT_CONTAINER R →
  AbsoluteName R ns w this orig resolve_meta
    = inr (GetPortoNamespace ns w this +:+ orig) ∧
  (Containers w !! x = Some cx → IsRoot cx = false →
   GetName w x true "/" = Some (GetPortoNamespace ns w this +:+ orig) →
   RelativeName R ns w this x = Some (inr orig)).
Proof.
  intros He H1 H2 H3. split.
  - unfold AbsoluteName. rewrite !bool_decide_eq_false_2 by done.
    rewrite andb_false_r. simpl. by rewrite decide_False.
  - intros Hx Hroot Hn. apply (RelativeName_spec R ns w this x cx _ _ Hx Hroot Hn). auto.
Qed.

Lemma AbsoluteName_RelativeName_round_trip_witness :
  AbsoluteName reservedNames sampleNamespace namedWorld 2 "b" false
    = inr (GetPortoNamespace sampleNamespace namedWorld 2 +:+ "b") ∧
  RelativeName reservedNames sampleNamespace namedWorld 2 3 = Some (inr "b").
Proof.
  destruct (Containers namedWorld !! 3) as [cx|] eqn:Hc; [|vm_compute in Hc; discriminate].
  destruct (AbsoluteName_RelativeName_round_trip
              reservedNames sampleNamespace namedWorld 2 3 cx "b" false)
    as [Habs Hrel]; [discriminate|discriminate|discriminate|discriminate|].
  split; [exact Habs|]. apply Hrel.
  - exact Hc.
  - vm_compute in Hc. injection Hc as <-. reflexivity.
  - vm_compute. reflexivity.
Defined.

(** X19. In a tree where every container but the two roots has a parent,
    GetName returns a full name for every container, and StripParentName
    gives the container's own name back from it, when that has no '/'
    and the full name is not a reserved one. *)
Theorem StripParentName_of_GetName
    (R : TReservedNames) (w : TWorld) (this : nat) (c : TContainer) :
  wf w →
  (∀ y cy, Containers w !! y = Some cy → IsRoot cy || IsPortoRoot cy = false →
           is_Some (Parent cy)) →
  Containers w !! this = Some c →
  ∃ s, GetName w this true "/" = Some s ∧
       (rfind slash (Name c) = None →
        s ≠ ROOT_CONTAINER R → s ≠ PORTO_ROOT_CONTAINER R →
        StripParentName R s = Name c).
Proof.
  intros Hwf Hpar Hc.
  destruct (GetName_fuel_ends (S this) (Containers w) this c "/") as (s & Hs & Hend);
    [by apply wf_hwf_parent|done|lia|done|].
  exists s. split; [done|]. intros Hleaf H1 H2.
  destruct Hend as [->|[pre ->]].
  - unfold StripParentName. rewrite !decide_False by done. by rewrite Hleaf.
  - unfold StripParentName. rewrite !decide_False by done.
    rewrite rfind_app. change ("/" +:+ Name c) with (String slash (Name c)).
    cbn [rfind]. rewrite Hleaf, decide_True by done.
    replace (S (String.length pre + 0)) with (String.length (pre +:+ "/")).
    2:{ rewrite length_app_string. simpl. lia. }
    change (String slash (Name c)) with ("/" +:+ Name c).
    rewrite <- app_string_assoc. apply substr_app_length.
Qed.

Lemma StripParentName_of_GetName_witness :
  ∃ c s, Containers namedWorld !! 3 = Some c ∧
         GetName namedWorld 3 true "/" = Some s ∧
         (rfind slash (Name c) = None →
          s ≠ ROOT_CONTAINER reservedNames → s ≠ PORTO_ROOT_CONTAINER reservedNames →
          StripParentName reservedNames s = Name c).
Proof.
  destruct (Containers namedWorld !! 3) as [c|] eqn:Hc; [|vm_compute in Hc; discriminate].
  destruct (StripParentName_of_GetName reservedNames namedWorld 3 c) as (s & Hs).
  - apply wf_check_sound. vm_compute. reflexivity.
  - apply (map_Forall_lookup
             (λ _ cy, IsRoot cy || IsPortoRoot cy = false → is_Some (Parent cy))).
    apply (bool_decide_unpack _). vm_compute. exact I.
  - exact Hc.
  - exists c, s. split; [reflexivity|exact Hs].
Defined.

End NameFacts.

Section AcquireFacts.
Import TContainer.

Implicit Types (h : gmap nat TContainer) (c : TContainer).

Lemma IsAcquired_fuel_spec n h r :
  IsAcquired_fuel n h r = true ↔
  ∃ a ca, a ∈ chain_fuel n h r ∧ h !! a = Some ca ∧ Acquired ca = true.
Proof.
  revert r. induction n as [|n IH]; intros r; simpl.
  { split; [done|]. intros (a & ca & Ha & _). by apply elem_of_nil in Ha. }
  destruct (h !! r) as [c|] eqn:Hc.
  2:{ split; [done|]. intros (a & ca & Ha & _). by apply elem_of_nil in Ha. }
  rewrite orb_true_iff. split.
  - intros [Hacq|Hup].
    + exists r, c. split; [apply list_elem_of_here|done].
    + destruct (Parent c) as [p|]; [|done]. apply IH in Hup as (a & ca & Ha & Hca).
      exists a, ca. split; [by apply list_elem_of_further|done].
  - intros (a & ca & Ha & Hca & Hacq). apply elem_of_cons in Ha as [->|Ha].
    + left. congruence.
    + right. destruct (Parent c) as [p|]; [|by apply elem_of_nil in Ha].
      apply IH. eauto.
Qed.

Lemma chain_upd w this f r :
  (∀ c, Parent (f c) = Parent c) →
  chain (Containers (upd this f w)) r = chain (Containers w) r.
Proof.
  intros Hf. apply chain_fuel_ext. intros x. rewrite lookup_upd.
  case_decide; [|done]. destruct (Containers w !! x); simpl; [|done]. by rewrite Hf.
Qed.

(** X20. Acquire succeeds exactly when neither the container nor any of
    its ancestors is acquired; the flags of its descendants are not
    looked at.  Once it has succeeded, Acquire fails, and changes
    nothing, on every container that has this one on its chain of
    ancestors. *)
Theorem Acquire_excludes_the_subtree (w : TWorld) (this : nat) (c : TContainer) :
  Containers w !! this = Some c →
  ((Acquire w this).1 = true ↔
   ∀ a ca, a ∈ chain (Containers w) this → Containers w !! a = Some ca →
           Acquired ca = false) ∧
  ((Acquire w this).1 = true →
   ∀ d, this ∈ chain (Containers w) d →
        Acquire (Acquire w this).2 d = (false, (Acquire w this).2)).
Proof.
  intros Hc.
  assert (IsAcquired w this = false ↔
          ∀ a ca, a ∈ chain (Containers w) this → Containers w !! a = Some ca →
                  Acquired ca = false) as Hfree.
  { rewrite <- not_true_iff_false. unfold IsAcquired. rewrite IsAcquired_fuel_spec.
    split.
    - intros Hno a ca Ha Hca. destruct (Acquired ca) eqn:E; [|done].
      exfalso. apply Hno. by exists a, ca.
    - intros Hall (a & ca & Ha & Hca & Hacq). rewrite (Hall a ca Ha Hca) in Hacq. done. }
  unfold Acquire. destruct (IsAcquired w this) eqn:Hacq; simpl.
  - split; [|done]. split; [done|]. intros Hall. symmetry. by apply Hfree.
  - split; [split; [intros _; by apply Hfree|done]|].
    intros _ d Hd.
    assert (IsAcquired (upd this (set_Acquired true) w) d = true) as ->; [|done].
    unfold IsAcquired. apply IsAcquired_fuel_spec.
    exists this, (set_Acquired true c). split; [|split; [|done]].
    + change (this ∈ chain (Containers (upd this (set_Acquired true) w)) d).
      by rewrite chain_upd.
    + by rewrite lookup_upd, decide_True, Hc.
Qed.

Lemma Acquire_excludes_the_subtree_witness :
  ((Acquire namedWorld 2).1 = true ↔
   ∀ a ca, a ∈ chain (Containers namedWorld) 2 → Containers namedWorld !! a = Some ca →
           Acquired ca = false) ∧
  ((Acquire namedWorld 2).1 = true →
   ∀ d, 2 ∈ chain (Containers namedWorld) d →
        Acquire (Acquire namedWorld 2).2 d = (false, (Acquire namedWorld 2).2)).
Proof.
  destruct (Containers namedWorld !! 2) as [c|] eqn:Hc; [|vm_compute in Hc; discriminate].
  apply (Acquire_excludes_the_subtree namedWorld 2 c Hc).
Defined.

(** X21. Release undoes Acquire: after an Acquire that has succeeded,
    Release gives back the world as it was before. *)
Theorem Acquire_then_Release (w : TWorld) (this : nat) :
  (Acquire w this).1 = true →
  Release (Acquire w this).2 this = w.
Proof.
  unfold Acquire. destruct (IsAcquired w this) eqn:Hacq; simpl; [done|]. intros _.
  unfold Release, upd, set_Containers. destruct w as [h nr es lb q st]. simpl. f_equal.
  apply map_eq. intros r. destruct (decide (this = r)) as [->|Hne].
  - rewrite !lookup_alter_eq. destruct (h !! r) as [c|] eqn:Hc; [|done]. simpl. f_equal.
    unfold IsAcquired in Hacq. simpl in Hacq. rewrite Hc in Hacq.
    apply orb_false_iff in Hacq as [Hacq _]. destruct c. simpl in *. by subst.
  - by rewrite !lookup_alter_ne.
Qed.

Lemma Acquire_then_Release_witness :
  Release (Acquire namedWorld 2).2 2 = namedWorld.
Proof. apply (Acquire_then_Release namedWorld 2). vm_compute. reflexivity. Defined.

(** X22. GetRoot, with the fuel TMemoryGuaranteeProperty::CheckValue
    gives it, ends on an ancestor of the container, or the container
    itself, that has no parent. *)
Theorem GetRoot_reaches_the_top (w : TWorld) (this : nat) (c : TContainer) :
  wf w →
  Containers w !! this = Some c →
  GetRoot_fuel this (Containers w) this ∈ chain (Containers w) this ∧
  ∃ cr, Containers w !! GetRoot_fuel this (Containers w) this = Some cr ∧
        Parent cr = None.
Proof.
  intros Hwf. pose proof (wf_hwf_parent w Hwf) as Hp.
  generalize (Containers w) Hp. clear. intros h Hp.
  assert (∀ n x cx, x ≤ n → h !! x = Some cx →
            GetRoot_fuel n h x ∈ chain h x ∧
            ∃ cr, h !! GetRoot_fuel n h x = Some cr ∧ Parent cr = None) as Hgen.
  { induction n as [|n IH]; intros x cx Hn Hx.
    - simpl. split; [apply chain_self; eauto|].
      exists cx. split; [done|]. destruct (Parent cx) as [p|] eqn:Hpar; [|done].
      destruct (Hp x cx p Hx Hpar). lia.
    - simpl. rewrite Hx. simpl. destruct (Parent cx) as [p|] eqn:Hpar.
      + destruct (Hp x cx p Hx Hpar) as [Hlt [cp Hcp]].
        destruct (IH p cp) as [Hin Htop]; [lia|done|]. split; [|done].
        unfold chain. simpl. rewrite Hx, Hpar. apply list_elem_of_further.
        rewrite (chain_fuel_stable x (S p)) by (done || lia). exact Hin.
      + split; [apply chain_self; eauto|]. eauto. }
  intros Hc. by apply (Hgen this this c).
Qed.

Lemma GetRoot_reaches_the_top_witness :
  GetRoot_fuel 3 (Containers namedWorld) 3 ∈ chain (Containers namedWorld) 3 ∧
  ∃ cr, Containers namedWorld !! GetRoot_fuel 3 (Containers namedWorld) 3 = Some cr ∧
        Parent cr = None.
Proof.
  destruct (Containers namedWorld !! 3) as [c|] eqn:Hc; [|vm_compute in Hc; discriminate].
  apply (GetRoot_reaches_the_top namedWorld 3 c); [|exact Hc].
  apply wf_check_sound. vm_compute. reflexivity.
Defined.

End AcquireFacts.

Section CleanupFacts.
Import TContainer.

Implicit Types (h : gmap nat TContainer) (c : TContainer).

Lemma fold_left_filter {A B} (g : A → B → A) (P : B → Prop) `{∀ x, Decision (P x)}
    (l : list B) (a : A) :
  (∀ a x, ¬ P x → g a x = a) →
  fold_left g (filter P l) a = fold_left g l a.
Proof.
  intros Hg. revert a. induction l as [|x l IH]; intros a; simpl; [done|].
  rewrite filter_cons. case_decide; simpl; [done|]. by rewrite Hg.
Qed.

Lemma GetChildrenSum_fuel_cleanup n w this r property except exceptVal :
  GetChildrenSum_fuel n (Containers (CleanupExpiredChildren w this)) r property
      except exceptVal
    = GetChildrenSum_fuel n (Containers w) r property except exceptVal.
Proof.
  set (h := Containers w). set (h' := Containers (CleanupExpiredChildren w this)).
  assert (∀ x, h' !! x =
            (if decide (this = x)
             then λ c, set_Children (filter (λ k, is_Some (h !! k)) (Children c)) c
             else id) <$> h !! x) as Hl.
  { intros x. unfold h', CleanupExpiredChildren. rewrite lookup_upd.
    case_decide; [done|]. by rewrite option_fmap_id. }
  clearbody h h'. revert r. induction n as [|n IH]; intros r; simpl; [done|].
  rewrite (Hl r). destruct (h !! r) as [c|] eqn:Hc; simpl; [|done].
  set (g' := λ val child, match h' !! child with Some cc => _ | None => val end).
  set (g := λ val child, match h !! child with Some cc => _ | None => val end).
  assert (∀ l a, fold_left g' l a = fold_left g l a) as Hg.
  { induction l as [|k l IHl]; intros a; simpl; [done|]. rewrite IHl. f_equal.
    unfold g', g. rewrite (Hl k). destruct (h !! k) as [ck|]; simpl; [|done].
    rewrite IH. destruct (decide (this = k)); done. }
  rewrite Hg. case_decide; simpl; [|done].
  apply fold_left_filter. intros a k Hk. unfold g.
  destruct (h !! k); [|done]. exfalso. apply Hk. eauto.
Qed.

(** X23. CleanupExpiredChildren erases from the children list exactly the
    references to objects that are gone, and keeps the order of the
    others.  The tree stays well formed, the running-children counters
    stay right, and every children sum is what it was. *)
Theorem CleanupExpiredChildren_keeps_the_living (w : TWorld) (this : nat) (c : TContainer) :
  wf w →
  Containers w !! this = Some c →
  (Children <$> Containers (CleanupExpiredChildren w this) !! this
     = Some (filter (λ k, is_Some (Containers w !! k)) (Children c))) ∧
  wf (CleanupExpiredChildren w this) ∧
  (counters_ok w → counters_ok (CleanupExpiredChildren w this)) ∧
  (∀ r property except exceptVal,
     GetChildrenSum (CleanupExpiredChildren w this) r property except exceptVal
       = GetChildrenSum w r property except exceptVal).
Proof.
  intros Hwf Hc.
  assert (∀ x, Containers (CleanupExpiredChildren w this) !! x =
            (if decide (this = x)
             then λ c, set_Children
                         (filter (λ k, is_Some (Containers w !! k)) (Children c)) c
             else id) <$> Containers w !! x) as Hl.
  { intros x. unfold CleanupExpiredChildren. rewrite lookup_upd.
    case_decide; [done|]. by rewrite option_fmap_id. }
  split; [by rewrite Hl, decide_True, Hc|]. split; [|split].
  - destruct Hwf as [Hb Hp Hch Hcb]. split.
    + intros r cr. rewrite Hl. destruct (Containers w !! r) as [c0|] eqn:Hr; [|done].
      intros _. by apply (Hb r c0).
    + intros r cr p. rewrite Hl. destruct (Containers w !! r) as [c0|] eqn:Hr; [|done].
      simpl. intros [= <-] Hpar.
      assert (Parent c0 = Some p) as Hpar0 by (by destruct (decide (this = r))).
      destruct (Hp r c0 p Hr Hpar0) as [Hlt [cp Hcp]]. split; [done|].
      rewrite Hl, Hcp. simpl. eauto.
    + intros r cr k ck. rewrite !Hl.
      destruct (Containers w !! r) as [c0|] eqn:Hr; [|done].
      destruct (Containers w !! k) as [ck0|] eqn:Hk; [|by intros _ _ ?].
      simpl. intros [= <-] Hin [= <-].
      assert (k ∈ Children c0) as Hin0.
      { destruct (decide (this = r)); [|done]. simpl in Hin.
        by apply list_elem_of_filter in Hin as [_ ?]. }
      pose proof (Hch r c0 k ck0 Hr Hin0 Hk). by destruct (decide (this = k)).
    + intros r cr k. rewrite Hl. destruct (Containers w !! r) as [c0|] eqn:Hr; [|done].
      simpl. intros [= <-] Hin. apply (Hcb r c0); [done|].
      destruct (decide (this = r)); [|done]. simpl in Hin.
      by apply list_elem_of_filter in Hin as [_ ?].
  - intros Hcnt. apply (counters_ok_ccore w); [done|]. intros r. rewrite Hl.
    destruct (Containers w !! r); simpl; [|done]. by destruct (decide (this = r)).
  - intros r property except exceptVal. unfold GetChildrenSum.
    rewrite GetChildrenSum_fuel_cleanup. done.
Qed.

Lemma CleanupExpiredChildren_keeps_the_living_witness :
  Children <$> Containers (CleanupExpiredChildren expiredWorld 2) !! 2 = Some [4] ∧
  wf (CleanupExpiredChildren expiredWorld 2).
Proof.
  destruct (Containers expiredWorld !! 2) as [c|] eqn:Hc; [|vm_compute in Hc; discriminate].
  destruct (CleanupExpiredChildren_keeps_the_living expiredWorld 2 c) as (H1 & H2 & _).
  - apply wf_check_sound. vm_compute. reflexivity.
  - exact Hc.
  - split; [|exact H2]. rewrite H1. vm_compute in Hc. injection Hc as <-.
    vm_compute. reflexivity.
Defined.

End CleanupFacts.

Section PropertyChecks.

(** X24. The cpu policy check accepts "normal", and "rt" on a kernel with
    the cpu.smart knob, and nothing else: "idle", which the description
    of the property offers, is answered with NotSupported, and any other
    string with InvalidValue.  A value written through the alias
    cpu.smart is never answered with InvalidValue. *)
Theorem cpu_policy_accepts_normal_and_rt (hasSmartKnob : bool) (value : string) :
  (TCpuPolicyProperty.CheckValue hasSmartKnob value = TError_Success ↔
   value = "normal" ∨ (value = "rt" ∧ hasSmartKnob = true)) ∧
  (TCpuPolicyProperty.CheckValue hasSmartKnob value = TError_of NotSupported ↔
   value = "idle" ∨ (value = "rt" ∧ hasSmartKnob = false)) ∧
  (TCpuPolicyProperty.CheckValue hasSmartKnob value = TError_of InvalidValue ↔
   value ≠ "normal" ∧ value ≠ "rt" ∧ value ≠ "idle") ∧
  TCpuPolicyProperty.CheckValue hasSmartKnob
      (TContainer.AliasToProperty "cpu.smart" value).2
    ≠ TError_of InvalidValue.
Proof.
  unfold TCpuPolicyProperty.CheckValue, TContainer.AliasToProperty. simpl.
  repeat split.
  - repeat (case_bool_decide; simpl; subst; try done); destruct hasSmartKnob; simpl;
      try done; naive_solver.
  - intros [-> | [-> ->]]; done.
  - repeat (case_bool_decide; simpl; subst; try done); destruct hasSmartKnob; simpl;
      try done; naive_solver.
  - intros [-> | [-> ->]]; done.
  - repeat (case_bool_decide; simpl; subst; try done); destruct hasSmartKnob; simpl; done.
  - repeat (case_bool_decide; simpl; subst; try done); destruct hasSmartKnob; simpl; done.
  - repeat (case_bool_decide; simpl; subst; try done); destruct hasSmartKnob; simpl; done.
  - intros (? & ? & ?). by rewrite !bool_decide_eq_false_2.
  - case_decide; simpl; destruct hasSmartKnob; simpl; done.
Qed.

End PropertyChecks.

Section NetMapChecks.

Lemma GetDefault_lookup isRoot RootDef Def (links : list string) k :
  TNetMapValue.GetDefault isRoot RootDef Def links !! k =
    if bool_decide (k ∈ links) then Some (if isRoot then RootDef else Def) else None.
Proof.
  unfold TNetMapValue.GetDefault. set (def := if isRoot then RootDef else Def).
  assert (∀ m : TUintMap,
            fold_left (λ m alias, <[alias := def]> m) links m !! k =
              if bool_decide (k ∈ links) then Some def else m !! k) as Hgen.
  { induction links as [|l links IH]; intros m; simpl; [done|].
    rewrite IH. destruct (decide (k ∈ links)) as [Hin|Hin].
    - rewrite !bool_decide_eq_true_2; [done| |done]. by apply list_elem_of_further.
    - rewrite (bool_decide_eq_false_2 _ Hin). destruct (decide (l = k)) as [->|Hne].
      + rewrite lookup_insert_eq, bool_decide_eq_true_2; [done|apply list_elem_of_here].
      + rewrite lookup_insert_ne by done. rewrite bool_decide_eq_false_2; [done|].
        rewrite elem_of_cons. naive_solver. }
  rewrite Hgen. by rewrite lookup_empty.
Qed.

Lemma forallb_map_to_list (P : string → Z → bool) (value : TUintMap) :
  forallb (λ kv : string * Z, P kv.1 kv.2) (map_to_list value) = true ↔
  ∀ k v, value !! k = Some v → P k v = true.
Proof.
  rewrite forallb_forall. split.
  - intros H k v Hkv. apply (H (k, v)). apply list_elem_of_In.
    by apply elem_of_map_to_list.
  - intros H [k v] Hin. apply H. apply elem_of_map_to_list. by apply list_elem_of_In.
Qed.

Lemma TNetMapValue_CheckValue_spec (links : list string) (value : TUintMap) :
  TNetMapValue.CheckValue links value = TError_Success ↔
  ∀ k v, value !! k = Some v → k ∈ links.
Proof.
  unfold TNetMapValue.CheckValue.
  pose proof (forallb_map_to_list (λ k _, bool_decide (k ∈ links)) value) as H.
  simpl in H. destruct (forallb _ _).
  - split; [|done]. intros _ k v Hkv. eapply bool_decide_eq_true_1, H; done.
  - split; [done|]. intros Hall. exfalso.
    assert (false = true); [|done]. apply H. intros k v Hkv.
    apply bool_decide_eq_true_2. by eapply Hall.
Qed.

(** X25. The check of a network map accepts the maps whose keys are
    aliases of links, so also a map that leaves links out, and the
    default of the property passes it; the check of the network priority
    accepts exactly the maps whose keys are aliases of links and whose
    values are at most 7, and answers any other with InvalidValue. *)
Theorem net_priority_accepts_known_links_up_to_7
    (links : list string) (value : TUintMap) (isRoot : bool) (RootDef Def : Z) :
  TNetMapValue.CheckValue links (TNetMapValue.GetDefault isRoot RootDef Def links)
    = TError_Success ∧
  (TNetPriorityProperty.CheckValue links value = TError_Success ↔
   ∀ k v, value !! k = Some v → k ∈ links ∧ (v ≤ 7)%Z) ∧
  (TNetPriorityProperty.CheckValue links value = TError_Success ∨
   TNetPriorityProperty.CheckValue links value = TError_of InvalidValue).
Proof.
  split; [|split].
  - apply TNetMapValue_CheckValue_spec. intros k v. rewrite GetDefault_lookup.
    case_bool_decide; done.
  - unfold TNetPriorityProperty.CheckValue.
    pose proof (TNetMapValue_CheckValue_spec links value) as Hkeys.
    pose proof (forallb_map_to_list (λ _ v, bool_decide (v ≤ 7)%Z) value) as Hvals.
    simpl in Hvals.
    destruct (is_error (TNetMapValue.CheckValue links value)) eqn:He.
    + split.
      * intros Hs. rewrite Hs in He. done.
      * intros Hall. exfalso. assert (TNetMapValue.CheckValue links value = TError_Success) as Hs.
        { apply Hkeys. intros k v Hkv. by destruct (Hall k v Hkv). }
        rewrite Hs in He. done.
    + assert (TNetMapValue.CheckValue links value = TError_Success) as Hs.
      { unfold TNetMapValue.CheckValue in *. by destruct (forallb _ _). }
      destruct (forallb _ _).
      * split; [|done]. intros _ k v Hkv. split; [by eapply Hkeys|].
        eapply bool_decide_eq_true_1, Hvals; done.
      * split; [done|]. intros Hall. exfalso. assert (false = true); [|done].
        apply Hvals. intros k v Hkv. apply bool_decide_eq_true_2.
        by destruct (Hall k v Hkv).
  - unfold TNetPriorityProperty.CheckValue, TNetMapValue.CheckValue.
    repeat (destruct (forallb _ _); simpl); auto.
Qed.

End NetMapChecks.

Section CapabilityChecks.
Import TCapabilitiesProperty.

Lemma CheckLines_bits (lines : list string) (allowed caps : Z) (i : Z) :
  (0 ≤ i)%Z →
  CheckLines lines allowed = Some caps →
  (Z.testbit caps i = true ↔
   Z.testbit allowed i = true ∨
   ∃ line d, line ∈ lines ∧ find line supported = Some d ∧ id d = i).
Proof.
  intros Hi. revert allowed. induction lines as [|line rest IH]; intros allowed; cbn [CheckLines].
  - intros [= ->]. split; [auto|]. intros [?|(l & d & Hl & _)]; [done|].
    by apply elem_of_nil in Hl.
  - destruct (find line supported) as [d|] eqn:Hd; [|done]. intros Hrest.
    rewrite (IH _ Hrest), Z.lor_spec, orb_true_iff. split.
    + intros [[Ha|Hb]|(l & d' & Hl & Hd' & Hid)].
      * by left.
      * right. exists line, d. repeat split; [apply list_elem_of_here|done|].
        destruct (decide (id d = i)) as [?|Hne]; [done|].
        rewrite Z.shiftl_1_l, Z.pow2_bits_false in Hb; [done|congruence].
      * right. exists l, d'. split; [by apply list_elem_of_further|done].
    + intros [Ha|(l & d' & Hl & Hd' & Hid)]; [auto|].
      apply elem_of_cons in Hl as [->|Hl].
      * left. right. assert (d' = d) as -> by congruence. subst i.
        rewrite Z.shiftl_1_l. by apply Z.pow2_bits_true.
      * right. eauto.
Qed.

Lemma CheckLines_supported (lines : list string) (allowed : Z) :
  is_Some (CheckLines lines allowed) ↔
  ∀ line, line ∈ lines → is_Some (find line supported).
Proof.
  revert allowed. induction lines as [|line rest IH]; intros allowed; cbn [CheckLines].
  - split; [|eauto]. intros _ l Hl. by apply elem_of_nil in Hl.
  - destruct (find line supported) as [d|] eqn:Hd.
    + rewrite IH. split.
      * intros H l Hl. apply elem_of_cons in Hl as [->|Hl]; [by rewrite Hd|auto].
      * intros H l Hl. apply H. by apply list_elem_of_further.
    + split; [by intros [? ?]|]. intros H. specialize (H line (list_elem_of_here _ _)).
      rewrite Hd in H. by destruct H.
Qed.

(** X26. The capabilities check succeeds exactly when every line is the
    name of a supported capability; Caps is then the bit mask of the
    capabilities listed: a bit is set if and only if a line names the
    capability with that number.  When a line is not supported the
    answer is InvalidValue and Caps is left as it was.  The default list
    of the property passes the check. *)
Theorem capabilities_check_builds_the_mask (lines : list string) (Caps : Z) :
  ((CheckValue lines Caps).1 = TError_Success ↔
   ∀ line, line ∈ lines → is_Some (find line supported)) ∧
  ((CheckValue lines Caps).1 = TError_Success →
   ∀ i, (0 ≤ i)%Z →
     (Z.testbit (CheckValue lines Caps).2 i = true ↔
      ∃ line d, line ∈ lines ∧ find line supported = Some d ∧ id d = i)) ∧
  ((CheckValue lines Caps).1 ≠ TError_Success →
   CheckValue lines Caps = (TError_of InvalidValue, Caps)) ∧
  (∀ root restricted, (CheckValue (GetDefault root restricted) Caps).1 = TError_Success).
Proof.
  unfold CheckValue. pose proof (CheckLines_supported lines 0) as Hsup.
  split; [|split; [|split]].
  - destruct (CheckLines lines 0) as [caps|]; simpl.
    + split; [|done]. intros _. apply Hsup. eauto.
    + split; [done|]. intros H. apply Hsup in H. by destruct H.
  - destruct (CheckLines lines 0) as [caps|] eqn:Hc; simpl; [|done].
    intros _ i Hi. rewrite (CheckLines_bits lines 0 caps i Hi Hc), Z.bits_0.
    naive_solver.
  - by destruct (CheckLines lines 0).
  - intros [|] [|]; vm_compute; reflexivity.
Qed.

End CapabilityChecks.

Section BindChecks.
Import TBindProperty.

Lemma CheckLines_sources split (ex : string → bool) lines bm e bm' :
  CheckLines split ex lines bm = (e, bm') →
  Forall (λ m, ex (Source m) = true) bm →
  Forall (λ m, ex (Source m) = true) bm' ∧
  (e = TError_Success → length bm' = length bm + length lines).
Proof.
  revert bm. induction lines as [|line rest IH]; intros bm; simpl.
  - intros [= <- <-] Hbm. split; [done|]. lia.
  - destruct (split line) as [err tok]. destruct (is_error err) eqn:Herr.
    { intros [= <- <-] Hbm. split; [done|]. intros ->. done. }
    assert (∀ s d ro, ex s = true →
              CheckLines split ex rest (bm ++ [mkBindMap s d ro]) = (e, bm') →
              Forall (λ m, ex (Source m) = true) bm →
              Forall (λ m, ex (Source m) = true) bm' ∧
              (e = TError_Success → length bm' = length bm + S (length rest))) as Hpush.
    { intros s d ro Hs Hrest Hbm. destruct (IH _ Hrest) as [H1 H2].
      - apply Forall_app. split; [done|]. by repeat constructor.
      - split; [done|]. intros He. rewrite (H2 He), length_app. simpl. lia. }
    destruct tok as [|s [|d [|t [|]]]]; try (intros [= <- <-] Hbm; by split).
    + destruct (ex s) eqn:Hs; simpl; [by apply Hpush|]. intros [= <- <-] Hbm. by split.
    + repeat case_decide; destruct (ex s) eqn:Hs; simpl;
        try (by apply Hpush); intros [= <- <-] Hbm; by split.
Qed.

(** X27. The bind check drops the binds it held only when the new list is
    not empty: for an empty list it succeeds and the bind map stays as
    it was.  For a list that is not empty and passes, the bind map has
    one bind for each line and the source of every bind exists. *)
Theorem bind_check_keeps_binds_for_an_empty_list
    (SplitEscapedString : string → TError * list string) (Exists : string → bool)
    (lines : list string) (BindMap : list TBindMap) :
  CheckValue SplitEscapedString Exists [] BindMap = (TError_Success, BindMap) ∧
  (lines ≠ [] →
   (CheckValue SplitEscapedString Exists lines BindMap).1 = TError_Success →
   length (CheckValue SplitEscapedString Exists lines BindMap).2 = length lines ∧
   Forall (λ m, Exists (Source m) = true)
     (CheckValue SplitEscapedString Exists lines BindMap).2).
Proof.
  split; [done|]. intros Hne Hok. unfold CheckValue in *.
  rewrite bool_decide_eq_true_2 in * by done.
  destruct (CheckLines SplitEscapedString Exists lines []) as [e bm'] eqn:E.
  destruct (CheckLines_sources _ _ _ _ _ _ E) as [H1 H2]; [constructor|].
  simpl in *. split; [by apply H2|done].
Qed.

End BindChecks.

Section TrafficClassFacts.
Import TNetwork.

Implicit Types (cache : list TClass) (hs : list Z).

Lemma PushChildren_app cache h hs :
  PushChildren cache h hs = hs ++ (handle <$> filter (λ o, parent o = h) cache).
Proof.
  unfold PushChildren. revert hs. induction cache as [|o cache IH]; intros hs; simpl.
  - by rewrite app_nil_r.
  - rewrite IH, filter_cons. case_decide; [|done]. by rewrite <- app_assoc.
Qed.

Lemma NoDup_fmap_filter cache (P : TClass → Prop) `{∀ o, Decision (P o)} :
  NoDup (handle <$> cache) → NoDup (handle <$> filter P cache).
Proof.
  induction cache as [|o cache IH]; simpl; [done|]. rewrite filter_cons.
  intros Hnd. apply NoDup_cons in Hnd as [Ho Hnd]. case_decide; [|auto].
  csimpl. apply NoDup_cons. split; [|auto]. intros Hin. apply Ho.
  apply list_elem_of_fmap in Hin as (o' & -> & Hin'). apply list_elem_of_filter in Hin' as [_ ?].
  apply list_elem_of_fmap. eauto.
Qed.

Lemma handle_inj cache o o' :
  NoDup (handle <$> cache) → o ∈ cache → o' ∈ cache → handle o = handle o' → o = o'.
Proof.
  induction cache as [|x cache IH]; [by intros _ H%elem_of_nil|].
  csimpl. intros Hnd Ho Ho' Heq. apply NoDup_cons in Hnd as [Hx Hnd].
  apply elem_of_cons in Ho as [->|Ho], Ho' as [->|Ho']; try done.
  - exfalso. apply Hx. apply list_elem_of_fmap. exists o'. by rewrite Heq.
  - exfalso. apply Hx. apply list_elem_of_fmap. eauto.
  - by apply IH.
Qed.

(** What the walk has established when it is at index [i]. *)
Lemma CollectHandles_walk cache (rank : Z → nat) h0 :
  NoDup (handle <$> cache) →
  (∀ o, o ∈ cache → rank (parent o) < rank (handle o)) →
  ∀ fuel hs i,
    S (length cache) ≤ fuel + i →
    i ≤ length hs →
    hs !! 0 = Some h0 →
    NoDup hs →
    (∀ x, x ∈ hs → rank h0 ≤ rank x) →
    (∀ k x, hs !! k = Some x → 0 < k →
       ∃ o j, o ∈ cache ∧ handle o = x ∧ hs !! j = Some (parent o) ∧ j < k ∧ j < i) →
    (∀ j o, j < i → o ∈ cache → hs !! j = Some (parent o) → handle o ∈ hs) →
    ∃ hs', CollectHandles fuel cache hs i = Some hs' ∧
      hs' !! 0 = Some h0 ∧ NoDup hs' ∧
      (∀ k x, hs' !! k = Some x → 0 < k →
         ∃ o j, o ∈ cache ∧ handle o = x ∧ hs' !! j = Some (parent o) ∧ j < k) ∧
      (∀ o, o ∈ cache → parent o ∈ hs' → handle o ∈ hs') ∧
      (∀ x, x ∈ hs' → rank h0 ≤ rank x).
Proof.
  intros Hnd Hrank. induction fuel as [|fuel IH]; intros hs i Hfuel Hi H0 Hhs Hrk Hkid Hclosed.
  - (* no fuel: the walk is at the end *)
    assert (length hs ≤ S (length cache)) as Hlen.
    { destruct hs as [|x rest]; [done|]. simpl. apply le_n_S.
      apply NoDup_cons in Hhs as [_ Hrest].
      rewrite <- (length_fmap handle cache). apply submseteq_length.
      apply NoDup_submseteq; [done|]. intros y Hy.
      apply list_elem_of_lookup in Hy as [k Hk].
      destruct (Hkid (S k) y Hk) as (o & j & Ho & <- & _); [lia|].
      apply list_elem_of_fmap. eauto. }
    assert (i = length hs) as -> by lia.
    simpl. rewrite lookup_ge_None_2 by lia. exists hs. repeat split; try done.
    + intros k x Hk Hpos. destruct (Hkid k x Hk Hpos) as (o & j & ? & ? & ? & ? & _). eauto 10.
    + intros o Ho Hpar. apply list_elem_of_lookup in Hpar as [j Hj].
      apply (Hclosed j o); [|done|done]. by apply lookup_lt_Some in Hj.
  - simpl. destruct (hs !! i) as [h|] eqn:Hh.
    2:{ apply lookup_ge_None in Hh. assert (i = length hs) as -> by lia.
        exists hs. repeat split; try done.
        + intros k x Hk Hpos.
          destruct (Hkid k x Hk Hpos) as (o & j & ? & ? & ? & ? & _). eauto 10.
        + intros o Ho Hpar. apply list_elem_of_lookup in Hpar as [j Hj].
          apply (Hclosed j o); [|done|done]. by apply lookup_lt_Some in Hj. }
    rewrite PushChildren_app. set (kids := handle <$> filter (λ o, parent o = h) cache).
    assert (∀ y, y ∈ kids ↔ ∃ o, o ∈ cache ∧ parent o = h ∧ handle o = y) as Hkids.
    { intros y. unfold kids. rewrite list_elem_of_fmap. split.
      - intros (o & -> & Ho). apply list_elem_of_filter in Ho as [? ?]. eauto.
      - intros (o & Ho & Hp & <-). exists o. split; [done|]. by apply list_elem_of_filter. }
    pose proof (lookup_lt_Some _ _ _ Hh) as Hilt.
    apply IH.
    + lia.
    + rewrite length_app. lia.
    + by apply lookup_app_l_Some.
    + apply NoDup_app. split; [done|]. split; [|by apply NoDup_fmap_filter].
      intros y Hy Hyk. apply Hkids in Hyk as (o & Ho & Hp & <-).
      apply list_elem_of_lookup in Hy as [k Hk]. destruct k as [|k].
      * assert (handle o = h0) as Heq by congruence.
        specialize (Hrank o Ho). rewrite Hp, Heq in Hrank.
        assert (rank h0 ≤ rank h); [|lia]. apply Hrk. by eapply list_elem_of_lookup_2.
      * destruct (Hkid (S k) (handle o) Hk) as (o' & j & Ho' & Heq & Hj & _ & Hji); [lia|].
        assert (o' = o) as -> by by apply (handle_inj cache).
        rewrite Hp in Hj. assert (j = i); [|lia].
        by apply (NoDup_lookup hs j i h).
    + intros x Hx. apply elem_of_app in Hx as [Hx|Hx]; [auto|].
      apply Hkids in Hx as (o & Ho & Hp & <-). specialize (Hrank o Ho). rewrite Hp in Hrank.
      assert (rank h0 ≤ rank h); [|lia]. apply Hrk. by eapply list_elem_of_lookup_2.
    + intros k x Hk Hpos. apply lookup_app_Some in Hk as [Hk|[Hge Hk]].
      * destruct (Hkid k x Hk Hpos) as (o & j & Ho & Hx & Hj & Hjk & Hji).
        exists o, j. repeat split; try done; [by apply lookup_app_l_Some|lia].
      * assert (x ∈ kids) as Hx by by eapply list_elem_of_lookup_2.
        apply Hkids in Hx as (o & Ho & Hp & <-). exists o, i.
        repeat split; try done; [|lia|lia]. rewrite Hp. by apply lookup_app_l_Some.
    + intros j o Hj Ho Hpar. apply elem_of_app.
      apply lookup_app_Some in Hpar as [Hpar|[Hge Hpar]].
      2:{ exfalso. assert (length hs ≤ j) by done. lia. }
      destruct (decide (j = i)) as [->|Hne].
      * right. apply Hkids. exists o. split; [done|]. split; [congruence|done].
      * left. apply (Hclosed j o); [lia|done|done].
Qed.



End TrafficClassFacts.

Section QuietSignals.
Import TContainer.

Implicit Types (h : gmap nat TContainer) (c : TContainer).

Lemma quiet_DoFreeze w0 K w this : same_core w0 w → same_core w0 (DoFreeze K w this).
Proof. intros H. unfold DoFreeze. quiet. Qed.

Lemma quiet_DoUnfreeze w0 K w this : same_core w0 w → same_core w0 (DoUnfreeze K w this).
Proof. intros H. unfold DoUnfreeze. quiet. Qed.

Hint Resolve quiet_DoFreeze quiet_DoUnfreeze : quiet.

Lemma quiet_SendSignal w0 K w this signal freeze :
  same_core w0 w → same_core w0 (SendSignal K w this signal freeze).2.
Proof. intros H. unfold SendSignal. quiet. Qed.

Lemma quiet_KillAll w0 K w this : same_core w0 w → same_core w0 (KillAll K w this).2.
Proof. intros H. unfold KillAll. name_result. auto using quiet_SendSignal. Qed.

Lemma quiet_UpdateSoftLimit w0 K w this :
  same_core w0 w → same_core w0 (UpdateSoftLimit K w this).2.
Proof.
  intros H. eapply same_core_trans; [exact H|]. unfold UpdateSoftLimit.
  pose proof (UpdateSoftLimit_fuel_core (S this) K (Containers w) this) as Hc.
  destruct (UpdateSoftLimit_fuel (S this) K (Containers w) this) as [e h]; simpl in *.
  split; [done|]. intros r. by rewrite Hc.
Qed.

Lemma quiet_ScheduleRespawn w0 w this : same_core w0 w → same_core w0 (ScheduleRespawn w this).
Proof. intros H. unfold ScheduleRespawn. quiet. Qed.

Lemma wf_evolves w w' : wf w → evolves w w' → wf w'.
Proof. intros Hwf Hev. apply (wf_same_shape w); [done|]. by apply evolves_same_shape. Qed.

Lemma wf_same_core w w' : wf w → same_core w w' → wf w'.
Proof. intros Hwf Hsc. apply (wf_same_shape w); [done|]. by apply same_core_shape. Qed.

(** SetState without [tree] assigns the state of one container. *)
Lemma SetState_State_other w this s x :
  wf w → x ≠ this →
  State <$> Containers (SetState w this s false) !! x = State <$> Containers w !! x.
Proof.
  intros Hwf Hne. unfold SetState. cbn [Containers set_Containers].
  rewrite SetState_fuel_unfold. destruct (Containers w !! this) as [c|] eqn:Hc; [|done].
  rewrite SetOwnState_State by (eauto || by apply wf_hwf_parent).
  by rewrite decide_False.
Qed.

End QuietSignals.

#[export] Hint Resolve quiet_DoFreeze quiet_DoUnfreeze quiet_SendSignal quiet_KillAll
  quiet_UpdateSoftLimit quiet_ScheduleRespawn : quiet.

Section StartFacts.
Import TContainer.

Implicit Types (h : gmap nat TContainer) (c : TContainer).

(** The task and the persisted root pid after StartTask has succeeded. *)
Lemma StartTask_success K w this c :
  Containers w !! this = Some c →
  is_error (StartTask K w this).1 = false →
  ∃ c', Containers (StartTask K w this).2 !! this = Some c' ∧
        Task c' = Some (mkTask (TaskStart K this).2 true (-1)) ∧
        P_RAW_ROOT_PID (Props c') = Some (TaskStart K this).2.
Proof.
  intros Hc. unfold StartTask.
  set (r1 := if decide (RootType K this ≠ Directory) then DoGetLoopDev K w
             else (TError_Success, w)).
  assert (same_core w r1.2) as H1.
  { unfold r1. case_decide; [apply quiet_DoGetLoopDev|]; apply same_core_refl. }
  destruct r1 as [e1 w1]. simpl in H1.
  destruct (is_error e1) eqn:He1; [simpl; congruence|].
  match goal with |- context [Prop_Set K this ?n ?f w1] =>
    pose proof (quiet_Prop_Set w K this n f w1 H1) as H2;
    destruct (Prop_Set K this n f w1) as [e2 w2]
  end.
  simpl in H2. destruct (is_error e2) eqn:He2; [simpl; congruence|].
  pose proof (quiet_PrepareTask w K w2 this H2) as H3.
  destruct (PrepareTask K w2 this) as [e3 w3]. simpl in H3.
  destruct (is_error e3) eqn:He3; [simpl; congruence|].
  destruct (is_error (TaskStart K this).1) eqn:He4; [simpl; congruence|].
  destruct (proj2 (same_core_live w w3 this H3)) as [c3 Hc3]; [eauto|].
  unfold Data_Set, Prop_Set.
  destruct (is_error (DataSet K this "start_errno")) eqn:He5; [simpl; rewrite ?He5; simpl; congruence|].
  simpl.
  destruct (is_error (PropSet K this "raw_root_pid")) eqn:He6; [simpl; rewrite ?He6; simpl; congruence|].
  simpl. assert (is_error TError_Success = false) as Hs by reflexivity.
  rewrite ?Hs. simpl.
  intros _. rewrite !lookup_alter_eq, Hc3. simpl. eauto.
Qed.

End StartFacts.

Section StartSuccess.
Import TContainer.

Ltac quiet_step w0 H :=
  match goal with
  | |- context [let '(_, _) := ?p in _] =>
      let H' := fresh "Hq" in
      assert (same_core w0 p.2) as H' by (quiet; eauto using H with quiet);
      let e := fresh "e" in
      let w' := fresh "w" in
      let E := fresh "E" in
      let He := fresh "He" in
      destruct p as [e w'] eqn:E; cbn [snd] in H';
      destruct (is_error e) eqn:He; [simpl; congruence|]
  end.

Lemma live_evolves w w' r :
  wf w → evolves w w' → is_Some (Containers w !! r) → is_Some (Containers w' !! r).
Proof.
  intros Hwf Hev Hr. destruct (evolves_same_shape w w' Hev Hwf) as [_ Hsh].
  specialize (Hsh r). rewrite <- (fmap_is_Some shape), <- Hsh, fmap_is_Some. done.
Qed.

Lemma Task_after_SetState w this s tree r :
  wf w → Task <$> Containers (SetState w this s tree) !! r = Task <$> Containers w !! r.
Proof.
  intros Hwf. unfold SetState. cbn [Containers set_Containers].
  apply SetState_fuel_frame; [done|done|by apply wf_hwf_parent].
Qed.

Lemma Task_after_UpdateSoftLimit K w this r :
  Task <$> Containers (UpdateSoftLimit K w this).2 !! r = Task <$> Containers w !! r.
Proof.
  unfold UpdateSoftLimit.
  pose proof (UpdateSoftLimit_fuel_frame Task (S this) K (Containers w) this r) as H.
  destruct (UpdateSoftLimit_fuel (S this) K (Containers w) this) as [e h].
  cbn [snd Containers set_Containers] in *. apply H. done.
Qed.

(** X29. A Start that succeeds leaves the container Running (Meta for a meta
    start); when it is not a meta start, the container then holds the
    running task with the pid the task start returned. *)
Theorem Start_success_runs_the_task (K : TEnv) (w : TWorld) (this : nat) (meta : bool) :
  wf w →
  is_error (Start K w this meta).1 = false →
  State <$> Containers (Start K w this meta).2 !! this
    = Some (if meta then Meta else Running) ∧
  (meta = false →
   Task <$> Containers (Start K w this meta).2 !! this
     = Some (Some (mkTask (TaskStart K this).2 true (-1)))).
Proof.
  intros Hwf. unfold Start.
  pose proof (evolves_SyncStateWithCgroup w K w this (evolves_refl w)) as Hev.
  set (ws := SyncStateWithCgroup K w this) in *.
  destruct (Containers ws !! this) as [c0|] eqn:Hc0; [|done].
  case_decide; [done|].
  set (w1 := if _ && _ then _ else ws).
  assert (same_core ws w1) as H1 by (unfold w1; case_match; quiet).
  clearbody w1.
  set (c := default c0 _). clearbody c.
  destruct (negb meta && _); [done|].
  destruct (bool_decide (P_ROOT (Props c) = "/") && _); [done|].
  destruct (is_error (Revalidate K this)) eqn:Hrev; [simpl; congruence|].
  quiet_step ws H1. quiet_step ws Hq. quiet_step ws Hq0. quiet_step ws Hq1.
  quiet_step ws Hq2. quiet_step ws Hq3.
  cbn [fst snd]. intros _.
  assert (wf w6) as Hwf6.
  { eapply wf_same_core; [|exact Hq4]. by eapply wf_evolves. }
  assert (is_Some (Containers w6 !! this)) as Hlive.
  { apply (same_core_live ws w6 this Hq4). eauto. }
  split.
  - rewrite (same_core_State
      (SetState w6 this (if meta then Meta else Running) false)).
    + by apply SetState_State_self.
    + apply quiet_UpdateSoftLimit. unfold set_Started. apply same_core_fields.
  - intros ->. simpl in E4.
    rewrite Task_after_UpdateSoftLimit. cbn [Containers set_Started].
    rewrite Task_after_SetState by done.
    destruct Hq3 as [_ Hq3]. destruct (Containers w5 !! this) as [c5|] eqn:Hc5.
    + destruct (StartTask_success K w5 this c5 Hc5) as (c' & Hc' & HT & _).
      { by rewrite E4. }
      rewrite E4 in Hc'. simpl in Hc'. by rewrite Hc', <- HT.
    + specialize (Hq3 this). rewrite Hc0, Hc5 in Hq3. done.
Qed.

Lemma Start_success_runs_the_task_witness :
  State <$> Containers (Start calmEnv configured 2 false).2 !! 2 = Some Running ∧
  Task <$> Containers (Start calmEnv configured 2 false).2 !! 2
    = Some (Some (mkTask 42 true (-1))).
Proof.
  destruct (Start_success_runs_the_task calmEnv configured 2 false) as [Hs Ht].
  - apply wf_check_sound. vm_compute. reflexivity.
  - vm_compute. reflexivity.
  - split; [exact Hs|]. by apply Ht.
Defined.
End StartSuccess.

Section StopSuccess.
Import TContainer.

Lemma stopped_same_core x w w' : stopped x w → same_core w w' → stopped x w'.
Proof.
  intros [Hwf Hx] Hsc. split; [by eapply wf_same_core|].
  by rewrite (same_core_State _ _ _ Hsc).
Qed.

Lemma stopped_SetState_other x w this s : stopped x w → x ≠ this → stopped x (SetState w this s false).
Proof.
  intros [Hwf Hx] Hne. split.
  - eapply wf_evolves; [exact Hwf|]. apply evolves_SetState.
  - by rewrite SetState_State_other.
Qed.

Lemma stopped_SetState_Stopped x w this tree : stopped x w → stopped x (SetState w this Stopped tree).
Proof.
  intros [Hwf Hx]. split.
  - eapply wf_evolves; [exact Hwf|]. apply evolves_SetState.
  - unfold SetState. cbn [Containers set_Containers].
    apply SetState_fuel_keeps; [by apply wf_hwf_parent|done].
Qed.

Lemma stopped_fold_left {A} x (f : TWorld → A → TWorld) (l : list A) w :
  (∀ w a, stopped x w → stopped x (f w a)) →
  stopped x w → stopped x (fold_left f l w).
Proof. intros Hf. revert w. induction l as [|a l IH]; simpl; auto. Qed.

Lemma stopped_upd x w this f :
  (∀ c, core (f c) = core c) → stopped x w → stopped x (upd this f w).
Proof. intros Hf H. eapply stopped_same_core; [exact H|]. by apply same_core_upd. Qed.

Lemma stopped_Prop_Set x K this name f w :
  stopped x w → stopped x (Prop_Set K this name f w).2.
Proof. intros H. eapply stopped_same_core; [exact H|]. apply quiet_Prop_Set, same_core_refl. Qed.

Lemma stopped_Data_Set x K this name f w :
  stopped x w → stopped x (Data_Set K this name f w).2.
Proof. intros H. eapply stopped_same_core; [exact H|]. apply quiet_Data_Set, same_core_refl. Qed.

Lemma stopped_ShutdownOom x w this : stopped x w → stopped x (ShutdownOom w this).
Proof. intros H. eapply stopped_same_core; [exact H|]. apply quiet_ShutdownOom, same_core_refl. Qed.

Lemma stopped_KillAll x K w this : stopped x w → stopped x (KillAll K w this).2.
Proof. intros H. eapply stopped_same_core; [exact H|]. apply quiet_KillAll, same_core_refl. Qed.

Lemma stopped_ScheduleRespawn x w this : stopped x w → stopped x (ScheduleRespawn w this).
Proof.
  intros H. eapply stopped_same_core; [exact H|]. apply quiet_ScheduleRespawn, same_core_refl.
Qed.

Lemma stopped_UpdateSoftLimit x K w this : stopped x w → stopped x (UpdateSoftLimit K w this).2.
Proof.
  intros H. eapply stopped_same_core; [exact H|]. apply quiet_UpdateSoftLimit, same_core_refl.
Qed.

Lemma stopped_FreeResources x K w this : stopped x w → stopped x (FreeResources K w this).
Proof.
  intros H. eapply stopped_same_core; [exact H|]. apply quiet_FreeResources, same_core_refl.
Qed.

End StopSuccess.

Create HintDb calm.

#[export] Hint Resolve stopped_upd stopped_Prop_Set stopped_Data_Set stopped_ShutdownOom
  stopped_KillAll stopped_ScheduleRespawn stopped_UpdateSoftLimit stopped_FreeResources
  stopped_SetState_other stopped_SetState_Stopped : calm.

#[export] Hint Extern 1 (∀ c, core _ = core c) => (intros; reflexivity) : calm.

Ltac calm := branches; eauto 40 with calm.

Section StopKeepsStopped.
Import TContainer.

Lemma stopped_Exit_fuel n x K w this status oomKilled force :
  stopped x w → x ≠ this → stopped x (Exit_fuel n K w this status oomKilled force).2.
Proof.
  revert w this force. induction n as [|n IH]; intros w this force H Hne; simpl.
  - calm.
  - destruct (Containers w !! this) as [c|]; [|done].
    match goal with |- context [if ?b then _ else _] => destruct b end; [done|].
    simpl.
    match goal with
    | |- context [fold_left ?f ?l ?w1] =>
        assert (stopped x (fold_left f l w1)) as Hfold
    end.
    { apply stopped_fold_left.
      - intros w' child Hw'. destruct (Containers w' !! child) as [cc|] eqn:Hcc; [|done].
        destruct (bool_decide (State cc = Running) || bool_decide (State cc = Meta)) eqn:Hs;
          [|done].
        apply IH; [calm|].
        intros ->. destruct Hw' as [_ Hx]. rewrite Hcc in Hx. simpl in Hx.
        injection Hx as Hx. rewrite Hx in Hs. done.
      - calm. }
    revert Hfold.
    match goal with
    | |- context [fold_left ?f ?l ?w1] => generalize (fold_left f l w1)
    end.
    intros w2 Hw2. calm.
Qed.

Lemma stopped_SyncStateWithCgroup x K w this :
  stopped x w → stopped x (SyncStateWithCgroup K w this).
Proof.
  intros H. unfold SyncStateWithCgroup.
  destruct (Containers w !! this) as [c|] eqn:Hc; [|done].
  match goal with |- context [if ?b then _ else _] => destruct b eqn:Hg end; [|done].
  apply stopped_Exit_fuel; [done|].
  intros ->. destruct H as [_ Hx]. rewrite Hc in Hx. simpl in Hx. injection Hx as Hx.
  rewrite Hx in Hg. by rewrite andb_false_r in Hg.
Qed.

Lemma stopped_Stop_fuel n x K w this :
  stopped x w → stopped x (Stop_fuel n K w this).2.
Proof.
  revert w this. induction n as [|n IH]; intros w this H.
  - cbn [Stop_fuel].
    pose proof (stopped_SyncStateWithCgroup x K w this H) as Hs.
    set (ws := SyncStateWithCgroup K w this) in *. clearbody ws.
    destruct (Containers ws !! this) as [c|] eqn:Hc; [|done].
    destruct (bool_decide (State c = Stopped) || bool_decide (State c = Paused)); [done|].
    calm.
  - cbn [Stop_fuel].
    pose proof (stopped_SyncStateWithCgroup x K w this H) as Hs.
    set (ws := SyncStateWithCgroup K w this) in *. clearbody ws.
    destruct (Containers ws !! this) as [c|] eqn:Hc; [|done].
    destruct (bool_decide (State c = Stopped) || bool_decide (State c = Paused)); [done|].
    match goal with
    | |- context [let '(_, _) := ?p in _] =>
        assert (stopped x p.2) as Hp by calm; destruct p as [e1 w1]; cbn [snd] in Hp
    end.
    destruct (is_error e1); [done|].
    match goal with
    | |- context [fold_left ?f ?l ?w1] =>
        assert (stopped x (fold_left f l w1)) as Hfold
    end.
    { apply stopped_fold_left.
      - intros w' child Hw'. destruct (Containers w' !! child) as [cc|] eqn:Hcc; [|done].
        case_decide; [|done]. by apply IH.
      - calm. }
    revert Hfold.
    match goal with
    | |- context [fold_left ?f ?l ?w1] => generalize (fold_left f l w1)
    end.
    intros w2 Hw2. calm.
Qed.

End StopKeepsStopped.

Section StopClaims.
Import TContainer.

(** X30. A Stop that succeeds on a container other than the two roots leaves
    it Stopped and freed: no leaf cgroups, no traffic class, no task and no
    OOM event source. *)
Theorem Stop_success_stops_and_frees
    (K : TEnv) (w : TWorld) (this : nat) (c : TContainer) :
  wf w →
  Containers w !! this = Some c →
  IsRoot c = false → IsPortoRoot c = false →
  is_error (Stop K w this).1 = false →
  ∃ c', Containers (Stop K w this).2 !! this = Some c' ∧
        State c' = Stopped ∧
        LeafCgroups c' = [] ∧ Tclass c' = None ∧ Task c' = None ∧
        Source c' = None ∧ Efd c' = (-1)%Z.
Proof.
  intros Hwf Hc Hroot Hporto. unfold Stop. generalize (NextRef w - this). intros n.
  cbn [Stop_fuel].
  pose proof (proceeds_SyncStateWithCgroup w K w this (proceeds_refl w)) as Hpr.
  pose proof (evolves_SyncStateWithCgroup w K w this (evolves_refl w)) as Hev.
  apply proceeds_same_settings in Hpr; [|done].
  apply (wf_evolves _ _ Hwf) in Hev.
  set (ws := SyncStateWithCgroup K w this) in *. clearbody ws.
  destruct (Containers ws !! this) as [cs|] eqn:Hcs; [|done].
  assert (IsRoot cs = false ∧ IsPortoRoot cs = false) as [-> ->].
  { specialize (Hpr this). rewrite Hc, Hcs in Hpr. simpl in Hpr.
    unfold IsRoot, IsPortoRoot in *. injection Hpr as Hid _. by rewrite Hid. }
  destruct (bool_decide (State cs = Stopped) || bool_decide (State cs = Paused)); [done|].
  match goal with
  | |- context [let '(_, _) := ?p in _] =>
      assert (same_core ws p.2) as Hp by quiet; destruct p as [e1 w1]; cbn [snd] in Hp
  end.
  destruct (is_error e1) eqn:He1; [simpl; congruence|].
  intros _. cbn [negb andb snd].
  assert (stopped this (SetState w1 this Stopped false)) as Hst.
  { assert (wf w1) by (by eapply wf_same_core). split.
    - eapply wf_evolves; [eassumption|]. apply evolves_SetState.
    - apply SetState_State_self; [done|]. apply (same_core_live ws w1 this Hp). eauto. }
  match goal with
  | |- context [fold_left ?f ?l ?w1] =>
      assert (stopped this (fold_left f l w1)) as Hfold
  end.
  { apply stopped_fold_left; [|done].
    intros w' child Hw'. destruct (Containers w' !! child) as [cc|] eqn:Hcc; [|done].
    case_decide; [|done]. by apply stopped_Stop_fuel. }
  revert Hfold.
  match goal with
  | |- context [fold_left ?f ?l ?w1] => generalize (fold_left f l w1)
  end.
  intros w2 Hw2.
  match goal with
  | |- context [FreeResources K ?w3 this] =>
      assert (stopped this w3) as Hw3 by calm; generalize dependent w3
  end.
  intros w3 [Hwf3 Hs3].
  destruct (Containers w3 !! this) as [c3|] eqn:Hc3; [|done].
  destruct (FreeResources_clears K w3 this c3 Hc3) as (c' & Hc' & H1 & H2 & H3 & H4 & H5 & _).
  exists c'. repeat (split; [done|]).
  assert (stopped this (FreeResources K w3 this)) as [_ Hs].
  { apply stopped_FreeResources. split; [done|]. by rewrite Hc3. }
  rewrite Hc' in Hs. simpl in Hs. repeat (split; [congruence|]). done.
Qed.

Lemma Stop_success_stops_and_frees_witness :
  ∃ c', Containers (Stop calmEnv started 2).2 !! 2 = Some c' ∧
        State c' = Stopped ∧
        LeafCgroups c' = [] ∧ Tclass c' = None ∧ Task c' = None ∧
        Source c' = None ∧ Efd c' = (-1)%Z.
Proof.
  destruct (Containers started !! 2) as [c|] eqn:Hc; [|vm_compute in Hc; discriminate].
  apply (Stop_success_stops_and_frees calmEnv started 2 c).
  - apply wf_check_sound. vm_compute. reflexivity.
  - exact Hc.
  - vm_compute in Hc. injection Hc as <-. reflexivity.
  - vm_compute in Hc. injection Hc as <-. reflexivity.
  - vm_compute. reflexivity.
Defined.

End StopClaims.
